(** * Golf course and score tracker (App.py): a shallow embedding

    The program keeps three SQLite tables (courses, rounds, holes), fills the
    course table from an Overpass query under a time-to-live policy, and
    stores rounds with their hole-by-hole scores.

    Conventions of the embedding:
    - a Python [str] is a Rocq [string], read as a sequence of code points
      below 256 (Latin-1); [int] is [Z]; [None] is [None]; a [float] is its
      IEEE 754 value, which the program only passes through, and which a
      REAL column holds as SQLite stores it (NULL for a NaN, 0.0 for a
      negative zero);
    - a [dict] is an insertion-ordered association list with [get] taking the
      first binding of the key;
    - a table is the list of its rows in rowid order; the constraints of the
      schema (NOT NULL, CHECK, UNIQUE with its ON CONFLICT clause, FOREIGN
      KEY) are checked by the statement that writes, as SQLite does;
    - a function of the program that raises returns [inl exception]; what it
      wrote on its connection before raising is never committed; the
      connection it then leaves open is no part of the world, which is the
      state a call meets when no other connection is open;
    - rowids are not bounded: a table never fills up (SQLite gives up at
      2^63 - 1). *)

From Stdlib Require Import ZArith List String Ascii Bool Lia SpecFloat.
From Stdlib Require Import Permutation Sorted.
Import ListNotations.

Local Open Scope string_scope.
Local Open Scope Z_scope.

(** ** Python values *)

(** A [float]: sign, mantissa and exponent, or a zero, an infinity, a NaN. *)
Definition float : Set := spec_float.

Module Py.

(** [str.isspace] on one code point below 256: the ASCII white space, the
    four separators 0x1c..0x1f, NEL (0x85) and the no-break space (0xa0). *)
Definition isspace (c : ascii) : bool :=
  let n := N_of_ascii c in
  (((9 <=? n) && (n <=? 13)) || ((28 <=? n) && (n <=? 32))
   || (n =? 133) || (n =? 160))%N.

(** [str.lower] on one code point below 256: A..Z and the Latin-1 capitals
    0xc0..0xde (the multiplication sign 0xd7 apart) move up by 32. *)
Definition lower_char (c : ascii) : ascii :=
  let n := N_of_ascii c in
  if (((65 <=? n) && (n <=? 90))
      || ((192 <=? n) && (n <=? 222) && negb (n =? 215)))%N
  then ascii_of_N (n + 32) else c.

Fixpoint lower (s : string) : string :=
  match s with
  | EmptyString => EmptyString
  | String c s' => String (lower_char c) (lower s')
  end.

Fixpoint lstrip (s : string) : string :=
  match s with
  | EmptyString => EmptyString
  | String c s' => if isspace c then lstrip s' else s
  end.

Fixpoint rstrip (s : string) : string :=
  match s with
  | EmptyString => EmptyString
  | String c s' =>
      match rstrip s' with
      | EmptyString => if isspace c then EmptyString else String c EmptyString
      | r => String c r
      end
  end.

(** [s.strip()] with no argument. *)
Definition strip (s : string) : string := rstrip (lstrip s).

(** Truth value of a [str]: the empty string is false. *)
Definition truthy (s : string) : bool :=
  match s with EmptyString => false | _ => true end.

(** [x or None] for a [str] x. *)
Definition or_None (s : string) : option string :=
  if truthy s then Some s else None.

(** [x or ""] for an optional [str] x. *)
Definition or_empty (o : option string) : string :=
  match o with
  | Some s => s
  | None => EmptyString
  end.

(** A [Dict[str, str]]: its items in insertion order, keys distinct. *)
Definition dict := list (string * string).

Fixpoint get (d : dict) (k : string) : option string :=
  match d with
  | [] => None
  | (k', v) :: d' => if String.eqb k' k then Some v else get d' k
  end.

(** [s in {a, b, ...}] for a set display of strings. *)
Definition mem (s : string) (l : list string) : bool :=
  existsb (String.eqb s) l.

End Py.

(** ** Access classification *)

Definition normalize_access (tags : Py.dict) : string :=
  let access := Py.lower (Py.strip (Py.or_empty (Py.get tags "access"))) in
  if Py.truthy access then access
  else
    let membership :=
      Py.lower (Py.strip (Py.or_empty (Py.get tags "membership"))) in
    if Py.mem membership ["yes"; "required"] then "private"
    else "unknown".

(** The local function [access_label] of [load_courses_df]: the label shown
    for a stored access value ([None] is a NULL column). *)
Definition access_label (a : option string) : string :=
  let a :=
    Py.lower (match a with
              | Some s => if Py.truthy s then s else "unknown"
              | None => "unknown"
              end) in
  if String.eqb a "private" then "Private"
  else if Py.mem a ["yes"; "permissive"; "customers"] then "Public/Playable"
  else "Unknown".

(** ** Rendering a dict as text: [str(tags)] *)

Module Repr.

Definition backslash : ascii := ascii_of_N 92.
Definition squote : ascii := ascii_of_N 39.
Definition dquote : ascii := ascii_of_N 34.

Definition hexdigit (n : N) : ascii :=
  if (n <? 10)%N then ascii_of_N (48 + n) else ascii_of_N (87 + n).

(** [\xhh] *)
Definition hex_escape (c : ascii) : string :=
  let n := N_of_ascii c in
  String backslash
    (String "x" (String (hexdigit (n / 16)) (String (hexdigit (n mod 16)) ""))).

(** [str.isprintable] on one code point below 256. *)
Definition isprintable (c : ascii) : bool :=
  let n := N_of_ascii c in
  (((32 <=? n) && (n <? 127)) || ((161 <=? n) && negb (n =? 173)))%N.

Fixpoint contains (c : ascii) (s : string) : bool :=
  match s with
  | EmptyString => false
  | String c' s' => Ascii.eqb c c' || contains c s'
  end.

Definition repr_char (quote c : ascii) : string :=
  let n := N_of_ascii c in
  if Ascii.eqb c quote || Ascii.eqb c backslash
  then String backslash (String c "")
  else if (n =? 9)%N then String backslash "t"
  else if (n =? 10)%N then String backslash "n"
  else if (n =? 13)%N then String backslash "r"
  else if isprintable c then String c ""
  else hex_escape c.

Fixpoint repr_body (quote : ascii) (s : string) : string :=
  match s with
  | EmptyString => EmptyString
  | String c s' => repr_char quote c ++ repr_body quote s'
  end.

(** [repr(s)]: single quotes, unless the text holds a single quote and no
    double quote. *)
Definition repr (s : string) : string :=
  let quote :=
    if contains squote s && negb (contains dquote s) then dquote
    else squote in
  String quote (repr_body quote s ++ String quote "").

Fixpoint join (sep : string) (l : list string) : string :=
  match l with
  | [] => ""
  | [x] => x
  | x :: l' => x ++ sep ++ join sep l'
  end.

(** [str(d)] for a [Dict[str, str]]. *)
Definition str_dict (d : Py.dict) : string :=
  "{" ++ join ", " (map (fun kv => repr (fst kv) ++ ": " ++ repr (snd kv)) d)
      ++ "}".

End Repr.

(** ** Dates and times: the part of [datetime] the program uses *)

(** The constraint an [sqlite3.IntegrityError] reports. *)
Inductive constraint :=
| NOT_NULL (column : string)
| CHECK (column : string)
| FOREIGN_KEY.

(** The exceptions the program can meet: [sqlite3.IntegrityError];
    [OverflowError] when an [int] parameter does not fit SQLite's 64-bit
    INTEGER; [TypeError] from [int(None)] or from mixing naive and aware
    datetimes; [ValueError] from [fromisoformat]; and what [requests] raises
    (connection, timeout, HTTP status, body that is not JSON). *)
Inductive exception :=
| IntegrityError (c : constraint)
| OverflowError
| TypeError
| ValueError
| RequestException.

Module Datetime.

(** A [datetime] object; [tzinfo] is the UTC offset in seconds of an aware
    value and [None] for a naive one. *)
Record datetime := mk {
  year : Z; month : Z; day : Z;
  hour : Z; minute : Z; second : Z; microsecond : Z;
  tzinfo : option Z
}.

(** The calendar arithmetic of the [datetime] module: [_is_leap],
    [_days_in_month], [_days_before_month] (with their two tables, indexed
    from 1), [_days_before_year], [_ymd2ord]; [//] is [Z.div], both rounding
    down. *)
Definition is_leap (y : Z) : bool :=
  (y mod 4 =? 0) && (negb (y mod 100 =? 0) || (y mod 400 =? 0)).

Definition days_in_month (y m : Z) : Z :=
  if (m =? 2) && is_leap y then 29
  else nth (Z.to_nat m) [-1; 31; 28; 31; 30; 31; 30; 31; 31; 30; 31; 30; 31] 0.

Definition days_before_month (y m : Z) : Z :=
  nth (Z.to_nat m) [-1; 0; 31; 59; 90; 120; 151; 181; 212; 243; 273; 304; 334] 0
  + (if (2 <? m) && is_leap y then 1 else 0).

Definition days_before_year (y : Z) : Z :=
  let y := y - 1 in y * 365 + y / 4 - y / 100 + y / 400.

Definition ymd2ord (y m d : Z) : Z :=
  days_before_year y + days_before_month y m + d.

Definition toordinal (t : datetime) : Z := ymd2ord (year t) (month t) (day t).

(** The range checks of the constructor. *)
Definition valid (t : datetime) : bool :=
  (1 <=? year t) && (year t <=? 9999)
  && (1 <=? month t) && (month t <=? 12)
  && (1 <=? day t) && (day t <=? days_in_month (year t) (month t))
  && (0 <=? hour t) && (hour t <=? 23)
  && (0 <=? minute t) && (minute t <=? 59)
  && (0 <=? second t) && (second t <=? 59)
  && (0 <=? microsecond t) && (microsecond t <=? 999999).

(** [t.replace(microsecond=us)] and [t.replace(tzinfo=tz)]. *)
Definition replace_microsecond (us : Z) (t : datetime) : datetime :=
  mk (year t) (month t) (day t) (hour t) (minute t) (second t) us (tzinfo t).

Definition replace_tzinfo (tz : option Z) (t : datetime) : datetime :=
  mk (year t) (month t) (day t) (hour t) (minute t) (second t)
     (microsecond t) tz.

(** The character of a decimal digit. *)
Definition digit (n : Z) : ascii := ascii_of_N (48 + Z.to_N n).

(** ["%0wd" % n] for [0 <= n < 10^w]: the [w] low decimal digits. *)
Fixpoint zfill (w : nat) (n : Z) : string :=
  match w with
  | O => ""
  | S w' => zfill w' (n / 10) ++ String (digit (n mod 10)) ""
  end.

(** The UTC offset as [+HH:MM] (whole minutes). *)
Definition format_offset (off : Z) : string :=
  (if off <? 0 then "-" else "+")
  ++ zfill 2 (Z.abs off / 3600) ++ ":" ++ zfill 2 (Z.abs off mod 3600 / 60).

(** [t.isoformat()] *)
Definition isoformat (t : datetime) : string :=
  zfill 4 (year t) ++ "-" ++ zfill 2 (month t) ++ "-" ++ zfill 2 (day t)
  ++ "T" ++ zfill 2 (hour t) ++ ":" ++ zfill 2 (minute t)
  ++ ":" ++ zfill 2 (second t)
  ++ (if microsecond t =? 0 then "" else "." ++ zfill 6 (microsecond t))
  ++ match tzinfo t with
     | None => ""
     | Some off => format_offset off
     end.

Definition digit_val (c : ascii) : option Z :=
  let n := N_of_ascii c in
  if ((48 <=? n) && (n <=? 57))%N then Some (Z.of_N n - 48) else None.

Fixpoint parse_digits (w : nat) (acc : Z) (s : string) : option (Z * string) :=
  match w with
  | O => Some (acc, s)
  | S w' =>
      match s with
      | String c s' =>
          match digit_val c with
          | Some d => parse_digits w' (acc * 10 + d) s'
          | None => None
          end
      | EmptyString => None
      end
  end.

Definition expect (c : ascii) (s : string) : option string :=
  match s with
  | String c' s' => if Ascii.eqb c c' then Some s' else None
  | EmptyString => None
  end.

Definition skip_char (s : string) : option string :=
  match s with
  | String _ s' => Some s'
  | EmptyString => None
  end.

Definition bind {A B} (o : option A) (f : A -> option B) : option B :=
  match o with
  | Some a => f a
  | None => None
  end.

Notation "' p <- o ;; k" := (bind o (fun p => k))
  (at level 61, p pattern, o at next level, right associativity).
Notation "x <- o ;; k" := (bind o (fun x => k))
  (at level 61, o at next level, right associativity).

Definition parse_offset (s : string) : option (option Z) :=
  match s with
  | EmptyString => Some None
  | String c s' =>
      sign <- (if Ascii.eqb c "+" then Some 1
               else if Ascii.eqb c "-" then Some (-1) else None) ;;
      '(hh, s1) <- parse_digits 2 0 s' ;;
      s2 <- expect ":" s1 ;;
      '(mm, s3) <- parse_digits 2 0 s2 ;;
      match s3 with
      | EmptyString =>
          if (hh <=? 23) && (mm <=? 59)
          then Some (Some (sign * (hh * 3600 + mm * 60)))
          else None
      | _ => None
      end
  end.

Definition parse_iso (s : string) : option datetime :=
  '(y, s1) <- parse_digits 4 0 s ;;
  s2 <- expect "-" s1 ;;
  '(m, s3) <- parse_digits 2 0 s2 ;;
  s4 <- expect "-" s3 ;;
  '(d, s5) <- parse_digits 2 0 s4 ;;
  match s5 with
  | EmptyString => Some (mk y m d 0 0 0 0 None)
  | _ =>
      s6 <- skip_char s5 ;;
      '(hh, s7) <- parse_digits 2 0 s6 ;;
      s8 <- expect ":" s7 ;;
      '(mi, s9) <- parse_digits 2 0 s8 ;;
      s10 <- expect ":" s9 ;;
      '(ss, s11) <- parse_digits 2 0 s10 ;;
      tz <- parse_offset s11 ;;
      Some (mk y m d hh mi ss 0 tz)
  end.

(** [datetime.fromisoformat(s)] on the layouts [YYYY-MM-DD],
    [YYYY-MM-DD?HH:MM:SS] and [YYYY-MM-DD?HH:MM:SS+HH:MM] (any separator
    character at [?]); a text of another layout, or with a field out of
    range, is a [ValueError] here.  What [courses_last_updated] passes is
    of the third layout. *)
Definition fromisoformat (s : string) : exception + datetime :=
  match parse_iso s with
  | Some t => if valid t then inr t else inl ValueError
  | None => inl ValueError
  end.

(** The value's wall clock in microseconds, counted from the eve of
    0001-01-01 (the day of ordinal 0). *)
Definition to_microseconds (t : datetime) : Z :=
  ((toordinal t * 86400
    + (second t + minute t * 60 + hour t * 3600)) * 1000000)
  + microsecond t.

(** [a - b]: the [timedelta], held as its total number of microseconds.
    Mixing a naive and an aware value raises. *)
Definition sub (a b : datetime) : exception + Z :=
  match tzinfo a, tzinfo b with
  | None, None => inr (to_microseconds a - to_microseconds b)
  | Some oa, Some ob =>
      inr ((to_microseconds a - oa * 1000000)
           - (to_microseconds b - ob * 1000000))
  | _, _ => inl TypeError
  end.

End Datetime.

(** ** The schema of [init_db] *)

(** Rows of [courses]; a nullable column is an [option]. *)
Module Course.
Record row := mk {
  id : Z;
  osm_type : string;
  osm_id : Z;
  name : string;
  lat : option float;
  lon : option float;
  access : option string;
  raw_tags_json : option string;
  updated_at_utc : string
}.
End Course.

(** Rows of [rounds]. *)
Module Round.
Record row := mk {
  id : Z;
  played_on : string;
  course_id : Z;
  tees : option string;
  round_notes : option string;
  created_at_utc : string
}.
End Round.

(** Rows of [holes]. *)
Module Hole.
Record row := mk {
  id : Z;
  round_id : Z;
  hole_number : Z;
  strokes : Z;
  putts : option Z;
  penalties : option Z;
  hole_comment : option string
}.
End Hole.

(** The database file: the three tables and, for each, the counter that
    AUTOINCREMENT keeps in [sqlite_sequence]. *)
Record Database := mkDatabase {
  courses : list Course.row;
  rounds : list Round.row;
  holes : list Hole.row;
  seq_courses : Z;
  seq_rounds : Z;
  seq_holes : Z
}.

(** [init_db] on a file that does not exist yet ([None]) creates the three
    empty tables; on an existing database CREATE TABLE IF NOT EXISTS changes
    nothing. *)
Definition init_db (file : option Database) : Database :=
  match file with
  | Some d => d
  | None => mkDatabase [] [] [] 0 0 0
  end.

(** ** SQLite statements *)

(** A connection: the [foreign_keys] pragma of the connection and the
    database as the open transaction sees it. *)
Record Connection := mkConnection {
  foreign_keys : bool;
  tx : Database
}.

(** [db()]: a new connection.  The function sets no pragma, so
    [foreign_keys] has SQLite's default, which is off: the FOREIGN KEY
    clauses of the schema are parsed and not enforced. *)
Definition db (d : Database) : Connection := mkConnection false d.

Section Table.

Context {Row : Type}.
Variable rowid : Row -> Z.

Definition max_rowid (t : list Row) : Z :=
  fold_right (fun r m => Z.max (rowid r) m) 0 t.

(** The rowid an AUTOINCREMENT table gives to a new row: one more than the
    largest rowid it has ever held.  An INSERT draws it before it looks the
    key up, so the counter also moves when ON CONFLICT turns the statement
    into an update. *)
Definition next_rowid (t : list Row) (seq : Z) : Z :=
  Z.max (max_rowid t) seq + 1.

(** ON CONFLICT ... DO UPDATE: the row that holds the key is rewritten in
    place. *)
Fixpoint do_update (conflicts : Row -> bool) (set : Row -> Row)
  (t : list Row) : list Row :=
  match t with
  | [] => []
  | r :: t' =>
      if conflicts r then set r :: t'
      else r :: do_update conflicts set t'
  end.

End Table.

(** A Python [int] bound to a statement parameter. *)
Definition fits_int64 (z : Z) : bool :=
  (- 2 ^ 63 <=? z) && (z <? 2 ^ 63).

Definition fits_int64_opt (o : option Z) : bool :=
  match o with
  | Some z => fits_int64 z
  | None => true
  end.

Definition between (lo hi z : Z) : bool := (lo <=? z) && (z <=? hi).

(** The INSERT ... ON CONFLICT(osm_type, osm_id) DO UPDATE of
    [upsert_courses]. *)
Definition course_conflicts (osm_type : string) (osm_id : Z)
  (r : Course.row) : bool :=
  String.eqb (Course.osm_type r) osm_type && (Course.osm_id r =? osm_id).

Definition course_set (name : string) (lat lon : option float)
  (access raw_tags : option string) (updated_at : string)
  (r : Course.row) : Course.row :=
  Course.mk (Course.id r) (Course.osm_type r) (Course.osm_id r)
            name lat lon access raw_tags updated_at.

(** What a REAL column holds once a Python [float] was bound to it: SQLite
    stores a NaN as NULL, and a negative zero comes back as 0.0; every other
    value, the infinities included, is kept bit for bit. *)
Definition sqlite_real (x : option float) : option float :=
  match x with
  | Some S754_nan => None
  | Some (S754_zero _) => Some (S754_zero false)
  | _ => x
  end.

Definition insert_course (conn : Connection)
  (osm_type : option string) (osm_id : Z) (name : string)
  (lat lon : option float) (access raw_tags : string) (updated_at : string)
  : exception + Connection :=
  if negb (fits_int64 osm_id) then inl OverflowError
  else
    match osm_type with
    | None => inl (IntegrityError (NOT_NULL "courses.osm_type"))
    | Some ty =>
        let lat := sqlite_real lat in
        let lon := sqlite_real lon in
        let d := tx conn in
        let new_id := next_rowid Course.id (courses d) (seq_courses d) in
        let table :=
          if existsb (course_conflicts ty osm_id) (courses d)
          then do_update (course_conflicts ty osm_id)
                 (course_set name lat lon (Some access) (Some raw_tags)
                    updated_at)
                 (courses d)
          else (courses d
                ++ [Course.mk new_id ty osm_id name lat lon (Some access)
                      (Some raw_tags) updated_at])%list in
        inr (mkConnection (foreign_keys conn)
               (mkDatabase table (rounds d) (holes d)
                  new_id (seq_rounds d) (seq_holes d)))
    end.

(** The INSERT of [create_round]; the result carries [cur.lastrowid]. *)
Definition insert_round (conn : Connection)
  (played_on : string) (course_id : Z) (tees round_notes : option string)
  (created_at : string) : exception + (Connection * Z) :=
  if negb (fits_int64 course_id) then inl OverflowError
  else
    let d := tx conn in
    let new_id := next_rowid Round.id (rounds d) (seq_rounds d) in
    if foreign_keys conn
       && negb (existsb (fun c => Course.id c =? course_id) (courses d))
    then inl (IntegrityError FOREIGN_KEY)
    else
      inr (mkConnection (foreign_keys conn)
             (mkDatabase (courses d)
                (rounds d
                 ++ [Round.mk new_id played_on course_id tees round_notes
                       created_at])%list
                (holes d) (seq_courses d) new_id (seq_holes d)),
           new_id).

(** The INSERT ... ON CONFLICT(round_id, hole_number) DO UPDATE of
    [upsert_hole].  The CHECK constraints are tested on the values to be
    written, in column order, before the key is looked up. *)
Definition hole_conflicts (round_id hole_number : Z) (r : Hole.row) : bool :=
  (Hole.round_id r =? round_id) && (Hole.hole_number r =? hole_number).

Definition hole_set (strokes : Z) (putts penalties : option Z)
  (hole_comment : option string) (r : Hole.row) : Hole.row :=
  Hole.mk (Hole.id r) (Hole.round_id r) (Hole.hole_number r)
          strokes putts penalties hole_comment.

Definition insert_hole (conn : Connection)
  (round_id hole_number strokes : Z) (putts penalties : option Z)
  (hole_comment : option string) : exception + Connection :=
  if negb (fits_int64 round_id && fits_int64 hole_number
           && fits_int64 strokes
           && fits_int64_opt putts && fits_int64_opt penalties)
  then inl OverflowError
  else if negb (between 1 18 hole_number)
  then inl (IntegrityError (CHECK "hole_number"))
  else if negb (between 1 25 strokes)
  then inl (IntegrityError (CHECK "strokes"))
  else
    let d := tx conn in
    let new_id := next_rowid Hole.id (holes d) (seq_holes d) in
    let table :=
      if existsb (hole_conflicts round_id hole_number) (holes d)
      then do_update (hole_conflicts round_id hole_number)
             (hole_set strokes putts penalties hole_comment) (holes d)
      else (holes d
            ++ [Hole.mk new_id round_id hole_number strokes putts penalties
                  hole_comment])%list in
    if foreign_keys conn
       && negb (existsb (fun r => Round.id r =? round_id) (rounds d))
    then inl (IntegrityError FOREIGN_KEY)
    else
      inr (mkConnection (foreign_keys conn)
             (mkDatabase (courses d) (rounds d) table
                (seq_courses d) (seq_rounds d) new_id)).

(** ** Overpass elements *)

(** The [center] object of a way or relation. *)
Record Center := mkCenter {
  center_lat : option float;
  center_lon : option float
}.

(** One element of the Overpass answer, as [el.get] reads it: a key that is
    missing reads as [None]. *)
Record Element := mkElement {
  el_type : option string;
  el_id : option Z;
  el_lat : option float;
  el_lon : option float;
  el_center : option Center;
  el_tags : option Py.dict
}.

(** [el.get("type") == "node"] *)
Definition is_node (el : Element) : bool :=
  match el_type el with
  | Some ty => String.eqb ty "node"
  | None => false
  end.

Definition element_center_lat_lon (el : Element)
  : option float * option float :=
  if is_node el then (el_lat el, el_lon el)
  else
    match el_center el with
    | Some c => (center_lat c, center_lon c)
    | None => (None, None)
    end.

(** [int(x)] for the [id] of an element. *)
Definition py_int (x : option Z) : exception + Z :=
  match x with
  | Some z => inr z
  | None => inl TypeError
  end.

(** ** The world the program runs in *)

(** What the request of [fetch_courses_overpass] asks for. *)
Record Query := mkQuery {
  q_lat : float;
  q_lon : float;
  q_radius_m : Z
}.

(** What comes back: a failure of the exchange, or a JSON object whose
    [elements] key may be missing. *)
Inductive Response :=
| Failure
| Body (elements : option (list Element)).

(** The database file, the clock ([clock n] is what the n-th reading of
    [datetime.utcnow()] returns), the Overpass service, and the requests
    posted to it so far. *)
Record World := mkWorld {
  database : Database;
  clock : nat -> Datetime.datetime;
  ticks : nat;
  overpass : Query -> Response;
  posted : list Query
}.

Definition commit (conn : Connection) (w : World) : World :=
  mkWorld (tx conn) (clock w) (ticks w) (overpass w) (posted w).

(** [datetime.utcnow()]: a naive value. *)
Definition utcnow (w : World) : Datetime.datetime * World :=
  (Datetime.replace_tzinfo None (clock w (ticks w)),
   mkWorld (database w) (clock w) (S (ticks w)) (overpass w) (posted w)).

Definition utc_now_iso (w : World) : string * World :=
  let (now, w') := utcnow w in
  (Datetime.isoformat (Datetime.replace_microsecond 0 now) ++ "Z", w').

(** ** Course directory *)

Definition COURSE_CACHE_TTL_SEC : Z := 7 * 24 * 3600.

(** The centre and radius the form starts with: 39.9526 and -75.1652 as
    the floats nearest to them, and 48280 metres. *)
Definition PHILLY_LAT : float := S754_finite false 5622828577265077 (-47).
Definition PHILLY_LON : float := S754_finite true 5289280729862950 (-46).
Definition DEFAULT_RADIUS_M : Z := 48280.

Definition fetch_courses_overpass (lat lon : float) (radius_m : Z)
  (w : World) : (exception + list Element) * World :=
  let q := mkQuery lat lon radius_m in
  let w' := mkWorld (database w) (clock w) (ticks w) (overpass w)
              (posted w ++ [q])%list in
  match overpass w q with
  | Failure => (inl RequestException, w')
  | Body (Some els) => (inr els, w')
  | Body None => (inr [], w')
  end.

(** The name under which an element is stored: [tags.get("name")] when it
    is there and not empty. *)
Definition element_tags (el : Element) : Py.dict :=
  match el_tags el with
  | Some t => t
  | None => []
  end.

Definition element_name (el : Element) : option string :=
  match Py.get (element_tags el) "name" with
  | Some n => if Py.truthy n then Some n else None
  | None => None
  end.

(** The loop of [upsert_courses], on the connection [conn]; [updated] is the
    counter. *)
Fixpoint upsert_courses_loop (elements : list Element) (conn : Connection)
  (updated : Z) (w : World) : (exception + (Connection * Z)) * World :=
  match elements with
  | [] => (inr (conn, updated), w)
  | el :: rest =>
      let tags := element_tags el in
      match element_name el with
      | None => upsert_courses_loop rest conn updated w
      | Some name =>
          let (lat, lon) := element_center_lat_lon el in
          let access := normalize_access tags in
          let osm_type := el_type el in
          match py_int (el_id el) with
          | inl e => (inl e, w)
          | inr osm_id =>
              let raw_tags := Repr.str_dict tags in
              let (now, w') := utc_now_iso w in
              match insert_course conn osm_type osm_id name lat lon access
                      raw_tags now with
              | inl e => (inl e, w')
              | inr conn' => upsert_courses_loop rest conn' (updated + 1) w'
              end
          end
      end
  end.

Definition upsert_courses (elements : list Element) (w : World)
  : (exception + Z) * World :=
  let conn := db (database w) in
  match upsert_courses_loop elements conn 0 w with
  | (inl e, w') => (inl e, w')
  | (inr (conn', updated), w') => (inr updated, commit conn' w')
  end.

(** SELECT MAX(updated_at_utc): the largest text in byte order, NULL on an
    empty table. *)
Definition text_max (a b : string) : string :=
  if String.ltb a b then b else a.

Definition select_max_updated_at (t : list Course.row) : option string :=
  match t with
  | [] => None
  | r :: t' =>
      Some (fold_left (fun m r' => text_max m (Course.updated_at_utc r')) t'
              (Course.updated_at_utc r))
  end.

(** [s.replace("Z", "+00:00")] *)
Fixpoint replace_Z (s : string) : string :=
  match s with
  | EmptyString => EmptyString
  | String c s' =>
      if Ascii.eqb c "Z" then "+00:00" ++ replace_Z s'
      else String c (replace_Z s')
  end.

Definition courses_last_updated (w : World)
  : exception + option Datetime.datetime :=
  match select_max_updated_at (courses (database w)) with
  | None => inr None
  | Some max_ts =>
      if Py.truthy max_ts then
        match Datetime.fromisoformat (replace_Z max_ts) with
        | inl e => inl e
        | inr t => inr (Some t)
        end
      else inr None
  end.

(** The two messages of [maybe_refresh_courses]: "Using cached courses
    (last refresh: ...)." with the time of the last refresh, and "Refreshed
    courses from OpenStreetMap: stored/updated N items." *)
Inductive Status :=
| UsingCached (last : Datetime.datetime)
| Refreshed (count : Z).

(** The last three lines of [maybe_refresh_courses]: fetch, upsert, and the
    second message. *)
Definition refresh (lat lon : float) (radius_m : Z) (w : World)
  : (exception + Status) * World :=
  match fetch_courses_overpass lat lon radius_m w with
  | (inl e, w1) => (inl e, w1)
  | (inr elements, w1) =>
      match upsert_courses elements w1 with
      | (inl e, w2) => (inl e, w2)
      | (inr count, w2) => (inr (Refreshed count), w2)
      end
  end.

(** [age_sec < COURSE_CACHE_TTL_SEC], on the microseconds of the
    [timedelta].  [total_seconds()] is their quotient by 10^6, rounded once
    to the nearest float; the TTL is a whole number that is a float, and a
    whole number of microseconds other than the TTL is at least 10^-6 away
    from it, far more than half the spacing of the floats there: so the
    test on the rounded quotient and the test on the microseconds agree. *)
Definition age_below_ttl (age_us : Z) : bool :=
  age_us <? COURSE_CACHE_TTL_SEC * 1000000.

Definition maybe_refresh_courses (lat lon : float) (radius_m : Z)
  (force : bool) (w : World) : (exception + Status) * World :=
  match courses_last_updated w with
  | inl e => (inl e, w)
  | inr last =>
      let (now, w0) := utcnow w in
      match (if force then None else last) with
      | Some last_t =>
          match Datetime.sub now (Datetime.replace_tzinfo None last_t) with
          | inl e => (inl e, w0)
          | inr age_us =>
              if age_below_ttl age_us then (inr (UsingCached last_t), w0)
              else refresh lat lon radius_m w0
          end
      | None => refresh lat lon radius_m w0
      end
  end.

(** ** Rounds and holes *)

Definition create_round (course_id : Z) (played_on tees notes : string)
  (w : World) : (exception + Z) * World :=
  let conn := db (database w) in
  let (now, w') := utc_now_iso w in
  match insert_round conn played_on course_id (Py.or_None tees)
          (Py.or_None notes) now with
  | inl e => (inl e, w')
  | inr (conn', round_id) => (inr round_id, commit conn' w')
  end.

(** [upsert_hole].  Beside an exception stands the world as the raise
    leaves it: the database file, which the refused statement has not
    changed, the clock and the service.  The source closes its connection
    only after the commit, so a refused call leaves the connection open,
    with the lock its statement took, until the object is collected; a
    connection is no part of [World], and what a later call of the same
    process raises because of one is not described by this function. *)
Definition upsert_hole (round_id hole_number strokes : Z)
  (putts penalties : option Z) (comment : string) (w : World)
  : (exception + unit) * World :=
  let conn := db (database w) in
  match insert_hole conn round_id hole_number strokes putts penalties
          (Py.or_None comment) with
  | inl e => (inl e, w)
  | inr conn' => (inr tt, commit conn' w)
  end.

(** One entry of [hole_data]: hole, strokes, putts, penalties, comment. *)
Definition HoleEntry : Type := Z * Z * Z * Z * string.

(** The loop over [hole_data] when the save button is pressed. *)
Fixpoint save_holes (new_round_id : Z) (hole_data : list HoleEntry)
  (w : World) : (exception + unit) * World :=
  match hole_data with
  | [] => (inr tt, w)
  | (h, strokes, putts, penalties, comment) :: rest =>
      match upsert_hole new_round_id h strokes
              (if 0 <? putts then Some putts else None)
              (if 0 <? penalties then Some penalties else None)
              comment w with
      | (inl e, w') => (inl e, w')
      | (inr _, w') => save_holes new_round_id rest w'
      end
  end.

(** The [if save:] block of [main]. *)
Definition main_save (course_id : Z) (played_on tees round_notes : string)
  (hole_data : list HoleEntry) (w : World) : (exception + Z) * World :=
  match create_round course_id played_on tees round_notes w with
  | (inl e, w1) => (inl e, w1)
  | (inr new_round_id, w1) =>
      match save_holes new_round_id hole_data w1 with
      | (inl e, w2) => (inl e, w2)
      | (inr _, w2) => (inr new_round_id, w2)
      end
  end.

(** ** Vocabulary of the statements *)

(** The key of the UNIQUE constraint of each table. *)
Definition course_key (r : Course.row) : string * Z :=
  (Course.osm_type r, Course.osm_id r).

Definition hole_key (r : Hole.row) : Z * Z :=
  (Hole.round_id r, Hole.hole_number r).

(** The rows a table holds under a key. *)
Definition courses_at (osm_type : string) (osm_id : Z)
  (t : list Course.row) : list Course.row :=
  filter (course_conflicts osm_type osm_id) t.

Definition holes_at (round_id hole_number : Z) (t : list Hole.row)
  : list Hole.row :=
  filter (hole_conflicts round_id hole_number) t.

(** A course row with its [updated_at_utc] blanked. *)
Definition without_updated_at (r : Course.row) : Course.row :=
  Course.mk (Course.id r) (Course.osm_type r) (Course.osm_id r)
            (Course.name r) (Course.lat r) (Course.lon r) (Course.access r)
            (Course.raw_tags_json r) "".

(** The integers of a call of [upsert_hole] all fit an SQLite INTEGER. *)
Definition hole_ints_fit (round_id hole_number strokes : Z)
  (putts penalties : option Z) : bool :=
  fits_int64 round_id && fits_int64 hole_number && fits_int64 strokes
  && fits_int64_opt putts && fits_int64_opt penalties.

(** An entry of [hole_data] as the form produces it: hole 1..18, strokes
    1..25, putts and penalties 0..10. *)
Definition entry_hole (e : HoleEntry) : Z :=
  match e with (h, _, _, _, _) => h end.

Definition valid_entry (e : HoleEntry) : bool :=
  match e with
  | (h, strokes, putts, penalties, _) =>
      between 1 18 h && between 1 25 strokes
      && between 0 10 putts && between 0 10 penalties
  end.

(** A world to evaluate the program in: a new database file, a clock that
    stands at noon of 1 May 2024, and an Overpass service that is down. *)
Definition noon : Datetime.datetime :=
  Datetime.mk 2024 5 1 12 0 0 0 None.

Definition new_world : World :=
  mkWorld (init_db None) (fun _ => noon) 0 (fun _ => Failure) [].

(** The element is written by [upsert_courses]: it has a name that is not
    empty. *)
Definition named (el : Element) : bool :=
  match element_name el with
  | Some _ => true
  | None => false
  end.

(** The key under which the statement accepts an element: it needs a type
    and an id that fits an SQLite INTEGER. *)
Definition element_key (el : Element) : option (string * Z) :=
  match el_type el, el_id el with
  | Some ty, Some id => if fits_int64 id then Some (ty, id) else None
  | _, _ => None
  end.

(** Every named element of the batch has such a key. *)
Definition batch_ok (els : list Element) : bool :=
  forallb (fun el => implb (named el)
                       (match element_key el with
                        | Some _ => true
                        | None => false
                        end)) els.

(** The row an element leaves under rowid [id], written at [updated_at]. *)
Definition stored_row (id : Z) (el : Element) (updated_at : string)
  : Course.row :=
  Course.mk id
    (Py.or_empty (el_type el))
    (match el_id el with Some z => z | None => 0 end)
    (Py.or_empty (element_name el))
    (sqlite_real (fst (element_center_lat_lon el)))
    (sqlite_real (snd (element_center_lat_lon el)))
    (Some (normalize_access (element_tags el)))
    (Some (Repr.str_dict (element_tags el)))
    updated_at.

Definition writes_at (k : string * Z) (el : Element) : bool :=
  named el
  && match element_key el with
     | Some (ty, id) => String.eqb ty (fst k) && (id =? snd k)
     | None => false
     end.

(** The last element of a batch that is written under the key [k]. *)
Fixpoint last_written (k : string * Z) (els : list Element)
  : option Element :=
  match els with
  | [] => None
  | el :: rest =>
      match last_written k rest with
      | Some e => Some e
      | None => if writes_at k el then Some el else None
      end
  end.

(** Two elements to evaluate the program on: a way with a name, and a node
    whose tags have no name. *)
Definition sample_course : Element :=
  mkElement (Some "way") (Some 1001) None None None
    (Some [("name", "Cobbs Creek"); ("access", "yes")]).

Definition nameless_node : Element :=
  mkElement (Some "node") (Some 77) None None None
    (Some [("leisure", "golf_course")]).

(** A world whose course table holds [sample_course], and the same way
    under another name, with a centre (39.75, -75.25, that is 159/4 and
    -301/4) and another access tag. *)
Definition stocked_world : World :=
  snd (upsert_courses [sample_course] new_world).

Definition renamed_course : Element :=
  mkElement (Some "way") (Some 1001) None None
    (Some (mkCenter (Some (S754_finite false 159 (-2)))
                   (Some (S754_finite true 301 (-2)))))
    (Some [("name", "Cobbs Creek Golf Club"); ("access", "Private ")]).

(** The text [utc_now_iso] writes when the clock reads [t], and the value
    that text stands for: the reading cut to the whole second. *)
Definition whole_second (t : Datetime.datetime) : Datetime.datetime :=
  Datetime.replace_microsecond 0 (Datetime.replace_tzinfo None t).

Definition stamp (t : Datetime.datetime) : string :=
  Datetime.isoformat (whole_second t) ++ "Z".

(** The world after one reading of the clock. *)
Definition tick (w : World) : World := snd (utcnow w).

(** Lexicographic combination of two comparisons, and the comparison of two
    datetimes field by field, from the year down to the second. *)
Definition lexc (c1 c2 : comparison) : comparison :=
  match c1 with
  | Eq => c2
  | _ => c1
  end.

Definition compare_fields (a b : Datetime.datetime) : comparison :=
  lexc (Datetime.year a ?= Datetime.year b)
    (lexc (Datetime.month a ?= Datetime.month b)
       (lexc (Datetime.day a ?= Datetime.day b)
          (lexc (Datetime.hour a ?= Datetime.hour b)
             (lexc (Datetime.minute a ?= Datetime.minute b)
                (Datetime.second a ?= Datetime.second b))))).

(** The instant a stamp stands for, in microseconds. *)
Definition instant (t : Datetime.datetime) : Z :=
  Datetime.to_microseconds (whole_second t).

(** [stocked_world] with the clock standing at [t]. *)
Definition stocked_world_at (t : Datetime.datetime) : World :=
  mkWorld (database stocked_world) (fun _ => t) 0 (fun _ => Failure) [].

(** Every row of the course table carries a stamp written by
    [utc_now_iso] from a valid reading of the clock. *)
Definition stamped (t : list Course.row) : Prop :=
  Forall (fun r => exists reading,
              Datetime.valid reading = true
              /\ Course.updated_at_utc r = stamp reading) t.

(** ** Reading rounds and holes back *)

(** ORDER BY: the rows sorted under [before] ([before a b] when [a] may
    come first), by insertion, rows that compare equal staying in table
    order.  The two queries below order by a key that a PRIMARY KEY or
    UNIQUE column closes, so no two of their rows compare equal. *)
Section OrderBy.

Context {Row : Type}.
Variable before : Row -> Row -> bool.

Fixpoint insert_row (r : Row) (l : list Row) : list Row :=
  match l with
  | [] => [r]
  | x :: l' => if before r x then r :: l else x :: insert_row r l'
  end.

Definition order_by (l : list Row) : list Row :=
  fold_right insert_row [] l.

End OrderBy.

(** A line of the frame of [load_holes_df]; a NULL cell is [None]. *)
Module HoleLine.
Record line := mk {
  hole_number : Z;
  strokes : Z;
  putts : option Z;
  penalties : option Z;
  hole_comment : option string
}.
End HoleLine.

Definition hole_line (r : Hole.row) : HoleLine.line :=
  HoleLine.mk (Hole.hole_number r) (Hole.strokes r) (Hole.putts r)
              (Hole.penalties r) (Hole.hole_comment r).

(** SELECT ... FROM holes WHERE round_id = ? ORDER BY hole_number. *)
Definition holes_of_round (round_id : Z) (t : list Hole.row)
  : list Hole.row :=
  order_by (fun a b => Hole.hole_number a <=? Hole.hole_number b)
    (filter (fun r => Hole.round_id r =? round_id) t).

(** The frame [load_holes_df] returns; [None] when the call raises, which
    it does when [round_id] cannot be bound as an SQLite INTEGER. *)
Definition load_holes_df (round_id : Z) (w : World)
  : option (list HoleLine.line) :=
  if fits_int64 round_id
  then Some (map hole_line (holes_of_round round_id (holes (database w))))
  else None.

(** A line of the frame of [load_rounds_df]. *)
Module RoundLine.
Record line := mk {
  round_id : Z;
  played_on : string;
  course : string;
  tees : option string;
  round_notes : option string;
  created_at_utc : string
}.
End RoundLine.

Definition round_line (rc : Round.row * Course.row) : RoundLine.line :=
  RoundLine.mk (Round.id (fst rc)) (Round.played_on (fst rc))
               (Course.name (snd rc)) (Round.tees (fst rc))
               (Round.round_notes (fst rc)) (Round.created_at_utc (fst rc)).

(** FROM rounds r JOIN courses c ON c.id = r.course_id. *)
Definition join_rounds (d : Database) : list (Round.row * Course.row) :=
  flat_map (fun r =>
              map (fun c => (r, c))
                (filter (fun c => Course.id c =? Round.course_id r)
                   (courses d)))
    (rounds d).

(** ORDER BY r.played_on DESC, r.id DESC; the dates compare as texts. *)
Definition round_before (a b : Round.row * Course.row) : bool :=
  match String.compare (Round.played_on (fst a)) (Round.played_on (fst b)) with
  | Gt => true
  | Lt => false
  | Eq => Round.id (fst b) <=? Round.id (fst a)
  end.

Definition load_rounds_df (w : World) : list RoundLine.line :=
  map round_line (order_by round_before (join_rounds (database w))).

(** ** The form of [main] *)

Definition entry_strokes (e : HoleEntry) : Z :=
  match e with (_, strokes, _, _, _) => strokes end.

(** [hole_data] as the loop over [range(1, 19)] builds it; [inputs h] is
    what the four widgets of hole [h] hold: strokes, putts, penalties,
    comment. *)
Definition form_hole_data (inputs : Z -> Z * Z * Z * string)
  : list HoleEntry :=
  map (fun h => match inputs h with
                | (strokes, putts, penalties, comment) =>
                    (h, strokes, putts, penalties, comment)
                end)
    (map Z.of_nat (seq 1 18)).

(** [sum(x[1] for x in hole_data)] *)
Definition total_strokes (hole_data : list HoleEntry) : Z :=
  fold_right (fun e total => entry_strokes e + total) 0 hole_data.

(** [holes_df["strokes"].sum()] *)
Definition strokes_sum (holes_df : list HoleLine.line) : Z :=
  fold_right (fun l total => HoleLine.strokes l + total) 0 holes_df.

(** ** More vocabulary *)

(** What the save loop passes for an entered count. *)
Definition positive_or_None (z : Z) : option Z :=
  if 0 <? z then Some z else None.

(** The line [load_holes_df] shows for an entry of [hole_data]. *)
Definition entry_line (e : HoleEntry) : HoleLine.line :=
  match e with
  | (h, strokes, putts, penalties, comment) =>
      HoleLine.mk h strokes (positive_or_None putts)
        (positive_or_None penalties) (Py.or_None comment)
  end.

(** The CHECK constraints of [holes], as a property of a row. *)
Definition hole_checked (r : Hole.row) : Prop :=
  1 <= Hole.hole_number r <= 18 /\ 1 <= Hole.strokes r <= 25.

(** What the widgets of the form allow: strokes 1..25, putts and penalties
    0..10. *)
Definition valid_inputs (inputs : Z -> Z * Z * Z * string) : Prop :=
  forall h, match inputs h with
            | (strokes, putts, penalties, _) =>
                1 <= strokes <= 25 /\ 0 <= putts <= 10
                /\ 0 <= penalties <= 10
            end.

(** The PRIMARY KEY of each table: no rowid twice. *)
Definition rowids_unique (d : Database) : Prop :=
  NoDup (map Course.id (courses d))
  /\ NoDup (map Round.id (rounds d))
  /\ NoDup (map Hole.id (holes d)).

(** The course a round refers to is there. *)
Definition course_exists (d : Database) (r : Round.row) : bool :=
  existsb (fun c => Course.id c =? Round.course_id r) (courses d).

(** In the history, [a] stands right before [b]: played later (the dates
    compared as texts) or, on the same date, saved later. *)
Definition listed_before (a b : RoundLine.line) : Prop :=
  String.compare (RoundLine.played_on a) (RoundLine.played_on b) = Gt
  \/ (RoundLine.played_on a = RoundLine.played_on b
      /\ RoundLine.round_id b < RoundLine.round_id a).

(** A new world whose service answers every request with [els]. *)
Definition answering_world (els : list Element) : World :=
  mkWorld (init_db None) (fun _ => noon) 0 (fun _ => Body (Some els)) [].

(** The element has no usable name: its tags have no [name], or an empty
    one. *)
Definition nameless (el : Element) : Prop :=
  Py.get (element_tags el) "name" = None
  \/ Py.get (element_tags el) "name" = Some "".

(** What the statement of [upsert_courses] needs of an element: a name that
    is not empty, a type, and an id that fits an SQLite INTEGER. *)
Definition writable (el : Element) : Prop :=
  exists name ty id,
    Py.get (element_tags el) "name" = Some name /\ name <> ""
    /\ el_type el = Some ty /\ el_id el = Some id /\ fits_int64 id = true.

(** The element has the key ([ty], [id]). *)
Definition keyed (ty : string) (id : Z) (el : Element) : Prop :=
  el_type el = Some ty /\ el_id el = Some id.

(** * Properties *)

(** ** The embedding, evaluated *)

Example strip_lower_private :
  normalize_access [("access", "  PRIVATE ")] = "private"
  /\ normalize_access [("access", "   "); ("membership", "Yes")] = "private"
  /\ normalize_access [("membership", "no")] = "unknown".
Proof. repeat split; reflexivity. Qed.

Example repr_of_tags :
  Repr.str_dict [("name", "Cobbs Creek"); ("access", "yes")]
  = "{'name': 'Cobbs Creek', 'access': 'yes'}"
  /\ Repr.str_dict [] = "{}"
  /\ Repr.repr "it's"
     = String Repr.dquote ("it's" ++ String Repr.dquote "").
Proof. repeat split; reflexivity. Qed.

Example ordinals :
  Datetime.ymd2ord 1 1 1 = 1
  /\ Datetime.ymd2ord 1900 3 1 = 693655
  /\ Datetime.ymd2ord 2000 2 29 = 730179
  /\ Datetime.ymd2ord 2024 5 1 = 739007
  /\ Datetime.ymd2ord 9999 12 31 = 3652059.
Proof. repeat split; reflexivity. Qed.

Example isoformat_pads :
  Datetime.isoformat (Datetime.mk 987 1 2 3 4 5 0 None)
  = "0987-01-02T03:04:05"
  /\ Datetime.isoformat (Datetime.mk 2024 5 1 12 0 0 5 None)
     = "2024-05-01T12:00:00.000005"
  /\ Datetime.fromisoformat "2024-05-01T12:00:00+00:00"
     = inr (Datetime.mk 2024 5 1 12 0 0 0 (Some 0))
  /\ Datetime.fromisoformat "2024-02-30T12:00:00+00:00" = inl ValueError.
Proof. repeat split; reflexivity. Qed.

(** The rowid counter moves on an update too: the way is written twice
    under rowid 1, and the node that follows gets rowid 3. *)
Example rowid_after_update :
  map Course.id
    (courses (database
                (snd (upsert_courses
                        [sample_course; renamed_course;
                         mkElement (Some "node") (Some 5) None None None
                           (Some [("name", "Walnut Lane")])]
                        new_world))))
  = [1; 3].
Proof. reflexivity. Qed.

(** The coordinates as the REAL columns hold them: a node at (NaN, -0.0)
    is stored with NULL and 0.0; a way is stored with the coordinates of its
    [center], here (-0.0, infinity), not with a [lat] of its own. *)
Example reals_as_stored :
  map (fun r => (Course.lat r, Course.lon r))
    (courses (database
                (snd (upsert_courses
                        [mkElement (Some "node") (Some 5) (Some S754_nan)
                           (Some (S754_zero true)) None
                           (Some [("name", "Walnut Lane")]);
                         mkElement (Some "way") (Some 6)
                           (Some (S754_finite false 3 0)) None
                           (Some (mkCenter (Some (S754_zero true))
                                    (Some (S754_infinity false))))
                           (Some [("name", "Juniata")])]
                        new_world))))
  = [(None, Some (S754_zero false));
     (Some (S754_zero false), Some (S754_infinity false))].
Proof. reflexivity. Qed.

(** ** Access classification *)

Lemma access_label_closed (a : option string) :
  In (access_label a) ["Private"; "Public/Playable"; "Unknown"].
Proof.
  unfold access_label.
  destruct (String.eqb _ "private"); [now left |].
  destruct (Py.mem _ _); simpl; auto.
Qed.

Lemma normalize_access_not_empty (tags : Py.dict) :
  normalize_access tags <> "".
Proof.
  unfold normalize_access.
  destruct (Py.lower (Py.strip (Py.or_empty (Py.get tags "access"))))
    as [|c s] eqn:E; cbv beta iota zeta delta [Py.truthy].
  - match goal with |- context [Py.mem ?a ?b] => destruct (Py.mem a b) end;
      discriminate.
  - discriminate.
Qed.

(** C2, the classification made by the source: [normalize_access] gives back
    the stripped, lower-cased [access] tag itself when it is not empty;
    otherwise "private" when the stripped, lower-cased [membership] tag is
    "yes" or "required", and "unknown" when it is neither.  So access
    "private" stays "private", access "yes" stays "yes" (it is not renamed
    "public"), membership "required" gives "private" and no tag gives
    "unknown".  The result is never empty, and the closed three-way set is
    reached when the stored value is read: [access_label] shows it as
    "Private", "Public/Playable" or "Unknown", and shows "yes" as
    "Public/Playable". *)
Theorem normalize_access_cascade :
  (forall tags : Py.dict,
      let access :=
        Py.lower (Py.strip (Py.or_empty (Py.get tags "access"))) in
      let membership :=
        Py.lower (Py.strip (Py.or_empty (Py.get tags "membership"))) in
      (access <> "" -> normalize_access tags = access)
      /\ (access = "" -> membership = "yes" \/ membership = "required" ->
          normalize_access tags = "private")
      /\ (access = "" -> membership <> "yes" -> membership <> "required" ->
          normalize_access tags = "unknown")
      /\ normalize_access tags <> ""
      /\ In (access_label (Some (normalize_access tags)))
            ["Private"; "Public/Playable"; "Unknown"])
  /\ normalize_access [("access", "private")] = "private"
  /\ normalize_access [("access", "yes")] = "yes"
  /\ normalize_access [("membership", "required")] = "private"
  /\ normalize_access [] = "unknown"
  /\ access_label (Some (normalize_access [("access", "yes")]))
     = "Public/Playable".
Proof.
  split; [| repeat split; reflexivity].
  intros tags access membership.
  assert (Hdef : normalize_access tags
                 = if Py.truthy access then access
                   else if Py.mem membership ["yes"; "required"]
                        then "private" else "unknown") by reflexivity.
  split; [| split; [| split; [| split]]].
  - intros Hne. rewrite Hdef. destruct access; [now destruct Hne | reflexivity].
  - intros He Hm. rewrite Hdef, He. cbn [Py.truthy].
    destruct Hm as [-> | ->]; reflexivity.
  - intros He Hy Hr. rewrite Hdef, He. cbn [Py.truthy Py.mem existsb].
    destruct (String.eqb_spec membership "yes") as [E|_]; [now destruct Hy |].
    destruct (String.eqb_spec membership "required") as [E|_];
      [now destruct Hr | reflexivity].
  - apply normalize_access_not_empty.
  - apply access_label_closed.
Qed.

(** C2 as the specification words it fails: for the tags [{access: "yes"}]
    the result is "yes", which is none of private, public, unknown. *)
Lemma normalize_access_yes_outside_labels :
  ~ In (normalize_access [("access", "yes")]) ["private"; "public"; "unknown"].
Proof.
  vm_compute. intros [H | [H | [H | []]]]; discriminate H.
Qed.

(** ** Tables with a UNIQUE key *)

Section TableFacts.

Context {Row Key : Type}.
Variable key : Row -> Key.
Variable conflicts : Row -> bool.
Variable set : Row -> Row.

Lemma do_update_length (t : list Row) :
  List.length (do_update conflicts set t) = List.length t.
Proof.
  induction t as [|r t IH]; simpl; [reflexivity |].
  destruct (conflicts r); simpl; congruence.
Qed.

Lemma do_update_map {B} (f : Row -> B) (t : list Row) :
  (forall r, f (set r) = f r) ->
  map f (do_update conflicts set t) = map f t.
Proof.
  intros Hf. induction t as [|r t IH]; simpl; [reflexivity |].
  destruct (conflicts r); simpl; congruence.
Qed.

Lemma filter_none (t : list Row) :
  existsb conflicts t = false -> filter conflicts t = [].
Proof.
  induction t as [|r t IH]; simpl; [reflexivity |].
  destruct (conflicts r); simpl; [discriminate | exact IH].
Qed.

Lemma filter_some (t : list Row) :
  filter conflicts t <> [] -> existsb conflicts t = true.
Proof.
  intros H. destruct (existsb conflicts t) eqn:E; [reflexivity |].
  now rewrite filter_none in H.
Qed.

(** Under the UNIQUE constraint a key selects at most one row. *)
Lemma filter_unique (k : Key) (t : list Row) :
  (forall r, conflicts r = true <-> key r = k) ->
  NoDup (map key t) ->
  existsb conflicts t = true ->
  exists r, filter conflicts t = [r] /\ conflicts r = true.
Proof.
  intros Hk. induction t as [|r t IH]; simpl; [discriminate |].
  intros Hnd Hex. inversion Hnd as [|? ? Hnotin Hnd']; subst.
  destruct (conflicts r) eqn:E.
  - exists r. split; [| exact E].
    rewrite filter_none; [reflexivity |].
    destruct (existsb conflicts t) eqn:Et; [| reflexivity].
    exfalso. apply Hnotin.
    apply existsb_exists in Et. destruct Et as (r' & Hin & Hc).
    apply Hk in E. apply Hk in Hc. rewrite E, <- Hc.
    now apply in_map.
  - simpl in Hex. exact (IH Hnd' Hex).
Qed.

Lemma do_update_filter_hit (r : Row) (t : list Row) :
  conflicts (set r) = true ->
  filter conflicts t = [r] ->
  filter conflicts (do_update conflicts set t) = [set r].
Proof.
  intros Hset. induction t as [|x t IH]; simpl; [discriminate |].
  destruct (conflicts x) eqn:E; simpl.
  - intros H. injection H as -> Ht. now rewrite Hset, Ht.
  - rewrite E. exact IH.
Qed.

Lemma do_update_filter_other (other : Row -> bool) (t : list Row) :
  (forall r, conflicts r = true -> other r = false) ->
  (forall r, conflicts r = true -> other (set r) = false) ->
  filter other (do_update conflicts set t) = filter other t.
Proof.
  intros H1 H2. induction t as [|x t IH]; simpl; [reflexivity |].
  destruct (conflicts x) eqn:E; simpl.
  - now rewrite (H1 x E), (H2 x E).
  - now rewrite IH.
Qed.

End TableFacts.

Lemma filter_snoc {A} (f : A -> bool) (t : list A) (x : A) :
  filter f (t ++ [x])%list
  = (filter f t ++ (if f x then [x] else []))%list.
Proof.
  induction t as [|y t IH]; simpl; [reflexivity |].
  destruct (f y); simpl; now rewrite IH.
Qed.

Lemma hole_conflicts_key (round_id hole_number : Z) (r : Hole.row) :
  hole_conflicts round_id hole_number r = true
  <-> hole_key r = (round_id, hole_number).
Proof.
  unfold hole_conflicts, hole_key.
  rewrite andb_true_iff, !Z.eqb_eq. split.
  - intros [-> ->]. reflexivity.
  - intros H. injection H as -> ->. auto.
Qed.

Lemma course_conflicts_key (osm_type : string) (osm_id : Z) (r : Course.row) :
  course_conflicts osm_type osm_id r = true
  <-> course_key r = (osm_type, osm_id).
Proof.
  unfold course_conflicts, course_key.
  rewrite andb_true_iff, String.eqb_eq, Z.eqb_eq. split.
  - intros [-> ->]. reflexivity.
  - intros H. injection H as -> ->. auto.
Qed.

Lemma hole_conflicts_other (r1 h1 r2 h2 : Z) (r : Hole.row) :
  (r1, h1) <> (r2, h2) ->
  hole_conflicts r1 h1 r = true -> hole_conflicts r2 h2 r = false.
Proof.
  intros Hne H1. destruct (hole_conflicts r2 h2 r) eqn:H2; [| reflexivity].
  apply hole_conflicts_key in H1, H2. congruence.
Qed.

(** ** Writing a hole *)

Lemma insert_hole_valid (conn : Connection) (round_id hole_number strokes : Z)
  (putts penalties : option Z) (comment : option string) :
  hole_ints_fit round_id hole_number strokes putts penalties = true ->
  between 1 18 hole_number = true ->
  between 1 25 strokes = true ->
  foreign_keys conn = false ->
  insert_hole conn round_id hole_number strokes putts penalties comment
  = inr (mkConnection false
           (mkDatabase (courses (tx conn)) (rounds (tx conn))
              (if existsb (hole_conflicts round_id hole_number)
                    (holes (tx conn))
               then do_update (hole_conflicts round_id hole_number)
                      (hole_set strokes putts penalties comment)
                      (holes (tx conn))
               else (holes (tx conn)
                     ++ [Hole.mk
                           (next_rowid Hole.id (holes (tx conn))
                              (seq_holes (tx conn)))
                           round_id hole_number strokes putts penalties
                           comment])%list)
              (seq_courses (tx conn)) (seq_rounds (tx conn))
              (next_rowid Hole.id (holes (tx conn)) (seq_holes (tx conn))))).
Proof.
  intros Hfit Hh Hs Hfk. unfold insert_hole, hole_ints_fit in *.
  rewrite Hfit, Hh, Hs, Hfk. reflexivity.
Qed.

Lemma absent_key_not_in {Row Key} (key : Row -> Key) (conflicts : Row -> bool)
  (k : Key) (t : list Row) :
  (forall r, conflicts r = true <-> key r = k) ->
  existsb conflicts t = false -> ~ In k (map key t).
Proof.
  intros Hk Hex Hin. apply in_map_iff in Hin. destruct Hin as (r & Hr & Hin).
  apply Hk in Hr.
  assert (existsb conflicts t = true) by (apply existsb_exists; eauto).
  congruence.
Qed.

Lemma NoDup_snoc {A} (l : list A) (x : A) :
  NoDup l -> ~ In x l -> NoDup (l ++ [x])%list.
Proof.
  intros Hnd Hx. induction Hnd as [|y l Hy Hnd IH]; simpl.
  - constructor; [tauto | constructor].
  - constructor.
    + rewrite in_app_iff. simpl in *. intuition congruence.
    + apply IH. simpl in Hx. tauto.
Qed.

(** What one successful [upsert_hole] leaves behind: a single row under its
    key, holding the values of the call, the other keys as they were. *)
Lemma upsert_hole_at (w : World) (round_id hole_number strokes : Z)
  (putts penalties : option Z) (comment : string) :
  NoDup (map hole_key (holes (database w))) ->
  hole_ints_fit round_id hole_number strokes putts penalties = true ->
  between 1 18 hole_number = true ->
  between 1 25 strokes = true ->
  exists w' id,
    upsert_hole round_id hole_number strokes putts penalties comment w
    = (inr tt, w')
    /\ holes_at round_id hole_number (holes (database w'))
       = [Hole.mk id round_id hole_number strokes putts penalties
            (Py.or_None comment)]
    /\ NoDup (map hole_key (holes (database w')))
    /\ (forall r h, (r, h) <> (round_id, hole_number) ->
          holes_at r h (holes (database w'))
          = holes_at r h (holes (database w)))
    /\ courses (database w') = courses (database w)
    /\ rounds (database w') = rounds (database w).
Proof.
  intros Hnd Hfit Hh Hs. unfold upsert_hole.
  rewrite (insert_hole_valid (db (database w)) _ _ _ _ _ _ Hfit Hh Hs eq_refl).
  cbn [db tx foreign_keys].
  set (t := holes (database w)) in *.
  set (c := hole_conflicts round_id hole_number).
  set (st := hole_set strokes putts penalties (Py.or_None comment)).
  assert (Hst : forall r, hole_key (st r) = hole_key r) by reflexivity.
  destruct (existsb c t) eqn:Hex.
  - destruct (filter_unique hole_key c (round_id, hole_number) t
                (hole_conflicts_key round_id hole_number) Hnd Hex)
      as (r & Hr & Hc).
    eexists. exists (Hole.id r). split; [reflexivity |].
    cbn [commit database holes courses rounds tx]. repeat split.
    + unfold holes_at. fold c.
      rewrite (do_update_filter_hit c st r t).
      * apply hole_conflicts_key in Hc. unfold hole_key in Hc.
        injection Hc as Hc1 Hc2. subst st. unfold hole_set.
        now rewrite Hc1, Hc2.
      * unfold c in *. apply hole_conflicts_key. rewrite Hst.
        now apply hole_conflicts_key.
      * exact Hr.
    + now rewrite (do_update_map c st hole_key t Hst).
    + intros r' h' Hne. unfold holes_at.
      apply do_update_filter_other; intros x Hx.
      * apply (hole_conflicts_other round_id hole_number); [congruence | exact Hx].
      * apply (hole_conflicts_other round_id hole_number); [congruence |].
        apply hole_conflicts_key. rewrite Hst. now apply hole_conflicts_key.
  - eexists. exists (next_rowid Hole.id t (seq_holes (database w))).
    split; [reflexivity |].
    cbn [commit database holes courses rounds tx]. repeat split.
    + unfold holes_at. fold c. rewrite filter_snoc, (filter_none c t Hex).
      unfold c, hole_conflicts. cbn [Hole.round_id Hole.hole_number].
      now rewrite !Z.eqb_refl.
    + rewrite map_app. apply NoDup_snoc; [exact Hnd |].
      exact (absent_key_not_in hole_key c _ t
               (hole_conflicts_key round_id hole_number) Hex).
    + intros r' h' Hne. unfold holes_at. rewrite filter_snoc.
      replace (hole_conflicts r' h' _) with false; [apply app_nil_r |].
      symmetry. apply (hole_conflicts_other round_id hole_number);
        [congruence |].
      unfold hole_conflicts. cbn. now rewrite !Z.eqb_refl.
Qed.

Lemma or_None_spec (s : string) :
  Py.or_None s = if String.eqb s "" then None else Some s.
Proof. destruct s; reflexivity. Qed.

Lemma upsert_hole_overwrite_length (w : World)
  (round_id hole_number strokes : Z) (putts penalties : option Z)
  (comment : string) :
  holes_at round_id hole_number (holes (database w)) <> [] ->
  List.length (holes (database
                        (snd (upsert_hole round_id hole_number strokes putts
                                penalties comment w))))
  = List.length (holes (database w)).
Proof.
  intros Hex. apply filter_some in Hex.
  unfold upsert_hole, insert_hole. cbn [db tx foreign_keys andb].
  repeat match goal with
         | |- context [if negb ?b then _ else _] => destruct b; cbn [negb snd]
         end; try reflexivity.
  rewrite Hex. cbn [snd commit database holes tx].
  apply do_update_length.
Qed.

(** C8: two successive [upsert_hole] calls for one (round, hole) with valid
    values both succeed and leave exactly one row under that key, with the
    strokes, putts, penalties and comment of the second call; the second
    call adds no row. *)
Theorem upsert_hole_last_write_wins (w : World) (round_id hole_number : Z)
  (strokes1 : Z) (putts1 penalties1 : option Z) (comment1 : string)
  (strokes2 : Z) (putts2 penalties2 : option Z) (comment2 : string) :
  NoDup (map hole_key (holes (database w))) ->
  hole_ints_fit round_id hole_number strokes1 putts1 penalties1 = true ->
  hole_ints_fit round_id hole_number strokes2 putts2 penalties2 = true ->
  between 1 18 hole_number = true ->
  between 1 25 strokes1 = true ->
  between 1 25 strokes2 = true ->
  exists w1 w2 id,
    upsert_hole round_id hole_number strokes1 putts1 penalties1 comment1 w
    = (inr tt, w1)
    /\ upsert_hole round_id hole_number strokes2 putts2 penalties2 comment2 w1
       = (inr tt, w2)
    /\ holes_at round_id hole_number (holes (database w2))
       = [Hole.mk id round_id hole_number strokes2 putts2 penalties2
            (if String.eqb comment2 "" then None else Some comment2)]
    /\ List.length (holes (database w2)) = List.length (holes (database w1)).
Proof.
  intros Hnd Hfit1 Hfit2 Hh Hs1 Hs2.
  destruct (upsert_hole_at w round_id hole_number strokes1 putts1 penalties1
              comment1 Hnd Hfit1 Hh Hs1)
    as (w1 & id1 & E1 & Hat1 & Hnd1 & _).
  destruct (upsert_hole_at w1 round_id hole_number strokes2 putts2 penalties2
              comment2 Hnd1 Hfit2 Hh Hs2)
    as (w2 & id2 & E2 & Hat2 & _).
  exists w1, w2, id2. rewrite <- or_None_spec. repeat split; auto.
  replace w2 with (snd (upsert_hole round_id hole_number strokes2 putts2
                          penalties2 comment2 w1)) by now rewrite E2.
  apply upsert_hole_overwrite_length. rewrite Hat1. discriminate.
Qed.

Lemma upsert_hole_last_write_wins_witness :
  exists w1 w2 id,
    upsert_hole 1 5 4 None None "" new_world = (inr tt, w1)
    /\ upsert_hole 1 5 6 (Some 2) None "long putt" w1 = (inr tt, w2)
    /\ holes_at 1 5 (holes (database w2))
       = [Hole.mk id 1 5 6 (Some 2) None
            (if String.eqb "long putt" "" then None else Some "long putt")]
    /\ List.length (holes (database w2)) = List.length (holes (database w1)).
Proof.
  apply (upsert_hole_last_write_wins new_world 1 5 4 None None ""
           6 (Some 2) None "long putt");
    solve [constructor | reflexivity].
Defined.

(** C7: a call of [upsert_hole] whose hole number is outside 1..18 or whose
    strokes are outside 1..25 always raises and leaves the database (and the
    rest of the world) as it was; the exception is the CHECK violation of
    the offended column whenever the integers of the call fit an SQLite
    INTEGER, and an OverflowError when one does not. *)
Theorem upsert_hole_rejects_out_of_range (w : World)
  (round_id hole_number strokes : Z) (putts penalties : option Z)
  (comment : string) :
  between 1 18 hole_number = false \/ between 1 25 strokes = false ->
  exists e,
    upsert_hole round_id hole_number strokes putts penalties comment w
    = (inl e, w)
    /\ ((hole_ints_fit round_id hole_number strokes putts penalties = true
         /\ exists column, e = IntegrityError (CHECK column))
        \/ (hole_ints_fit round_id hole_number strokes putts penalties = false
            /\ e = OverflowError)).
Proof.
  intros Hout. unfold upsert_hole, insert_hole.
  fold (hole_ints_fit round_id hole_number strokes putts penalties).
  destruct (hole_ints_fit round_id hole_number strokes putts penalties);
    cbn [negb].
  - destruct (between 1 18 hole_number) eqn:Hh; cbn [negb].
    + destruct Hout as [Hout | Hout]; [discriminate |].
      rewrite Hout. cbn [negb]. eexists. split; [reflexivity |].
      left. eauto.
    + eexists. split; [reflexivity |]. left. eauto.
  - eexists. split; [reflexivity |]. right. auto.
Qed.

Lemma upsert_hole_rejects_out_of_range_witness :
  (exists e,
      upsert_hole 1 5 26 None None "" new_world = (inl e, new_world)
      /\ ((hole_ints_fit 1 5 26 None None = true
           /\ exists column, e = IntegrityError (CHECK column))
          \/ (hole_ints_fit 1 5 26 None None = false /\ e = OverflowError)))
  /\ (exists e,
         upsert_hole 1 19 4 None None "" new_world = (inl e, new_world)
         /\ ((hole_ints_fit 1 19 4 None None = true
              /\ exists column, e = IntegrityError (CHECK column))
             \/ (hole_ints_fit 1 19 4 None None = false
                 /\ e = OverflowError))).
Proof.
  split.
  - apply (upsert_hole_rejects_out_of_range new_world 1 5 26 None None "").
    right. reflexivity.
  - apply (upsert_hole_rejects_out_of_range new_world 1 19 4 None None "").
    left. reflexivity.
Defined.

(** ** Creating a round *)

(** [create_round] inserts whenever the course id fits an SQLite INTEGER:
    the connection of [db()] does not enforce the FOREIGN KEY clause. *)
Lemma create_round_inserts (w : World) (course_id : Z)
  (played_on tees notes : string) :
  fits_int64 course_id = true ->
  exists w',
    create_round course_id played_on tees notes w
    = (inr (next_rowid Round.id (rounds (database w))
              (seq_rounds (database w))), w')
    /\ rounds (database w')
       = (rounds (database w)
          ++ [Round.mk (next_rowid Round.id (rounds (database w))
                          (seq_rounds (database w)))
                played_on course_id (Py.or_None tees) (Py.or_None notes)
                (fst (utc_now_iso w))])%list
    /\ courses (database w') = courses (database w)
    /\ holes (database w') = holes (database w).
Proof.
  intros Hfit. unfold create_round, insert_round, utc_now_iso, utcnow.
  cbn [db tx foreign_keys andb fst database]. rewrite Hfit. cbn [negb].
  eexists. split; [reflexivity |]. cbn. auto.
Qed.

(** With the pragma on, the same statement is refused for a course id that
    no row of [courses] carries: this is what the FOREIGN KEY clause of the
    schema asks for. *)
Lemma insert_round_enforced (d : Database) (course_id : Z)
  (played_on created_at : string) (tees round_notes : option string) :
  fits_int64 course_id = true ->
  existsb (fun c => Course.id c =? course_id) (courses d) = false ->
  insert_round (mkConnection true d) played_on course_id tees round_notes
    created_at
  = inl (IntegrityError FOREIGN_KEY).
Proof.
  intros Hfit Hno. unfold insert_round. cbn [tx foreign_keys].
  rewrite Hfit, Hno. reflexivity.
Qed.

(** C1, the behaviour of the source at a failing input: on a new database,
    whose [courses] table is empty, [create_round] for course 42 raises
    nothing; it returns round id 1 and the [rounds] table then holds a row
    whose [course_id] identifies no course. *)
Theorem create_round_accepts_missing_course :
  courses (database new_world) = []
  /\ fst (create_round 42 "2024-05-01" "" "" new_world) = inr 1
  /\ rounds (database (snd (create_round 42 "2024-05-01" "" "" new_world)))
     = [Round.mk 1 "2024-05-01" 42 None None "2024-05-01T12:00:00Z"]
  /\ courses (database (snd (create_round 42 "2024-05-01" "" "" new_world)))
     = [].
Proof. repeat split; vm_compute; reflexivity. Qed.

(** C10: an empty [tees], [notes] or [comment] is stored as NULL and a
    non-empty one as it is: [create_round] (for a course id that fits an
    SQLite INTEGER) appends the row with [tees] and [round_notes] so
    stored, and a valid [upsert_hole] leaves under its key the one row with
    [hole_comment] so stored. *)
Theorem empty_text_stored_as_null (w : World)
  (course_id : Z) (played_on tees notes : string)
  (round_id hole_number strokes : Z) (putts penalties : option Z)
  (comment : string) :
  fits_int64 course_id = true ->
  NoDup (map hole_key (holes (database w))) ->
  hole_ints_fit round_id hole_number strokes putts penalties = true ->
  between 1 18 hole_number = true ->
  between 1 25 strokes = true ->
  (exists new_id w' created_at,
      create_round course_id played_on tees notes w = (inr new_id, w')
      /\ rounds (database w')
         = (rounds (database w)
            ++ [Round.mk new_id played_on course_id
                  (if String.eqb tees "" then None else Some tees)
                  (if String.eqb notes "" then None else Some notes)
                  created_at])%list)
  /\ (exists w' id,
         upsert_hole round_id hole_number strokes putts penalties comment w
         = (inr tt, w')
         /\ holes_at round_id hole_number (holes (database w'))
            = [Hole.mk id round_id hole_number strokes putts penalties
                 (if String.eqb comment "" then None else Some comment)]).
Proof.
  intros Hc Hnd Hfit Hh Hs. split.
  - destruct (create_round_inserts w course_id played_on tees notes Hc)
      as (w' & E & Hr & _).
    rewrite <- !or_None_spec. eauto.
  - destruct (upsert_hole_at w round_id hole_number strokes putts penalties
                comment Hnd Hfit Hh Hs) as (w' & id & E & Hat & _).
    rewrite <- or_None_spec. eauto.
Qed.

Lemma empty_text_stored_as_null_witness :
  (exists new_id w' created_at,
      create_round 42 "2024-05-01" "" "windy" new_world = (inr new_id, w')
      /\ rounds (database w')
         = (rounds (database new_world)
            ++ [Round.mk new_id "2024-05-01" 42
                  (if String.eqb "" "" then None else Some "")
                  (if String.eqb "windy" "" then None else Some "windy")
                  created_at])%list)
  /\ (exists w' id,
         upsert_hole 1 5 4 None None "" new_world = (inr tt, w')
         /\ holes_at 1 5 (holes (database w'))
            = [Hole.mk id 1 5 4 None None
                 (if String.eqb "" "" then None else Some "")]).
Proof.
  apply (empty_text_stored_as_null new_world 42 "2024-05-01" "" "windy"
           1 5 4 None None "");
    solve [constructor | reflexivity].
Defined.

(** ** Saving the holes of a round *)

Lemma small_fits_int64 (z : Z) :
  -1000 <= z <= 1000 -> fits_int64 z = true.
Proof.
  intros H. unfold fits_int64.
  change (2 ^ 63) with 9223372036854775808.
  apply andb_true_iff. split; [apply Z.leb_le | apply Z.ltb_lt]; lia.
Qed.

Lemma between_bounds (lo hi z : Z) :
  between lo hi z = true -> lo <= z <= hi.
Proof.
  unfold between. rewrite andb_true_iff, !Z.leb_le. tauto.
Qed.

(** What the save loop passes for an entered count. *)
Lemma positive_or_None_fits (z : Z) :
  between 0 10 z = true ->
  fits_int64_opt (if 0 <? z then Some z else None) = true.
Proof.
  intros H. apply between_bounds in H.
  destruct (0 <? z); [| reflexivity].
  apply small_fits_int64. lia.
Qed.

Lemma save_holes_at (hole_data : list HoleEntry) :
  forall (w : World) (round_id : Z),
    NoDup (map hole_key (holes (database w))) ->
    fits_int64 round_id = true ->
    forallb valid_entry hole_data = true ->
    NoDup (map entry_hole hole_data) ->
    exists w',
      save_holes round_id hole_data w = (inr tt, w')
      /\ NoDup (map hole_key (holes (database w')))
      /\ (forall h s p q c,
             In (h, s, p, q, c) hole_data ->
             exists id,
               holes_at round_id h (holes (database w'))
               = [Hole.mk id round_id h s
                    (if 0 <? p then Some p else None)
                    (if 0 <? q then Some q else None)
                    (if String.eqb c "" then None else Some c)])
      /\ (forall r h,
             (r = round_id -> ~ In h (map entry_hole hole_data)) ->
             holes_at r h (holes (database w'))
             = holes_at r h (holes (database w))).
Proof.
  induction hole_data as [|[[[[h s] p] q] c] rest IH];
    intros w round_id Hnd Hrid Hvalid Hdistinct.
  - exists w. cbn. repeat split; auto. intros ? ? ? ? ? [].
  - cbn [forallb valid_entry] in Hvalid.
    apply andb_true_iff in Hvalid. destruct Hvalid as [Hv Hrest].
    do 3 (apply andb_true_iff in Hv; destruct Hv as [Hv ?]).
    cbn [map entry_hole] in Hdistinct.
    inversion Hdistinct as [|? ? Hfresh Hdistinct']; subst.
    assert (Hfit : hole_ints_fit round_id h s
                     (if 0 <? p then Some p else None)
                     (if 0 <? q then Some q else None) = true).
    { unfold hole_ints_fit. rewrite Hrid, !positive_or_None_fits by assumption.
      rewrite !small_fits_int64; [reflexivity | |].
      - match goal with H : between 1 25 s = true |- _ =>
          apply between_bounds in H; lia end.
      - apply between_bounds in Hv; lia. }
    destruct (upsert_hole_at w round_id h s _ _ c Hnd Hfit)
      as (w1 & id1 & E1 & Hat1 & Hnd1 & Hother1 & _); try assumption.
    destruct (IH w1 round_id Hnd1 Hrid Hrest Hdistinct')
      as (w' & E' & Hnd' & Hat' & Hother').
    exists w'. cbn [save_holes]. rewrite E1. repeat split; auto.
    + intros h0 s0 p0 q0 c0 [Heq | Hin].
      * injection Heq as <- <- <- <- <-. exists id1.
        rewrite Hother' by (intros _; exact Hfresh).
        now rewrite Hat1, or_None_spec.
      * eauto.
    + intros r h0 Hout. rewrite Hother'.
      * apply Hother1. intros Heq. injection Heq as -> ->.
        apply (Hout eq_refl). now left.
      * intros Hr Hin. apply (Hout Hr). now right.
Qed.

(** C3, as the source has it: [upsert_hole] stores [putts] and [penalties]
    exactly as they are passed, a zero included; the zero becomes NULL in
    the save block of [main], which passes [None] for an entered value that
    is not positive.  So after a save, every entry of [hole_data] (hole
    numbers distinct, values as the form bounds them) has one row under the
    new round, with NULL where 0 was entered and the number otherwise. *)
Theorem zero_becomes_null_in_save_not_in_upsert_hole (w : World)
  (round_id hole_number strokes : Z) (putts penalties : option Z)
  (comment : string)
  (course_id : Z) (played_on tees round_notes : string)
  (hole_data : list HoleEntry) :
  NoDup (map hole_key (holes (database w))) ->
  hole_ints_fit round_id hole_number strokes putts penalties = true ->
  between 1 18 hole_number = true ->
  between 1 25 strokes = true ->
  fits_int64 course_id = true ->
  fits_int64 (next_rowid Round.id (rounds (database w))
                (seq_rounds (database w))) = true ->
  forallb valid_entry hole_data = true ->
  NoDup (map entry_hole hole_data) ->
  (exists w' id row,
      upsert_hole round_id hole_number strokes putts penalties comment w
      = (inr tt, w')
      /\ holes_at round_id hole_number (holes (database w')) = [row]
      /\ Hole.id row = id
      /\ Hole.strokes row = strokes
      /\ Hole.putts row = putts
      /\ Hole.penalties row = penalties)
  /\ (exists new_round_id w',
         main_save course_id played_on tees round_notes hole_data w
         = (inr new_round_id, w')
         /\ forall h s p q c,
             In (h, s, p, q, c) hole_data ->
             exists id,
               holes_at new_round_id h (holes (database w'))
               = [Hole.mk id new_round_id h s
                    (if 0 <? p then Some p else None)
                    (if 0 <? q then Some q else None)
                    (if String.eqb c "" then None else Some c)]).
Proof.
  intros Hnd Hfit Hh Hs Hc Hnew Hvalid Hdistinct. split.
  - destruct (upsert_hole_at w round_id hole_number strokes putts penalties
                comment Hnd Hfit Hh Hs) as (w' & id & E & Hat & _).
    exists w', id. eexists. split; [exact E |]. split; [exact Hat |].
    cbn. auto.
  - destruct (create_round_inserts w course_id played_on tees round_notes Hc)
      as (w1 & E1 & _ & _ & Hholes).
    rewrite <- Hholes in Hnd.
    destruct (save_holes_at hole_data w1 _ Hnd Hnew Hvalid Hdistinct)
      as (w' & E' & _ & Hat & _).
    eexists. exists w'. unfold main_save. rewrite E1, E'.
    split; [reflexivity | exact Hat].
Qed.

Lemma zero_becomes_null_in_save_not_in_upsert_hole_witness :
  (exists w' id row,
      upsert_hole 1 5 4 (Some 0) (Some 0) "" new_world = (inr tt, w')
      /\ holes_at 1 5 (holes (database w')) = [row]
      /\ Hole.id row = id
      /\ Hole.strokes row = 4
      /\ Hole.putts row = Some 0
      /\ Hole.penalties row = Some 0)
  /\ (exists new_round_id w',
         main_save 42 "2024-05-01" "" "" [(1, 4, 0, 1, ""); (2, 5, 2, 0, "")]
           new_world
         = (inr new_round_id, w')
         /\ forall h s p q c,
             In (h, s, p, q, c) [(1, 4, 0, 1, ""); (2, 5, 2, 0, "")] ->
             exists id,
               holes_at new_round_id h (holes (database w'))
               = [Hole.mk id new_round_id h s
                    (if 0 <? p then Some p else None)
                    (if 0 <? q then Some q else None)
                    (if String.eqb c "" then None else Some c)]).
Proof.
  apply (zero_becomes_null_in_save_not_in_upsert_hole new_world
           1 5 4 (Some 0) (Some 0) "" 42 "2024-05-01" "" ""
           [(1, 4, 0, 1, ""); (2, 5, 2, 0, "")]);
    try reflexivity.
  - constructor.
  - repeat constructor; simpl; intuition discriminate.
Defined.

(** C3 as the specification words it fails: called with putts 0 and
    penalties 0, [upsert_hole] stores the two zeros, not NULL. *)
Lemma upsert_hole_stores_zero :
  holes (database (snd (upsert_hole 1 5 4 (Some 0) (Some 0) "" new_world)))
  = [Hole.mk 1 1 5 4 (Some 0) (Some 0) None]
  /\ ~ (forall row,
          In row (holes (database
                           (snd (upsert_hole 1 5 4 (Some 0) (Some 0) ""
                                   new_world)))) ->
          Hole.putts row = None /\ Hole.penalties row = None).
Proof.
  split; [vm_compute; reflexivity |].
  intros H. destruct (H (Hole.mk 1 1 5 4 (Some 0) (Some 0) None)) as [H1 _].
  - vm_compute. now left.
  - discriminate H1.
Qed.

(** ** Writing a course *)

Lemma course_conflicts_other (t1 : string) (i1 : Z) (t2 : string) (i2 : Z)
  (r : Course.row) :
  (t1, i1) <> (t2, i2) ->
  course_conflicts t1 i1 r = true -> course_conflicts t2 i2 r = false.
Proof.
  intros Hne H1. destruct (course_conflicts t2 i2 r) eqn:H2; [| reflexivity].
  apply course_conflicts_key in H1, H2. congruence.
Qed.

(** What one accepted INSERT ... ON CONFLICT leaves in [courses]: a single
    row under its key, with the values of the statement and the rowid the
    key already had, if it had one; the other keys as they were. *)
Lemma insert_course_at (conn : Connection) (ty : string) (osm_id : Z)
  (name : string) (lat lon : option float) (access raw_tags now : string) :
  fits_int64 osm_id = true ->
  NoDup (map course_key (courses (tx conn))) ->
  exists conn' id,
    insert_course conn (Some ty) osm_id name lat lon access raw_tags now
    = inr conn'
    /\ courses_at ty osm_id (courses (tx conn'))
       = [Course.mk id ty osm_id name (sqlite_real lat) (sqlite_real lon)
            (Some access) (Some raw_tags) now]
    /\ (forall r, In r (courses_at ty osm_id (courses (tx conn))) ->
                  id = Course.id r)
    /\ NoDup (map course_key (courses (tx conn')))
    /\ (forall ty' id', (ty', id') <> (ty, osm_id) ->
          courses_at ty' id' (courses (tx conn'))
          = courses_at ty' id' (courses (tx conn)))
    /\ (courses_at ty osm_id (courses (tx conn)) <> [] ->
        map course_key (courses (tx conn'))
        = map course_key (courses (tx conn)))
    /\ foreign_keys conn' = foreign_keys conn
    /\ rounds (tx conn') = rounds (tx conn)
    /\ holes (tx conn') = holes (tx conn).
Proof.
  intros Hfit Hnd. unfold insert_course. rewrite Hfit. cbn [negb]. cbv zeta.
  set (t := courses (tx conn)) in *.
  set (c := course_conflicts ty osm_id).
  set (st := course_set name (sqlite_real lat) (sqlite_real lon)
               (Some access) (Some raw_tags) now).
  assert (Hst : forall r, course_key (st r) = course_key r) by reflexivity.
  destruct (existsb c t) eqn:Hex.
  - destruct (filter_unique course_key c (ty, osm_id) t
                (course_conflicts_key ty osm_id) Hnd Hex) as (r & Hr & Hc).
    eexists. exists (Course.id r). split; [reflexivity |].
    cbn [tx courses rounds holes foreign_keys].
    assert (Hcst : c (st r) = true).
    { unfold c in *. apply course_conflicts_key. rewrite Hst.
      now apply course_conflicts_key. }
    repeat split.
    + unfold courses_at. fold c.
      rewrite (do_update_filter_hit c st r t Hcst Hr).
      apply course_conflicts_key in Hc. unfold course_key in Hc.
      injection Hc as Hc1 Hc2. subst st. unfold course_set.
      now rewrite Hc1, Hc2.
    + intros r' Hin. unfold courses_at in Hin. fold c in Hin.
      rewrite Hr in Hin. destruct Hin as [<- | []]. reflexivity.
    + now rewrite (do_update_map c st course_key t Hst).
    + intros ty' id' Hne. unfold courses_at.
      apply do_update_filter_other; intros x Hx.
      * apply (course_conflicts_other ty osm_id); [congruence | exact Hx].
      * apply (course_conflicts_other ty osm_id); [congruence |].
        apply course_conflicts_key. rewrite Hst.
        now apply course_conflicts_key.
    + intros _. apply (do_update_map c st course_key t Hst).
  - eexists. exists (next_rowid Course.id t (seq_courses (tx conn))).
    split; [reflexivity |].
    cbn [tx courses rounds holes foreign_keys]. repeat split.
    + unfold courses_at. fold c. rewrite filter_snoc, (filter_none c t Hex).
      unfold c, course_conflicts. cbn [Course.osm_type Course.osm_id].
      now rewrite String.eqb_refl, Z.eqb_refl.
    + intros r Hin. unfold courses_at in Hin. fold c in Hin.
      rewrite (filter_none c t Hex) in Hin. destruct Hin.
    + rewrite map_app. apply NoDup_snoc; [exact Hnd |].
      exact (absent_key_not_in course_key c _ t
               (course_conflicts_key ty osm_id) Hex).
    + intros ty' id' Hne. unfold courses_at. rewrite filter_snoc.
      replace (course_conflicts ty' id' _) with false; [apply app_nil_r |].
      symmetry. apply (course_conflicts_other ty osm_id); [congruence |].
      unfold course_conflicts. cbn.
      now rewrite String.eqb_refl, Z.eqb_refl.
    + intros Hne. exfalso. apply Hne. unfold courses_at. fold c.
      apply (filter_none c t Hex).
Qed.

(** ** The loop of [upsert_courses] *)

Lemma upsert_courses_loop_skips (els : list Element) :
  forall (conn : Connection) (n : Z) (w : World),
    upsert_courses_loop els conn n w
    = upsert_courses_loop (filter named els) conn n w.
Proof.
  induction els as [|el rest IH]; intros conn n w; [reflexivity |].
  cbn [filter]. unfold named at 1.
  destruct (element_name el) as [name|] eqn:E.
  - cbn [upsert_courses_loop]. rewrite E.
    destruct (element_center_lat_lon el) as [lat lon].
    destruct (py_int (el_id el)); [reflexivity |].
    destruct (utc_now_iso w) as [now w'].
    destruct (insert_course _ _ _ _ _ _ _ _ _); [reflexivity | apply IH].
  - cbn [upsert_courses_loop]. rewrite E. apply IH.
Qed.

Lemma upsert_courses_loop_step (el : Element) (rest : list Element)
  (conn : Connection) (n : Z) (w : World) (name ty : string) (id : Z) :
  element_name el = Some name ->
  el_type el = Some ty ->
  el_id el = Some id ->
  upsert_courses_loop (el :: rest) conn n w
  = match insert_course conn (Some ty) id name
            (fst (element_center_lat_lon el))
            (snd (element_center_lat_lon el))
            (normalize_access (element_tags el))
            (Repr.str_dict (element_tags el))
            (fst (utc_now_iso w)) with
    | inl e => (inl e, snd (utc_now_iso w))
    | inr conn' => upsert_courses_loop rest conn' (n + 1) (snd (utc_now_iso w))
    end.
Proof.
  intros Hname Hty Hid. cbn [upsert_courses_loop].
  rewrite Hname, Hty, Hid. cbn [py_int].
  destruct (element_center_lat_lon el) as [lat lon].
  destruct (utc_now_iso w) as [now w']. reflexivity.
Qed.

Lemma element_key_inv (el : Element) (ty : string) (id : Z) :
  element_key el = Some (ty, id) ->
  el_type el = Some ty /\ el_id el = Some id /\ fits_int64 id = true.
Proof.
  unfold element_key.
  destruct (el_type el) as [ty'|]; [| discriminate].
  destruct (el_id el) as [id'|]; [| discriminate].
  destruct (fits_int64 id') eqn:E; [| discriminate].
  intros H. injection H as -> ->. auto.
Qed.

Lemma writes_at_iff (k : string * Z) (el : Element) (ty : string) (id : Z) :
  named el = true ->
  element_key el = Some (ty, id) ->
  (writes_at k el = true <-> k = (ty, id)).
Proof.
  intros Hn Hk. unfold writes_at. rewrite Hn, Hk. cbn [andb].
  rewrite andb_true_iff, String.eqb_eq, Z.eqb_eq.
  destruct k as [kt ki]; cbn [fst snd]. split.
  - intros [-> ->]. reflexivity.
  - intros H. injection H as -> ->. auto.
Qed.

Lemma stored_row_eq (rid : Z) (el : Element) (name ty : string) (id : Z)
  (ts : string) :
  element_name el = Some name ->
  el_type el = Some ty ->
  el_id el = Some id ->
  stored_row rid el ts
  = Course.mk rid ty id name
      (sqlite_real (fst (element_center_lat_lon el)))
      (sqlite_real (snd (element_center_lat_lon el)))
      (Some (normalize_access (element_tags el)))
      (Some (Repr.str_dict (element_tags el))) ts.
Proof.
  intros Hname Hty Hid. unfold stored_row. now rewrite Hname, Hty, Hid.
Qed.

(** A batch with a named element that the statement refuses raises, whatever
    the database. *)
Lemma upsert_courses_loop_raises (els : list Element) :
  batch_ok els = false ->
  forall (conn : Connection) (n : Z) (w : World),
  exists e w', upsert_courses_loop els conn n w = (inl e, w').
Proof.
  induction els as [|el rest IH]; [discriminate |].
  cbn [batch_ok forallb]. fold (batch_ok rest).
  intros Hbad conn n w. cbn [upsert_courses_loop].
  unfold named, element_key in Hbad.
  destruct (element_name el) as [name|]; cbn [implb andb] in Hbad.
  - destruct (element_center_lat_lon el) as [lat lon].
    destruct (el_id el) as [id|]; cbn [py_int].
    + destruct (utc_now_iso w) as [now w'].
      unfold insert_course at 1.
      destruct (el_type el) as [ty|].
      * destruct (fits_int64 id); cbn [negb andb] in *; [| eauto].
        destruct (existsb _ _); apply IH; exact Hbad.
      * destruct (fits_int64 id); cbn [negb]; eauto.
    + eauto.
  - apply IH. exact Hbad.
Qed.

Lemma last_written_cons_skip (k : string * Z) (el : Element)
  (rest : list Element) :
  writes_at k el = false ->
  last_written k (el :: rest) = last_written k rest.
Proof.
  intros H. cbn [last_written]. rewrite H.
  now destruct (last_written k rest).
Qed.

(** An accepted batch, key by key: a key that no element is written under
    keeps its rows; a key that is written has one row, with the values of
    the last element written under it and the rowid the key had before, if
    any.  When every written key was there already, no row is added. *)
Lemma upsert_courses_loop_at (els : list Element) :
  batch_ok els = true ->
  forall (conn : Connection) (n : Z) (w : World),
    NoDup (map course_key (courses (tx conn))) ->
    exists conn' n' w',
      upsert_courses_loop els conn n w = (inr (conn', n'), w')
      /\ NoDup (map course_key (courses (tx conn')))
      /\ (forall ty id,
             match last_written (ty, id) els with
             | None =>
                 courses_at ty id (courses (tx conn'))
                 = courses_at ty id (courses (tx conn))
             | Some e =>
                 exists rid ts,
                   courses_at ty id (courses (tx conn'))
                   = [stored_row rid e ts]
                   /\ forall r, In r (courses_at ty id (courses (tx conn))) ->
                                rid = Course.id r
             end)
      /\ ((forall ty id e, last_written (ty, id) els = Some e ->
                           courses_at ty id (courses (tx conn)) <> []) ->
          map course_key (courses (tx conn'))
          = map course_key (courses (tx conn)))
      /\ rounds (tx conn') = rounds (tx conn)
      /\ holes (tx conn') = holes (tx conn).
Proof.
  induction els as [|el rest IH]; intros Hok conn n w Hnd.
  - exists conn, n, w. cbn. repeat split; auto.
  - cbn [batch_ok forallb] in Hok. fold (batch_ok rest) in Hok.
    apply andb_true_iff in Hok. destruct Hok as [Hel Hrest].
    destruct (named el) eqn:Hnamed; cbn [implb] in Hel.
    + (* the element is written *)
      destruct (element_key el) as [[ty0 id0]|] eqn:Hkey; [| discriminate].
      destruct (element_key_inv el ty0 id0 Hkey) as (Hty & Hid & Hfit).
      unfold named in Hnamed.
      destruct (element_name el) as [name|] eqn:Hname; [| discriminate].
      assert (Hn : named el = true) by (unfold named; now rewrite Hname).
      rewrite (upsert_courses_loop_step el rest conn n w name ty0 id0
                 Hname Hty Hid).
      destruct (insert_course_at conn ty0 id0 name
                  (fst (element_center_lat_lon el))
                  (snd (element_center_lat_lon el))
                  (normalize_access (element_tags el))
                  (Repr.str_dict (element_tags el))
                  (fst (utc_now_iso w)) Hfit Hnd)
        as (conn1 & id1 & E1 & Hat1 & Hid1 & Hnd1 & Hother1 & Hkeys1
            & _ & Hr1 & Hh1).
      rewrite E1.
      destruct (IH Hrest conn1 (n + 1) (snd (utc_now_iso w)) Hnd1)
        as (conn' & n' & w' & E' & Hnd' & Hat' & Hkeys' & Hr' & Hh').
      exists conn', n', w'. split; [exact E' |]. split; [exact Hnd' |].
      split; [| split; [| split; congruence]].
      * intros ty id. specialize (Hat' ty id). cbn [last_written].
        destruct (last_written (ty, id) rest) as [e|] eqn:Hlast.
        -- destruct Hat' as (rid & ts & Hrow & Hrid).
           exists rid, ts. split; [exact Hrow |].
           intros r Hin.
           destruct (writes_at (ty, id) el) eqn:Hw.
           ++ apply (writes_at_iff _ el ty0 id0 Hn Hkey) in Hw.
              injection Hw as -> ->.
              rewrite <- (Hid1 r Hin). rewrite Hat1 in Hrid.
              exact (Hrid _ (or_introl eq_refl)).
           ++ apply Hrid. rewrite Hother1; [exact Hin |].
              intros Heq. rewrite <- Heq in Hkey.
              apply (writes_at_iff (ty, id) el ty id Hn) in Hkey.
              destruct Hkey as [_ Hkey]. rewrite Hkey in Hw; [discriminate |].
              reflexivity.
        -- destruct (writes_at (ty, id) el) eqn:Hw.
           ++ apply (writes_at_iff _ el ty0 id0 Hn Hkey) in Hw.
              injection Hw as -> ->.
              exists id1, (fst (utc_now_iso w)).
              rewrite Hat', Hat1,
                (stored_row_eq id1 el name ty0 id0 _ Hname Hty Hid).
              split; [reflexivity | exact Hid1].
           ++ rewrite Hat'. apply Hother1.
              intros Heq. rewrite <- Heq in Hkey.
              apply (writes_at_iff (ty, id) el ty id Hn) in Hkey.
              destruct Hkey as [_ Hkey]. rewrite Hkey in Hw; [discriminate |].
              reflexivity.
      * intros Hpresent.
        assert (Hhere : courses_at ty0 id0 (courses (tx conn)) <> []).
        { destruct (last_written (ty0, id0) rest) as [e|] eqn:Hlast.
          - apply (Hpresent ty0 id0 e). cbn [last_written]. now rewrite Hlast.
          - apply (Hpresent ty0 id0 el). cbn [last_written]. rewrite Hlast.
            replace (writes_at (ty0, id0) el) with true; [reflexivity |].
            symmetry. now apply (writes_at_iff _ el ty0 id0 Hn Hkey). }
        rewrite Hkeys', (Hkeys1 Hhere); [reflexivity |].
        intros ty id e Hlast.
        destruct (writes_at (ty, id) el) eqn:Hw.
        -- apply (writes_at_iff _ el ty0 id0 Hn Hkey) in Hw.
           injection Hw as -> ->. rewrite Hat1. discriminate.
        -- rewrite Hother1.
           ++ apply (Hpresent ty id e). cbn [last_written]. now rewrite Hlast.
           ++ intros Heq. rewrite <- Heq in Hkey.
              apply (writes_at_iff (ty, id) el ty id Hn) in Hkey.
              destruct Hkey as [_ Hkey]. rewrite Hkey in Hw; [discriminate |].
              reflexivity.
    + (* the element has no name: it is passed over *)
      assert (Hskip : forall k, writes_at k el = false).
      { intros k. unfold writes_at. now rewrite Hnamed. }
      replace (upsert_courses_loop (el :: rest) conn n w)
        with (upsert_courses_loop rest conn n w).
      2:{ cbn [upsert_courses_loop]. unfold named in Hnamed.
          destruct (element_name el); [discriminate | reflexivity]. }
      destruct (IH Hrest conn n w Hnd)
        as (conn' & n' & w' & E' & Hnd' & Hat' & Hkeys' & Hr' & Hh').
      exists conn', n', w'. split; [exact E' |]. split; [exact Hnd' |].
      split; [| split; [| split; assumption]].
      * intros ty id. rewrite (last_written_cons_skip _ el rest (Hskip _)).
        apply Hat'.
      * intros Hpresent. apply Hkeys'. intros ty id e Hlast.
        apply (Hpresent ty id e).
        now rewrite (last_written_cons_skip _ el rest (Hskip _)).
Qed.

Lemma upsert_courses_loop_world (els : list Element) :
  forall (conn : Connection) (n : Z) (w : World),
    database (snd (upsert_courses_loop els conn n w)) = database w.
Proof.
  induction els as [|el rest IH]; intros conn n w; [reflexivity |].
  cbn [upsert_courses_loop].
  destruct (element_name el); [| apply IH].
  destruct (element_center_lat_lon el) as [lat lon].
  destruct (py_int (el_id el)); [reflexivity |].
  unfold utc_now_iso, utcnow.
  destruct (insert_course _ _ _ _ _ _ _ _ _); [reflexivity |].
  now rewrite IH.
Qed.

Lemma upsert_courses_raises (els : list Element) (w : World) :
  batch_ok els = false ->
  exists e, fst (upsert_courses els w) = inl e
            /\ database (snd (upsert_courses els w)) = database w.
Proof.
  intros Hbad.
  destruct (upsert_courses_loop_raises els Hbad (db (database w)) 0 w)
    as (e & w' & E).
  pose proof (upsert_courses_loop_world els (db (database w)) 0 w) as Hw.
  unfold upsert_courses. rewrite E in *. cbn in *. eauto.
Qed.

(** Two tables with the same keys in the same order, no key twice, that hold
    the same row under every key, are the same table ([updated_at_utc]
    left out). *)
Lemma tables_equal_by_key (t1 : list Course.row) :
  forall t2 : list Course.row,
    map course_key t2 = map course_key t1 ->
    NoDup (map course_key t1) ->
    (forall ty id,
        map without_updated_at (courses_at ty id t2)
        = map without_updated_at (courses_at ty id t1)) ->
    map without_updated_at t2 = map without_updated_at t1.
Proof.
  induction t1 as [|r1 t1 IH]; intros [|r2 t2] Hkeys Hnd Hat;
    try discriminate; [reflexivity |].
  cbn [map] in Hkeys.
  assert (Hk : course_key r2 = course_key r1) by congruence.
  assert (Hkeys' : map course_key t2 = map course_key t1) by congruence.
  clear Hkeys.
  inversion Hnd as [|? ? Hfresh Hnd']; subst.
  destruct (course_key r1) as [ty id] eqn:Hk1.
  assert (H1 : course_conflicts ty id r1 = true)
    by now apply course_conflicts_key.
  assert (H2 : course_conflicts ty id r2 = true)
    by now apply course_conflicts_key.
  pose proof (Hat ty id) as Hhere. unfold courses_at in Hhere.
  cbn [filter] in Hhere. rewrite H1, H2 in Hhere. cbn [map] in Hhere.
  assert (Hhead : without_updated_at r2 = without_updated_at r1)
    by congruence.
  assert (Htail : map without_updated_at (filter (course_conflicts ty id) t2)
                  = map without_updated_at (filter (course_conflicts ty id) t1))
    by congruence.
  cbn [map]. rewrite Hhead. f_equal.
  apply IH; [exact Hkeys' | exact Hnd' |].
  intros ty' id'.
  destruct (course_conflicts ty' id' r1) eqn:Hc1.
  - apply course_conflicts_key in Hc1. rewrite Hk1 in Hc1.
    injection Hc1 as <- <-. exact Htail.
  - assert (Hc2 : course_conflicts ty' id' r2 = false).
    { destruct (course_conflicts ty' id' r2) eqn:Hc2; [| reflexivity].
      apply course_conflicts_key in Hc2. rewrite Hk in Hc2.
      injection Hc2 as <- <-. congruence. }
    specialize (Hat ty' id'). unfold courses_at in Hat.
    cbn [filter] in Hat. now rewrite Hc1, Hc2 in Hat.
Qed.

Lemma upsert_courses_unique (els : list Element) (w : World) :
  NoDup (map course_key (courses (database w))) ->
  NoDup (map course_key (courses (database (snd (upsert_courses els w))))).
Proof.
  intros Hnd. destruct (batch_ok els) eqn:Hok.
  - destruct (upsert_courses_loop_at els Hok (db (database w)) 0 w Hnd)
      as (conn' & n' & w' & E & Hnd' & _).
    unfold upsert_courses. rewrite E. exact Hnd'.
  - destruct (upsert_courses_raises els w Hok) as (e & _ & Hdb).
    now rewrite Hdb.
Qed.

(** C5: running [upsert_courses] a second time on the same elements leaves
    the course table as the first run left it, [updated_at_utc] apart: the
    same rows in the same order (same rowid, key, name, coordinates, access
    and raw tags), hence the same number of rows, and no key twice. *)
Theorem upsert_courses_idempotent (els : list Element) (w : World) :
  NoDup (map course_key (courses (database w))) ->
  let w1 := snd (upsert_courses els w) in
  let w2 := snd (upsert_courses els w1) in
  map without_updated_at (courses (database w2))
  = map without_updated_at (courses (database w1))
  /\ List.length (courses (database w2)) = List.length (courses (database w1))
  /\ NoDup (map course_key (courses (database w2))).
Proof.
  intros Hnd w1 w2.
  assert (Hnd1 : NoDup (map course_key (courses (database w1))))
    by now apply upsert_courses_unique.
  assert (Hnd2 : NoDup (map course_key (courses (database w2))))
    by now apply upsert_courses_unique.
  destruct (batch_ok els) eqn:Hok.
  - destruct (upsert_courses_loop_at els Hok (db (database w)) 0 w Hnd)
      as (c1 & n1 & x1 & E1 & _ & Hat1 & _).
    assert (Hdb1 : database w1 = tx c1).
    { unfold w1, upsert_courses. now rewrite E1. }
    destruct (upsert_courses_loop_at els Hok (db (database w1)) 0 w1 Hnd1)
      as (c2 & n2 & x2 & E2 & _ & Hat2 & Hkeys2 & _).
    assert (Hdb2 : database w2 = tx c2).
    { unfold w2, upsert_courses. now rewrite E2. }
    cbn [db tx] in *. rewrite Hdb2, Hdb1 in *.
    assert (Hkeys : map course_key (courses (tx c2))
                    = map course_key (courses (tx c1))).
    { apply Hkeys2. intros ty id e Hlast. specialize (Hat1 ty id).
      rewrite Hlast in Hat1. destruct Hat1 as (rid & ts & -> & _).
      discriminate. }
    split; [| split; [| exact Hnd2]].
    + apply tables_equal_by_key; [exact Hkeys | exact Hnd1 |].
      intros ty id. specialize (Hat1 ty id). specialize (Hat2 ty id).
      destruct (last_written (ty, id) els) as [e|].
      * destruct Hat1 as (rid1 & ts1 & Hrow1 & _).
        destruct Hat2 as (rid2 & ts2 & Hrow2 & Hrid).
        rewrite Hrow1 in Hrid. rewrite Hrow1, Hrow2.
        rewrite (Hrid _ (or_introl eq_refl)). reflexivity.
      * now rewrite Hat2.
    + rewrite <- (length_map course_key (courses (tx c2))), Hkeys.
      apply length_map.
  - destruct (upsert_courses_raises els w1 Hok) as (e & _ & Hdb).
    fold w2 in Hdb. rewrite Hdb. auto.
Qed.

Lemma upsert_courses_idempotent_witness :
  let w1 := snd (upsert_courses [sample_course; sample_course] new_world) in
  let w2 := snd (upsert_courses [sample_course; sample_course] w1) in
  map without_updated_at (courses (database w2))
  = map without_updated_at (courses (database w1))
  /\ List.length (courses (database w2)) = List.length (courses (database w1))
  /\ NoDup (map course_key (courses (database w2))).
Proof.
  apply (upsert_courses_idempotent [sample_course; sample_course] new_world).
  constructor.
Defined.

Lemma insert_course_accepts (conn : Connection) (ty : string) (osm_id : Z)
  (name : string) (lat lon : option float) (access raw_tags now : string) :
  fits_int64 osm_id = true ->
  exists conn',
    insert_course conn (Some ty) osm_id name lat lon access raw_tags now
    = inr conn'.
Proof.
  intros Hfit. unfold insert_course. rewrite Hfit. cbn [negb]. eauto.
Qed.

(** An accepted batch returns, having read the clock once for each element
    it wrote. *)
Lemma upsert_courses_loop_returns (els : list Element) :
  batch_ok els = true ->
  forall (conn : Connection) (n : Z) (w : World),
  exists conn' w',
    upsert_courses_loop els conn n w
    = (inr (conn', n + Z.of_nat (List.length (filter named els))), w')
    /\ ticks w' = (ticks w + List.length (filter named els))%nat
    /\ clock w' = clock w.
Proof.
  induction els as [|el rest IH]; intros Hok conn n w.
  - exists conn, w. cbn. rewrite Z.add_0_r, Nat.add_0_r. auto.
  - cbn [batch_ok forallb] in Hok. fold (batch_ok rest) in Hok.
    apply andb_true_iff in Hok. destruct Hok as [Hel Hrest].
    cbn [filter]. destruct (named el) eqn:Hnamed; cbn [implb] in Hel.
    + destruct (element_key el) as [[ty id]|] eqn:Hkey; [| discriminate].
      destruct (element_key_inv el ty id Hkey) as (Hty & Hid & Hfit).
      unfold named in Hnamed.
      destruct (element_name el) as [name|] eqn:Hname; [| discriminate].
      rewrite (upsert_courses_loop_step el rest conn n w name ty id
                 Hname Hty Hid).
      destruct (insert_course_accepts conn ty id name
                  (fst (element_center_lat_lon el))
                  (snd (element_center_lat_lon el))
                  (normalize_access (element_tags el))
                  (Repr.str_dict (element_tags el))
                  (fst (utc_now_iso w)) Hfit) as (conn1 & ->).
      destruct (IH Hrest conn1 (n + 1) (snd (utc_now_iso w)))
        as (conn' & w' & E & Ht & Hc).
      exists conn', w'. cbn [List.length].
      replace (n + Z.of_nat (S (List.length (filter named rest))))
        with (n + 1 + Z.of_nat (List.length (filter named rest))) by lia.
      split; [exact E |].
      rewrite Ht, Hc. cbn. split; [lia | reflexivity].
    + replace (upsert_courses_loop (el :: rest) conn n w)
        with (upsert_courses_loop rest conn n w).
      2:{ cbn [upsert_courses_loop]. unfold named in Hnamed.
          destruct (element_name el); [discriminate | reflexivity]. }
      apply (IH Hrest).
Qed.

Lemma nameless_not_named (el : Element) : nameless el -> named el = false.
Proof.
  unfold nameless, named, element_name. intros [-> | ->]; reflexivity.
Qed.

Lemma writable_named (el : Element) :
  writable el ->
  named el = true
  /\ exists name ty id,
      element_name el = Some name
      /\ Py.get (element_tags el) "name" = Some name
      /\ element_key el = Some (ty, id).
Proof.
  intros (name & ty & id & Hname & Hne & Hty & Hid & Hfit).
  assert (Hn : element_name el = Some name).
  { unfold element_name. rewrite Hname.
    destruct name; [contradiction | reflexivity]. }
  split.
  - unfold named. now rewrite Hn.
  - exists name, ty, id. unfold element_key. now rewrite Hty, Hid, Hfit.
Qed.

Lemma writable_batch (els : list Element) :
  Forall writable els -> batch_ok els = true /\ filter named els = els.
Proof.
  induction 1 as [|el els Hel _ [IHok IHf]]; [split; reflexivity |].
  destruct (writable_named el Hel) as (Hn & name & ty & id & _ & _ & Hk).
  cbn [batch_ok forallb filter]. fold (batch_ok els).
  rewrite Hn, Hk, IHok, IHf. split; reflexivity.
Qed.

Lemma writes_at_keyed (ty : string) (id : Z) (el : Element) :
  writes_at (ty, id) el = true -> named el = true /\ keyed ty id el.
Proof.
  unfold writes_at. rewrite andb_true_iff. intros [Hn Hk].
  split; [exact Hn |].
  destruct (element_key el) as [[ty' id']|] eqn:E; [| discriminate].
  destruct (element_key_inv el ty' id' E) as (Hty & Hid & _).
  cbn [fst snd] in Hk. rewrite andb_true_iff, String.eqb_eq, Z.eqb_eq in Hk.
  destruct Hk as [-> ->]. split; assumption.
Qed.

Lemma keyed_writes_at (ty : string) (id : Z) (el : Element) :
  writable el -> keyed ty id el -> writes_at (ty, id) el = true.
Proof.
  intros Hw [Hty Hid].
  destruct (writable_named el Hw) as (Hn & name & ty' & id' & _ & _ & Hk).
  destruct (element_key_inv el ty' id' Hk) as (Hty' & Hid' & _).
  apply (writes_at_iff (ty, id) el ty' id' Hn Hk). congruence.
Qed.

Lemma last_written_In (k : string * Z) (els : list Element) (e : Element) :
  last_written k els = Some e -> In e els /\ writes_at k e = true.
Proof.
  induction els as [|el rest IH]; cbn [last_written]; [discriminate |].
  destruct (last_written k rest) as [e'|].
  - intros H. injection H as ->. destruct (IH eq_refl). split; [now right | auto].
  - destruct (writes_at k el) eqn:Hw; [| discriminate].
    intros H. injection H as <-. split; [now left | exact Hw].
Qed.

Lemma last_written_some (k : string * Z) (els : list Element) (e : Element) :
  In e els -> writes_at k e = true -> last_written k els <> None.
Proof.
  induction els as [|el rest IH]; [intros [] |].
  intros [-> | Hin] Hw; cbn [last_written].
  - rewrite Hw. now destruct (last_written k rest).
  - specialize (IH Hin Hw). now destruct (last_written k rest).
Qed.

Lemma last_written_none (k : string * Z) (els : list Element) :
  (forall e, In e els -> writes_at k e = false) -> last_written k els = None.
Proof.
  intros H. destruct (last_written k els) as [e|] eqn:E; [| reflexivity].
  destruct (last_written_In k els e E) as [Hin Hw].
  rewrite (H e Hin) in Hw. discriminate.
Qed.

(** C9: an element whose tags have no name, or an empty one, is passed
    over, and the batch goes on.  Whatever the other elements are, the
    batch with such an element in it returns or raises what the batch
    without it does and leaves the same world; alone, the element writes
    nothing and the count returned is 0.  When the other elements have a
    name, a type and an id, [upsert_courses] returns, and the count it
    returns is the number of the other elements; under the key of each of
    them the table then holds one row, with the name, coordinates, access
    and raw tags of the last element of the batch that has the key; and a
    key that none of them has keeps the rows it had, so no row is inserted
    or updated for the element without a name, whatever its type and id,
    missing ones included. *)
Theorem nameless_elements_are_skipped (before after : list Element)
  (el : Element) (w : World) :
  nameless el ->
  upsert_courses (before ++ el :: after)%list w
  = upsert_courses (before ++ after)%list w
  /\ upsert_courses [el] w = (inr 0, w)
  /\ (NoDup (map course_key (courses (database w))) ->
      Forall writable (before ++ after)%list ->
      exists w',
        upsert_courses (before ++ el :: after)%list w
        = (inr (Z.of_nat (List.length (before ++ after)%list)), w')
        /\ (forall e ty id,
               In e (before ++ after)%list -> keyed ty id e ->
               exists last name rid ts,
                 last_written (ty, id) (before ++ after)%list = Some last
                 /\ In last (before ++ after)%list
                 /\ keyed ty id last
                 /\ Py.get (element_tags last) "name" = Some name
                 /\ courses_at ty id (courses (database w'))
                    = [Course.mk rid ty id name
                         (sqlite_real (fst (element_center_lat_lon last)))
                         (sqlite_real (snd (element_center_lat_lon last)))
                         (Some (normalize_access (element_tags last)))
                         (Some (Repr.str_dict (element_tags last)))
                         ts])
        /\ (forall ty id,
               (forall e, In e (before ++ after)%list -> ~ keyed ty id e) ->
               courses_at ty id (courses (database w'))
               = courses_at ty id (courses (database w)))).
Proof.
  intros Hno.
  set (els := (before ++ after)%list) in *.
  assert (Hnamed : named el = false) by exact (nameless_not_named el Hno).
  assert (Hskip : upsert_courses (before ++ el :: after)%list w
                  = upsert_courses els w).
  { unfold upsert_courses.
    rewrite (upsert_courses_loop_skips (before ++ el :: after)%list),
      (upsert_courses_loop_skips els).
    unfold els. rewrite !filter_app. cbn [filter]. now rewrite Hnamed. }
  split; [exact Hskip |]. split.
  { unfold upsert_courses. rewrite (upsert_courses_loop_skips [el]).
    cbn [filter]. rewrite Hnamed. destruct w. reflexivity. }
  intros Hnd Hall.
  destruct (writable_batch els Hall) as [Hok Hfilter].
  destruct (upsert_courses_loop_at els Hok (db (database w)) 0 w Hnd)
    as (conn' & n' & w' & E & _ & Hat & _).
  destruct (upsert_courses_loop_returns els Hok (db (database w)) 0 w)
    as (conn2 & w2 & E2 & _).
  rewrite E, Hfilter, Z.add_0_l in E2.
  assert (Hn : n' = Z.of_nat (List.length els)) by congruence.
  assert (Hrun : upsert_courses els w
                 = (inr (Z.of_nat (List.length els)), commit conn' w')).
  { unfold upsert_courses. rewrite E, Hn. reflexivity. }
  exists (commit conn' w'). rewrite Hskip.
  split; [exact Hrun |]. split.
  - intros e ty id Hin Hkey.
    assert (Hw : writes_at (ty, id) e = true).
    { apply keyed_writes_at; [| exact Hkey].
      exact (proj1 (Forall_forall _ _) Hall e Hin). }
    specialize (Hat ty id).
    destruct (last_written (ty, id) els) as [last|] eqn:Hlast.
    2:{ now destruct (last_written_some (ty, id) els e Hin Hw). }
    destruct (last_written_In _ _ _ Hlast) as [Hlin Hlw].
    destruct (writes_at_keyed ty id last Hlw) as [_ Hlk].
    destruct (writable_named last (proj1 (Forall_forall _ _) Hall last Hlin))
      as (_ & name & _ & _ & Hname & Hget & _).
    destruct Hat as (rid & ts & Hrow & _).
    exists last, name, rid, ts. repeat split; try assumption;
      try apply Hlk.
    cbn [commit database] in *. rewrite Hrow.
    now rewrite (stored_row_eq rid last name ty id ts Hname
                   (proj1 Hlk) (proj2 Hlk)).
  - intros ty id Hnone.
    specialize (Hat ty id).
    rewrite (last_written_none (ty, id) els) in Hat; [exact Hat |].
    intros e Hin. destruct (writes_at (ty, id) e) eqn:Hw; [| reflexivity].
    destruct (writes_at_keyed ty id e Hw) as [_ Hk].
    destruct (Hnone e Hin Hk).
Qed.

Lemma nameless_elements_are_skipped_witness :
  upsert_courses
    ([sample_course]
     ++ nameless_node
        :: [mkElement (Some "node") (Some 5) None None None
              (Some [("name", "Walnut Lane")])])%list
    new_world
  = upsert_courses
      ([sample_course]
       ++ [mkElement (Some "node") (Some 5) None None None
             (Some [("name", "Walnut Lane")])])%list
      new_world
  /\ upsert_courses [nameless_node] new_world = (inr 0, new_world)
  /\ exists w',
      upsert_courses
        ([sample_course]
         ++ nameless_node
            :: [mkElement (Some "node") (Some 5) None None None
                  (Some [("name", "Walnut Lane")])])%list
        new_world
      = (inr 2, w')
      /\ (forall e ty id,
             In e [sample_course;
                   mkElement (Some "node") (Some 5) None None None
                     (Some [("name", "Walnut Lane")])] ->
             keyed ty id e ->
             exists last name rid ts,
               last_written (ty, id)
                 [sample_course;
                  mkElement (Some "node") (Some 5) None None None
                    (Some [("name", "Walnut Lane")])]
               = Some last
               /\ In last [sample_course;
                           mkElement (Some "node") (Some 5) None None None
                             (Some [("name", "Walnut Lane")])]
               /\ keyed ty id last
               /\ Py.get (element_tags last) "name" = Some name
               /\ courses_at ty id (courses (database w'))
                  = [Course.mk rid ty id name
                       (sqlite_real (fst (element_center_lat_lon last)))
                       (sqlite_real (snd (element_center_lat_lon last)))
                       (Some (normalize_access (element_tags last)))
                       (Some (Repr.str_dict (element_tags last)))
                       ts])
      /\ (forall ty id,
             (forall e,
                 In e [sample_course;
                       mkElement (Some "node") (Some 5) None None None
                         (Some [("name", "Walnut Lane")])] ->
                 ~ keyed ty id e) ->
             courses_at ty id (courses (database w'))
             = courses_at ty id (courses (database new_world))).
Proof.
  destruct (nameless_elements_are_skipped [sample_course]
              [mkElement (Some "node") (Some 5) None None None
                 (Some [("name", "Walnut Lane")])]
              nameless_node new_world)
    as (Hsame & Halone & Hrest).
  { left. reflexivity. }
  split; [exact Hsame |]. split; [exact Halone |].
  apply Hrest.
  - constructor.
  - repeat constructor.
    + exists "Cobbs Creek", "way", 1001.
      repeat split; try reflexivity. discriminate.
    + exists "Walnut Lane", "node", 5.
      repeat split; try reflexivity. discriminate.
Defined.

(** ** One row per key *)

Lemma fetch_courses_overpass_database (lat lon : float) (radius_m : Z)
  (w : World) :
  database (snd (fetch_courses_overpass lat lon radius_m w)) = database w.
Proof.
  unfold fetch_courses_overpass.
  destruct (overpass w _) as [|[els|]]; reflexivity.
Qed.

Lemma refresh_unique (lat lon : float) (radius_m : Z) (w : World) :
  NoDup (map course_key (courses (database w))) ->
  NoDup (map course_key
           (courses (database (snd (refresh lat lon radius_m w))))).
Proof.
  intros Hnd. unfold refresh.
  pose proof (fetch_courses_overpass_database lat lon radius_m w) as Hdb.
  destruct (fetch_courses_overpass lat lon radius_m w) as [[e|els] w1];
    cbn [snd] in *.
  - now rewrite Hdb.
  - rewrite <- Hdb in Hnd.
    pose proof (upsert_courses_unique els w1 Hnd) as H.
    destruct (upsert_courses els w1) as [[e|count] w2]; exact H.
Qed.

Lemma maybe_refresh_courses_unique (lat lon : float) (radius_m : Z)
  (force : bool) (w : World) :
  NoDup (map course_key (courses (database w))) ->
  NoDup (map course_key
           (courses (database
                       (snd (maybe_refresh_courses lat lon radius_m force
                               w))))).
Proof.
  intros Hnd. unfold maybe_refresh_courses.
  destruct (courses_last_updated w) as [e|last]; [exact Hnd |].
  unfold utcnow.
  set (w0 := mkWorld (database w) (clock w) (S (ticks w)) (overpass w)
               (posted w)).
  assert (Hnd0 : NoDup (map course_key (courses (database w0)))) by exact Hnd.
  destruct (if force then None else last) as [last_t|];
    [| now apply refresh_unique].
  destruct (Datetime.sub _ _) as [e|age]; [exact Hnd0 |].
  destruct (age_below_ttl age); [exact Hnd0 | now apply refresh_unique].
Qed.

Lemma create_round_courses (course_id : Z) (played_on tees notes : string)
  (w : World) :
  courses (database (snd (create_round course_id played_on tees notes w)))
  = courses (database w).
Proof.
  unfold create_round, insert_round, utc_now_iso, utcnow.
  cbn [db tx foreign_keys andb].
  destruct (fits_int64 course_id); reflexivity.
Qed.

Lemma upsert_hole_courses (round_id hole_number strokes : Z)
  (putts penalties : option Z) (comment : string) (w : World) :
  courses (database
             (snd (upsert_hole round_id hole_number strokes putts penalties
                     comment w)))
  = courses (database w).
Proof.
  unfold upsert_hole, insert_hole. cbn [db tx foreign_keys andb].
  repeat match goal with
         | |- context [if negb ?b then _ else _] => destruct b; cbn [negb snd]
         end; reflexivity.
Qed.

Lemma save_holes_courses (round_id : Z) (hole_data : list HoleEntry) :
  forall w : World,
    courses (database (snd (save_holes round_id hole_data w)))
    = courses (database w).
Proof.
  induction hole_data as [|[[[[h s] p] q] c] rest IH]; intros w;
    [reflexivity |].
  cbn [save_holes].
  pose proof (upsert_hole_courses round_id h s
                (if 0 <? p then Some p else None)
                (if 0 <? q then Some q else None) c w) as H.
  destruct (upsert_hole round_id h s _ _ c w) as [[e|u] w1]; cbn [snd] in *;
    [exact H |].
  now rewrite IH.
Qed.

Lemma main_save_courses (course_id : Z) (played_on tees round_notes : string)
  (hole_data : list HoleEntry) (w : World) :
  courses (database
             (snd (main_save course_id played_on tees round_notes hole_data
                     w)))
  = courses (database w).
Proof.
  unfold main_save.
  pose proof (create_round_courses course_id played_on tees round_notes w)
    as H.
  destruct (create_round course_id played_on tees round_notes w)
    as [[e|new_round_id] w1]; cbn [snd] in *; [exact H |].
  pose proof (save_holes_courses new_round_id hole_data w1) as H1.
  destruct (save_holes new_round_id hole_data w1) as [[e|u] w2];
    cbn [snd] in *; congruence.
Qed.

(** C6: the course table never holds two rows with one (osm_type, osm_id):
    a new database has none, and [upsert_courses], [maybe_refresh_courses],
    [create_round], [upsert_hole] and the save block of [main] keep it so,
    whatever their arguments and whether they return or raise.  Writing an
    element whose key is already there rewrites that row in place: rowid
    and key stay; the name, access and raw tags become those of the
    element's tags; the coordinates become the element's own [lat] and
    [lon] when it is a node and those of its [center] otherwise (NULL when
    it has none), as a REAL column holds them, that is NULL for a NaN and
    0.0 for a negative zero; [updated_at_utc] becomes the reading of the
    clock; every other key keeps its row, and the table has the same keys in
    the same order, so no row is added. *)
Theorem courses_one_row_per_key (w : World) :
  NoDup (map course_key (courses (database w))) ->
  NoDup (map course_key (courses (init_db None)))
  /\ (forall els,
         NoDup (map course_key
                  (courses (database (snd (upsert_courses els w))))))
  /\ (forall lat lon radius_m force,
         NoDup (map course_key
                  (courses (database
                              (snd (maybe_refresh_courses lat lon radius_m
                                      force w))))))
  /\ (forall course_id played_on tees notes,
         NoDup (map course_key
                  (courses (database
                              (snd (create_round course_id played_on tees
                                      notes w))))))
  /\ (forall round_id hole_number strokes putts penalties comment,
         NoDup (map course_key
                  (courses (database
                              (snd (upsert_hole round_id hole_number strokes
                                      putts penalties comment w))))))
  /\ (forall course_id played_on tees round_notes hole_data,
         NoDup (map course_key
                  (courses (database
                              (snd (main_save course_id played_on tees
                                      round_notes hole_data w))))))
  /\ (forall el name ty id old,
         element_name el = Some name ->
         el_type el = Some ty ->
         el_id el = Some id ->
         fits_int64 id = true ->
         courses_at ty id (courses (database w)) = [old] ->
         let coordinates :=
           if String.eqb ty "node" then (el_lat el, el_lon el)
           else match el_center el with
                | Some c => (center_lat c, center_lon c)
                | None => (None, None)
                end in
         exists w',
           upsert_courses [el] w = (inr 1, w')
           /\ courses_at ty id (courses (database w'))
              = [Course.mk (Course.id old) ty id name
                   (sqlite_real (fst coordinates))
                   (sqlite_real (snd coordinates))
                   (Some (normalize_access (element_tags el)))
                   (Some (Repr.str_dict (element_tags el)))
                   (fst (utc_now_iso w))]
           /\ (forall ty' id', (ty', id') <> (ty, id) ->
                 courses_at ty' id' (courses (database w'))
                 = courses_at ty' id' (courses (database w)))
           /\ map course_key (courses (database w'))
              = map course_key (courses (database w))
           /\ List.length (courses (database w'))
              = List.length (courses (database w))).
Proof.
  intros Hnd. split; [constructor |].
  split; [intros; now apply upsert_courses_unique |].
  split; [intros; now apply maybe_refresh_courses_unique |].
  split; [intros; now rewrite create_round_courses |].
  split; [intros; now rewrite upsert_hole_courses |].
  split; [intros; now rewrite main_save_courses |].
  intros el name ty id old Hname Hty Hid Hfit Hold coordinates.
  assert (Hcoord : element_center_lat_lon el = coordinates).
  { unfold element_center_lat_lon, is_node, coordinates. now rewrite Hty. }
  {
    unfold upsert_courses.
    rewrite (upsert_courses_loop_step el [] _ 0 w name ty id Hname Hty Hid).
    destruct (insert_course_at (db (database w)) ty id name
                (fst (element_center_lat_lon el))
                (snd (element_center_lat_lon el))
                (normalize_access (element_tags el))
                (Repr.str_dict (element_tags el))
                (fst (utc_now_iso w)) Hfit Hnd)
      as (conn1 & id1 & E1 & Hat1 & Hid1 & _ & Hother1 & Hkeys1 & _).
    cbn [db tx] in *. rewrite E1. cbn [upsert_courses_loop].
    eexists. split; [reflexivity |].
    cbn [commit database].
    assert (Hkeys : map course_key (courses (tx conn1))
                    = map course_key (courses (database w))).
    { apply Hkeys1. rewrite Hold. discriminate. }
    repeat split.
    + rewrite Hat1, (Hid1 old), Hcoord; [reflexivity |].
      rewrite Hold. now left.
    + exact Hother1.
    + exact Hkeys.
    + rewrite <- (length_map course_key (courses (tx conn1))), Hkeys.
      apply length_map. }
Qed.

Lemma courses_one_row_per_key_witness :
  (exists w',
      upsert_courses [renamed_course] stocked_world = (inr 1, w')
      /\ courses_at "way" 1001 (courses (database w'))
         = [Course.mk 1 "way" 1001 "Cobbs Creek Golf Club"
              (Some (S754_finite false 159 (-2)))
              (Some (S754_finite true 301 (-2)))
              (Some "private")
              (Some "{'name': 'Cobbs Creek Golf Club', 'access': 'Private '}")
              "2024-05-01T12:00:00Z"]
      /\ (forall ty' id', (ty', id') <> ("way", 1001) ->
            courses_at ty' id' (courses (database w'))
            = courses_at ty' id' (courses (database stocked_world)))
      /\ map course_key (courses (database w'))
         = map course_key (courses (database stocked_world))
      /\ List.length (courses (database w'))
         = List.length (courses (database stocked_world)))
  /\ (exists w',
         upsert_courses
           [mkElement (Some "way") (Some 1001)
              (Some (S754_finite false 3 0)) (Some (S754_finite false 3 0))
              (Some (mkCenter (Some S754_nan) (Some (S754_zero true))))
              (Some [("name", "Cobbs Creek")])]
           stocked_world
         = (inr 1, w')
         /\ courses_at "way" 1001 (courses (database w'))
            = [Course.mk 1 "way" 1001 "Cobbs Creek"
                 None (Some (S754_zero false))
                 (Some "unknown") (Some "{'name': 'Cobbs Creek'}")
                 "2024-05-01T12:00:00Z"]
         /\ (forall ty' id', (ty', id') <> ("way", 1001) ->
               courses_at ty' id' (courses (database w'))
               = courses_at ty' id' (courses (database stocked_world)))
         /\ map course_key (courses (database w'))
            = map course_key (courses (database stocked_world))
         /\ List.length (courses (database w'))
            = List.length (courses (database stocked_world))).
Proof.
  assert (Hnd : NoDup (map course_key (courses (database stocked_world)))).
  { vm_compute. constructor; [intros [] | constructor]. }
  destruct (courses_one_row_per_key stocked_world Hnd)
    as (_ & _ & _ & _ & _ & _ & H).
  split.
  - apply (H renamed_course "Cobbs Creek Golf Club" "way" 1001
             (Course.mk 1 "way" 1001 "Cobbs Creek" None None (Some "yes")
                (Some "{'name': 'Cobbs Creek', 'access': 'yes'}")
                "2024-05-01T12:00:00Z"));
      reflexivity.
  - apply (H (mkElement (Some "way") (Some 1001)
                (Some (S754_finite false 3 0)) (Some (S754_finite false 3 0))
                (Some (mkCenter (Some S754_nan) (Some (S754_zero true))))
                (Some [("name", "Cobbs Creek")]))
             "Cobbs Creek" "way" 1001
             (Course.mk 1 "way" 1001 "Cobbs Creek" None None (Some "yes")
                (Some "{'name': 'Cobbs Creek', 'access': 'yes'}")
                "2024-05-01T12:00:00Z"));
      reflexivity.
Defined.

(** ** Time stamps *)

Lemma digit_cases (x : Z) :
  x mod 10 = 0 \/ x mod 10 = 1 \/ x mod 10 = 2 \/ x mod 10 = 3
  \/ x mod 10 = 4 \/ x mod 10 = 5 \/ x mod 10 = 6 \/ x mod 10 = 7
  \/ x mod 10 = 8 \/ x mod 10 = 9.
Proof. pose proof (Z.mod_pos_bound x 10). lia. Qed.

Ltac by_digit x :=
  let H := fresh "H" in
  destruct (digit_cases x)
    as [H | [H | [H | [H | [H | [H | [H | [H | [H | H]]]]]]]]];
  rewrite H; reflexivity.

Lemma digit_not_Z (x : Z) :
  Ascii.eqb (Datetime.digit (x mod 10)) "Z" = false.
Proof. by_digit x. Qed.

Lemma digit_val_digit (x : Z) :
  Datetime.digit_val (Datetime.digit (x mod 10)) = Some (x mod 10).
Proof. by_digit x. Qed.

Lemma compare_digit (x y : Z) :
  Ascii.compare (Datetime.digit (x mod 10)) (Datetime.digit (y mod 10))
  = (x mod 10 ?= y mod 10).
Proof.
  destruct (digit_cases x)
    as [H | [H | [H | [H | [H | [H | [H | [H | [H | H]]]]]]]]];
    rewrite H; by_digit y.
Qed.

Lemma replace_Z_digit (x : Z) (s : string) :
  replace_Z (String (Datetime.digit (x mod 10)) s)
  = String (Datetime.digit (x mod 10)) (replace_Z s).
Proof. cbn [replace_Z]. now rewrite digit_not_Z. Qed.

Lemma replace_Z_other (c : ascii) (s : string) :
  Ascii.eqb c "Z" = false ->
  replace_Z (String c s) = String c (replace_Z s).
Proof. intros H. cbn [replace_Z]. now rewrite H. Qed.

Lemma parse_two_digits (acc a b : Z) (s : string) :
  Datetime.parse_digits 2 acc
    (String (Datetime.digit (a mod 10)) (String (Datetime.digit (b mod 10)) s))
  = Some ((acc * 10 + a mod 10) * 10 + b mod 10, s).
Proof. cbn [Datetime.parse_digits]. now rewrite !digit_val_digit. Qed.

Lemma parse_four_digits (a b c d : Z) (s : string) :
  Datetime.parse_digits 4 0
    (String (Datetime.digit (a mod 10)) (String (Datetime.digit (b mod 10))
       (String (Datetime.digit (c mod 10))
          (String (Datetime.digit (d mod 10)) s))))
  = Some (((a mod 10 * 10 + b mod 10) * 10 + c mod 10) * 10 + d mod 10, s).
Proof. cbn [Datetime.parse_digits]. now rewrite !digit_val_digit. Qed.

Lemma two_digits_value (n : Z) :
  0 <= n < 100 -> (0 * 10 + (n / 10) mod 10) * 10 + n mod 10 = n.
Proof. intros H. Z.to_euclidean_division_equations. lia. Qed.

Lemma four_digits_value (n : Z) :
  0 <= n < 10000 ->
  (((n / 10 / 10 / 10) mod 10 * 10 + (n / 10 / 10) mod 10) * 10
   + (n / 10) mod 10) * 10 + n mod 10 = n.
Proof. intros H. Z.to_euclidean_division_equations. lia. Qed.

(** The fields of a valid datetime, within their ranges. *)
Lemma valid_ranges (t : Datetime.datetime) :
  Datetime.valid t = true ->
  1 <= Datetime.year t <= 9999
  /\ 1 <= Datetime.month t <= 12
  /\ 1 <= Datetime.day t <= Datetime.days_in_month (Datetime.year t)
                              (Datetime.month t)
  /\ 0 <= Datetime.hour t <= 23
  /\ 0 <= Datetime.minute t <= 59
  /\ 0 <= Datetime.second t <= 59
  /\ 0 <= Datetime.microsecond t <= 999999.
Proof.
  unfold Datetime.valid. rewrite !andb_true_iff, !Z.leb_le. tauto.
Qed.

Lemma days_in_month_le (y m : Z) : Datetime.days_in_month y m <= 31.
Proof.
  unfold Datetime.days_in_month.
  destruct ((m =? 2) && Datetime.is_leap y); [lia |].
  destruct (Z.to_nat m) as [|[|[|[|[|[|[|[|[|[|[|[|[|[|k]]]]]]]]]]]]]];
    cbn; lia.
Qed.

Lemma valid_whole_second (t : Datetime.datetime) :
  Datetime.valid t = true -> Datetime.valid (whole_second t) = true.
Proof.
  unfold Datetime.valid, whole_second. cbn.
  rewrite !andb_true_iff. tauto.
Qed.

(** What [utc_now_iso] writes is read back by [courses_last_updated] as the
    same second, now an aware value at offset 0. *)
Lemma fromisoformat_stamp (t : Datetime.datetime) :
  Datetime.valid t = true ->
  Datetime.fromisoformat (replace_Z (stamp t))
  = inr (Datetime.replace_tzinfo (Some 0) (whole_second t)).
Proof.
  intros Hv.
  destruct (valid_ranges t Hv) as (Hy & Hm & Hd & Hh & Hmi & Hs & _).
  pose proof (days_in_month_le (Datetime.year t) (Datetime.month t)) as Hdim.
  unfold stamp, whole_second, Datetime.isoformat.
  cbn [Datetime.year Datetime.month Datetime.day Datetime.hour
       Datetime.minute Datetime.second Datetime.microsecond Datetime.tzinfo
       Datetime.replace_tzinfo Datetime.replace_microsecond].
  cbn [Datetime.zfill append Z.eqb].
  repeat first [rewrite replace_Z_digit
               | rewrite replace_Z_other by reflexivity].
  cbn [replace_Z Ascii.eqb Bool.eqb append].
  unfold Datetime.fromisoformat, Datetime.parse_iso.
  rewrite parse_four_digits.
  cbn [Datetime.bind Datetime.expect Ascii.eqb Bool.eqb].
  repeat (rewrite parse_two_digits;
          cbn [Datetime.bind Datetime.expect Datetime.skip_char
               Ascii.eqb Bool.eqb]).
  rewrite four_digits_value, !two_digits_value by lia.
  replace (Datetime.parse_offset "+00:00") with (Some (Some 0))
    by reflexivity.
  cbn [Datetime.bind].
  match goal with
  | |- context [Datetime.valid ?x] =>
      replace (Datetime.valid x) with (Datetime.valid (whole_second t))
        by reflexivity
  end.
  now rewrite (valid_whole_second t Hv).
Qed.

(** ** The order of time stamps *)

Lemma lexc_Eq_r (c : comparison) : lexc c Eq = c.
Proof. now destruct c. Qed.

Lemma compare_cons_digit (x y : Z) (s1 s2 : string) :
  String.compare (String (Datetime.digit (x mod 10)) s1)
                 (String (Datetime.digit (y mod 10)) s2)
  = lexc (x mod 10 ?= y mod 10) (String.compare s1 s2).
Proof.
  cbn [String.compare]. rewrite compare_digit.
  now destruct (x mod 10 ?= y mod 10).
Qed.

Lemma compare_cons_same (c : ascii) (s1 s2 : string) :
  String.compare (String c s1) (String c s2) = String.compare s1 s2.
Proof.
  cbn [String.compare]. unfold Ascii.compare. now rewrite N.compare_refl.
Qed.

Lemma two_digits_compare (n n' : Z) (rest : comparison) :
  0 <= n < 100 -> 0 <= n' < 100 ->
  lexc ((n / 10) mod 10 ?= (n' / 10) mod 10)
       (lexc (n mod 10 ?= n' mod 10) rest)
  = lexc (n ?= n') rest.
Proof.
  intros Hn Hn'. unfold lexc.
  destruct (Z.compare_spec ((n / 10) mod 10) ((n' / 10) mod 10));
    destruct (Z.compare_spec (n mod 10) (n' mod 10));
    destruct (Z.compare_spec n n'); try reflexivity; exfalso;
    Z.to_euclidean_division_equations; lia.
Qed.

Lemma four_digits_compare (n n' : Z) (rest : comparison) :
  0 <= n < 10000 -> 0 <= n' < 10000 ->
  lexc ((n / 10 / 10 / 10) mod 10 ?= (n' / 10 / 10 / 10) mod 10)
    (lexc ((n / 10 / 10) mod 10 ?= (n' / 10 / 10) mod 10)
       (lexc ((n / 10) mod 10 ?= (n' / 10) mod 10)
          (lexc (n mod 10 ?= n' mod 10) rest)))
  = lexc (n ?= n') rest.
Proof.
  intros Hn Hn'.
  assert (Hhi : 0 <= n / 100 < 100 /\ 0 <= n' / 100 < 100)
    by (Z.to_euclidean_division_equations; lia).
  assert (Hlo : 0 <= n mod 100 < 100 /\ 0 <= n' mod 100 < 100)
    by (Z.to_euclidean_division_equations; lia).
  replace (n / 10 / 10 / 10) with (n / 100 / 10)
    by (Z.to_euclidean_division_equations; lia).
  replace (n' / 10 / 10 / 10) with (n' / 100 / 10)
    by (Z.to_euclidean_division_equations; lia).
  replace ((n / 10 / 10) mod 10) with ((n / 100) mod 10)
    by (Z.to_euclidean_division_equations; lia).
  replace ((n' / 10 / 10) mod 10) with ((n' / 100) mod 10)
    by (Z.to_euclidean_division_equations; lia).
  replace ((n / 10) mod 10) with ((n mod 100 / 10) mod 10)
    by (Z.to_euclidean_division_equations; lia).
  replace ((n' / 10) mod 10) with ((n' mod 100 / 10) mod 10)
    by (Z.to_euclidean_division_equations; lia).
  replace (n mod 10) with ((n mod 100) mod 10)
    by (Z.to_euclidean_division_equations; lia).
  replace (n' mod 10) with ((n' mod 100) mod 10)
    by (Z.to_euclidean_division_equations; lia).
  rewrite (two_digits_compare (n mod 100) (n' mod 100)) by tauto.
  rewrite (two_digits_compare (n / 100) (n' / 100)) by tauto.
  unfold lexc.
  destruct (Z.compare_spec (n / 100) (n' / 100));
    destruct (Z.compare_spec (n mod 100) (n' mod 100));
    destruct (Z.compare_spec n n'); try reflexivity; exfalso;
    Z.to_euclidean_division_equations; lia.
Qed.

(** The byte order of two stamps is the order of their fields. *)
Lemma compare_stamp (a b : Datetime.datetime) :
  Datetime.valid a = true -> Datetime.valid b = true ->
  String.compare (stamp a) (stamp b) = compare_fields a b.
Proof.
  intros Ha Hb.
  destruct (valid_ranges a Ha) as (Hy & Hm & Hd & Hh & Hmi & Hs & _).
  destruct (valid_ranges b Hb) as (Hy' & Hm' & Hd' & Hh' & Hmi' & Hs' & _).
  pose proof (days_in_month_le (Datetime.year a) (Datetime.month a)).
  pose proof (days_in_month_le (Datetime.year b) (Datetime.month b)).
  unfold stamp, whole_second, Datetime.isoformat.
  cbn [Datetime.year Datetime.month Datetime.day Datetime.hour
       Datetime.minute Datetime.second Datetime.microsecond Datetime.tzinfo
       Datetime.replace_tzinfo Datetime.replace_microsecond].
  cbn [Datetime.zfill append Z.eqb].
  repeat first [rewrite compare_cons_digit | rewrite compare_cons_same].
  cbn [String.compare].
  rewrite four_digits_compare, !two_digits_compare by lia.
  unfold compare_fields.
  now rewrite lexc_Eq_r.
Qed.

(** ** The calendar *)

Lemma days_before_year_succ (y : Z) :
  Datetime.days_before_year (y + 1)
  = Datetime.days_before_year y + 365
    + (if Datetime.is_leap y then 1 else 0).
Proof.
  unfold Datetime.days_before_year, Datetime.is_leap.
  replace (y + 1 - 1) with y by lia.
  destruct (Z.eqb_spec (y mod 4) 0), (Z.eqb_spec (y mod 100) 0),
    (Z.eqb_spec (y mod 400) 0); cbn [negb andb orb];
    Z.to_euclidean_division_equations; lia.
Qed.

Lemma days_before_year_mono (y y' : Z) :
  y <= y' -> Datetime.days_before_year y <= Datetime.days_before_year y'.
Proof.
  intros H. unfold Datetime.days_before_year.
  Z.to_euclidean_division_equations. lia.
Qed.

Lemma month_cases (m : Z) :
  1 <= m <= 12 ->
  m = 1 \/ m = 2 \/ m = 3 \/ m = 4 \/ m = 5 \/ m = 6
  \/ m = 7 \/ m = 8 \/ m = 9 \/ m = 10 \/ m = 11 \/ m = 12.
Proof. lia. Qed.

Ltac each_month m H :=
  destruct (month_cases m H)
    as [-> | [-> | [-> | [-> | [-> | [-> | [-> | [-> | [-> | [-> | [-> | ->
       ]]]]]]]]]]].

(** Reads the two tables of month lengths at a given month. *)
Ltac table :=
  cbv [Datetime.days_in_month Datetime.days_before_month Z.to_nat Pos.to_nat
       Pos.iter_op Nat.add nth Z.eqb Pos.eqb Z.ltb Z.compare Pos.compare
       Pos.compare_cont andb].

(** A day of a year lies within the year. *)
Lemma day_within_year (y m d : Z) :
  1 <= m <= 12 ->
  1 <= d <= Datetime.days_in_month y m ->
  1 <= Datetime.days_before_month y m + d
    <= 365 + (if Datetime.is_leap y then 1 else 0).
Proof.
  intros Hm. each_month m Hm;
    table; destruct (Datetime.is_leap y); lia.
Qed.

(** A day of a month lies before the later months. *)
Lemma day_before_later_month (y m m' d : Z) :
  1 <= m <= 12 -> 1 <= m' <= 12 -> m < m' ->
  1 <= d <= Datetime.days_in_month y m ->
  Datetime.days_before_month y m + d <= Datetime.days_before_month y m'.
Proof.
  intros Hm Hm'. each_month m Hm; each_month m' Hm'; intros Hlt; try lia;
    table; destruct (Datetime.is_leap y); lia.
Qed.

Lemma ymd2ord_year_lt (y m d y' m' d' : Z) :
  1 <= m <= 12 -> 1 <= d <= Datetime.days_in_month y m ->
  1 <= m' <= 12 -> 1 <= d' <= Datetime.days_in_month y' m' ->
  y < y' ->
  Datetime.ymd2ord y m d < Datetime.ymd2ord y' m' d'.
Proof.
  intros Hm Hd Hm' Hd' Hlt. unfold Datetime.ymd2ord.
  pose proof (day_within_year y m d Hm Hd).
  pose proof (day_within_year y' m' d' Hm' Hd').
  pose proof (days_before_year_succ y).
  pose proof (days_before_year_mono (y + 1) y'). lia.
Qed.

Lemma ymd2ord_month_lt (y m d m' d' : Z) :
  1 <= m <= 12 -> 1 <= d <= Datetime.days_in_month y m ->
  1 <= m' <= 12 -> 1 <= d' <= Datetime.days_in_month y m' ->
  m < m' ->
  Datetime.ymd2ord y m d < Datetime.ymd2ord y m' d'.
Proof.
  intros Hm Hd Hm' Hd' Hlt. unfold Datetime.ymd2ord.
  pose proof (day_before_later_month y m m' d Hm Hm' Hlt Hd). lia.
Qed.

(** The order of the fields is the order of the instants. *)
Lemma compare_fields_instant (a b : Datetime.datetime) :
  Datetime.valid a = true -> Datetime.valid b = true ->
  compare_fields a b = (instant a ?= instant b).
Proof.
  intros Ha Hb.
  destruct (valid_ranges a Ha) as (Hy & Hm & Hd & Hh & Hmi & Hs & _).
  destruct (valid_ranges b Hb) as (Hy' & Hm' & Hd' & Hh' & Hmi' & Hs' & _).
  unfold compare_fields, instant, Datetime.to_microseconds, whole_second,
    Datetime.toordinal.
  cbn [Datetime.year Datetime.month Datetime.day Datetime.hour
       Datetime.minute Datetime.second Datetime.microsecond
       Datetime.replace_tzinfo Datetime.replace_microsecond].
  symmetry. unfold lexc.
  destruct (Z.compare_spec (Datetime.year a) (Datetime.year b)) as [Ey|Ey|Ey].
  - destruct (Z.compare_spec (Datetime.month a) (Datetime.month b))
      as [Em|Em|Em].
    + rewrite Ey, Em in *.
      unfold Datetime.ymd2ord.
      destruct (Z.compare_spec (Datetime.day a) (Datetime.day b));
        destruct (Z.compare_spec (Datetime.hour a) (Datetime.hour b));
        destruct (Z.compare_spec (Datetime.minute a) (Datetime.minute b));
        destruct (Z.compare_spec (Datetime.second a) (Datetime.second b));
        first [apply Z.compare_eq_iff | apply Z.compare_lt_iff
              | apply Z.compare_gt_iff]; lia.
    + rewrite Ey in *.
      pose proof (ymd2ord_month_lt _ _ _ _ _ Hm Hd Hm' Hd' Em).
      apply Z.compare_lt_iff. lia.
    + rewrite Ey in *.
      pose proof (ymd2ord_month_lt _ _ _ _ _ Hm' Hd' Hm Hd Em).
      apply Z.compare_gt_iff. lia.
  - pose proof (ymd2ord_year_lt _ _ _ _ _ _ Hm Hd Hm' Hd' Ey).
    apply Z.compare_lt_iff. lia.
  - pose proof (ymd2ord_year_lt _ _ _ _ _ _ Hm' Hd' Hm Hd Ey).
    apply Z.compare_gt_iff. lia.
Qed.

Lemma lexc_Eq (c1 c2 : comparison) : lexc c1 c2 = Eq -> c1 = Eq /\ c2 = Eq.
Proof. destruct c1; cbn; intros H; try discriminate; auto. Qed.

(** Two valid readings of the same second give the same value. *)
Lemma instant_injective (a b : Datetime.datetime) :
  Datetime.valid a = true -> Datetime.valid b = true ->
  instant a = instant b -> whole_second a = whole_second b.
Proof.
  intros Ha Hb Heq.
  pose proof (compare_fields_instant a b Ha Hb) as Hc.
  rewrite Heq, Z.compare_refl in Hc. unfold compare_fields in Hc.
  repeat (apply lexc_Eq in Hc; destruct Hc as [?%Z.compare_eq Hc]).
  apply Z.compare_eq in Hc.
  unfold whole_second, Datetime.replace_microsecond, Datetime.replace_tzinfo.
  cbn. congruence.
Qed.

Lemma text_max_stamp (a b : Datetime.datetime) :
  Datetime.valid a = true -> Datetime.valid b = true ->
  text_max (stamp a) (stamp b)
  = stamp (if instant a <? instant b then b else a).
Proof.
  intros Ha Hb. unfold text_max, String.ltb.
  rewrite (compare_stamp a b Ha Hb), (compare_fields_instant a b Ha Hb).
  unfold Z.ltb. now destruct (instant a ?= instant b).
Qed.

Lemma fold_text_max_stamps (l : list Datetime.datetime) :
  forall m : Datetime.datetime,
    Datetime.valid m = true ->
    Forall (fun t => Datetime.valid t = true) l ->
    exists c,
      fold_left text_max (map stamp l) (stamp m) = stamp c
      /\ Datetime.valid c = true
      /\ In c (m :: l)
      /\ Forall (fun t => instant t <= instant c) (m :: l).
Proof.
  induction l as [|t l IH]; intros m Hm Hl.
  - exists m. cbn. repeat split; auto. constructor; [lia | constructor].
  - inversion Hl as [|? ? Ht Hl']; subst.
    cbn [map fold_left]. rewrite (text_max_stamp m t Hm Ht).
    set (m' := if instant m <? instant t then t else m).
    assert (Hm' : Datetime.valid m' = true)
      by (unfold m'; now destruct (instant m <? instant t)).
    destruct (IH m' Hm' Hl') as (c & E & Hc & Hin & Hall).
    exists c. split; [exact E |]. split; [exact Hc |].
    inversion Hall as [|? ? Hle Hall']; subst.
    split.
    + destruct Hin as [<- | Hin].
      * unfold m'. destruct (instant m <? instant t); cbn; auto.
      * cbn. auto.
    + unfold m' in Hle.
      destruct (Z.ltb_spec (instant m) (instant t));
        repeat constructor; try lia; exact Hall'.
Qed.

Lemma select_max_updated_at_map (t : list Course.row) :
  select_max_updated_at t
  = match map Course.updated_at_utc t with
    | [] => None
    | s :: l => Some (fold_left text_max l s)
    end.
Proof.
  destruct t as [|r t]; [reflexivity |]. cbn [select_max_updated_at map].
  f_equal. generalize (Course.updated_at_utc r).
  induction t as [|r' t IH]; intros s; [reflexivity |].
  cbn [fold_left map]. apply IH.
Qed.

Lemma stamp_truthy (t : Datetime.datetime) : Py.truthy (stamp t) = true.
Proof. reflexivity. Qed.

(** On a table stamped by [utc_now_iso], [courses_last_updated] returns the
    latest of the stamps. *)
Lemma courses_last_updated_latest (w : World)
  (readings : list Datetime.datetime) (T : Datetime.datetime) :
  map Course.updated_at_utc (courses (database w)) = map stamp readings ->
  Forall (fun t => Datetime.valid t = true) readings ->
  In T readings ->
  Forall (fun t => instant t <= instant T) readings ->
  courses_last_updated w
  = inr (Some (Datetime.replace_tzinfo (Some 0) (whole_second T))).
Proof.
  intros Hmap Hvalid Hin Hmax. unfold courses_last_updated.
  rewrite select_max_updated_at_map, Hmap.
  destruct readings as [|m l]; [destruct Hin |].
  inversion Hvalid as [|? ? Hm Hl]; subst.
  destruct (fold_text_max_stamps l m Hm Hl) as (c & E & Hc & Hcin & Hall).
  cbn [map]. rewrite E, stamp_truthy, (fromisoformat_stamp c Hc).
  assert (HT : Datetime.valid T = true).
  { rewrite Forall_forall in Hvalid. now apply Hvalid. }
  rewrite (instant_injective c T Hc HT); [reflexivity |].
  rewrite Forall_forall in Hall, Hmax.
  pose proof (Hall T Hin). pose proof (Hmax c Hcin). lia.
Qed.

(** ** The time-to-live gate *)

Lemma upsert_courses_loop_posted (els : list Element) :
  forall (conn : Connection) (n : Z) (w : World),
    posted (snd (upsert_courses_loop els conn n w)) = posted w.
Proof.
  induction els as [|el rest IH]; intros conn n w; [reflexivity |].
  cbn [upsert_courses_loop].
  destruct (element_name el); [| apply IH].
  destruct (element_center_lat_lon el) as [lat lon].
  destruct (py_int (el_id el)); [reflexivity |].
  unfold utc_now_iso, utcnow.
  destruct (insert_course _ _ _ _ _ _ _ _ _); [reflexivity |].
  now rewrite IH.
Qed.

Lemma upsert_courses_posted (els : list Element) (w : World) :
  posted (snd (upsert_courses els w)) = posted w.
Proof.
  pose proof (upsert_courses_loop_posted els (db (database w)) 0 w) as H.
  unfold upsert_courses.
  destruct (upsert_courses_loop els (db (database w)) 0 w)
    as [[e|[conn' n']] w']; exact H.
Qed.

(** A refresh posts exactly one request. *)
Lemma refresh_posted (lat lon : float) (radius_m : Z) (w : World) :
  posted (snd (refresh lat lon radius_m w))
  = (posted w ++ [mkQuery lat lon radius_m])%list.
Proof.
  unfold refresh, fetch_courses_overpass.
  destruct (overpass w _) as [|[els|]]; [reflexivity | |].
  - pose proof (upsert_courses_posted els
                  (mkWorld (database w) (clock w) (ticks w) (overpass w)
                     (posted w ++ [mkQuery lat lon radius_m])%list)) as H.
    destruct (upsert_courses els _) as [[e|count] w2]; exact H.
  - pose proof (upsert_courses_posted []
                  (mkWorld (database w) (clock w) (ticks w) (overpass w)
                     (posted w ++ [mkQuery lat lon radius_m])%list)) as H.
    destruct (upsert_courses [] _) as [[e|count] w2]; exact H.
Qed.

(** C4: on a course table whose rows were stamped by [utc_now_iso], the
    latest stamp being the second T, a call of [maybe_refresh_courses]
    without force that reads the clock at [now] is a cache hit when
    now < T + TTL: it returns the cached status for T, posts no request and
    leaves the database as it was; and when now >= T + TTL (the age equal
    to the TTL included) it goes through the refresh: one request is posted
    and the elements of the answer are upserted.  Times are in microseconds;
    the TTL is 7 days. *)
Theorem ttl_gate (w : World) (lat lon : float) (radius_m : Z)
  (readings : list Datetime.datetime) (T : Datetime.datetime) :
  map Course.updated_at_utc (courses (database w)) = map stamp readings ->
  Forall (fun t => Datetime.valid t = true) readings ->
  In T readings ->
  Forall (fun t => instant t <= instant T) readings ->
  let now := Datetime.to_microseconds (fst (utcnow w)) in
  let ttl := COURSE_CACHE_TTL_SEC * 1000000 in
  let result := maybe_refresh_courses lat lon radius_m false w in
  (now < instant T + ttl ->
   result = (inr (UsingCached
                    (Datetime.replace_tzinfo (Some 0) (whole_second T))),
             tick w)
   /\ posted (snd result) = posted w
   /\ database (snd result) = database w)
  /\ (instant T + ttl <= now ->
      result = refresh lat lon radius_m (tick w)
      /\ posted (snd result) = (posted w ++ [mkQuery lat lon radius_m])%list
      /\ forall els,
          overpass w (mkQuery lat lon radius_m) = Body (Some els) ->
          result
          = match upsert_courses els
                    (mkWorld (database w) (clock w) (S (ticks w)) (overpass w)
                       (posted w ++ [mkQuery lat lon radius_m])%list) with
            | (inl e, w') => (inl e, w')
            | (inr count, w') => (inr (Refreshed count), w')
            end).
Proof.
  intros Hmap Hvalid Hin Hmax now ttl result.
  assert (Hresult :
            result
            = if age_below_ttl (now - instant T)
              then (inr (UsingCached
                           (Datetime.replace_tzinfo (Some 0)
                              (whole_second T))), tick w)
              else refresh lat lon radius_m (tick w)).
  { unfold result, maybe_refresh_courses.
    rewrite (courses_last_updated_latest w readings T Hmap Hvalid Hin Hmax).
    reflexivity. }
  unfold age_below_ttl in Hresult. fold ttl in Hresult. split.
  - intros Hlt.
    destruct (Z.ltb_spec (now - instant T) ttl); [| lia].
    rewrite Hresult. auto.
  - intros Hge.
    destruct (Z.ltb_spec (now - instant T) ttl); [lia |].
    rewrite Hresult. split; [reflexivity |]. split.
    + rewrite refresh_posted. reflexivity.
    + intros els Hanswer. unfold refresh, fetch_courses_overpass, tick.
      cbn [utcnow snd database clock ticks overpass posted].
      now rewrite Hanswer.
Qed.

Lemma ttl_gate_witness :
  let w := stocked_world_at (Datetime.mk 2024 5 8 11 59 59 999999 None) in
  let q := mkQuery PHILLY_LAT PHILLY_LON DEFAULT_RADIUS_M in
  let now := Datetime.to_microseconds (fst (utcnow w)) in
  let ttl := COURSE_CACHE_TTL_SEC * 1000000 in
  let result :=
    maybe_refresh_courses PHILLY_LAT PHILLY_LON DEFAULT_RADIUS_M false w in
  (now < instant noon + ttl ->
   result = (inr (UsingCached
                    (Datetime.replace_tzinfo (Some 0) (whole_second noon))),
             tick w)
   /\ posted (snd result) = posted w
   /\ database (snd result) = database w)
  /\ (instant noon + ttl <= now ->
      result = refresh PHILLY_LAT PHILLY_LON DEFAULT_RADIUS_M (tick w)
      /\ posted (snd result) = (posted w ++ [q])%list
      /\ forall els,
          overpass w q = Body (Some els) ->
          result
          = match upsert_courses els
                    (mkWorld (database w) (clock w) (S (ticks w)) (overpass w)
                       (posted w ++ [q])%list) with
            | (inl e, w') => (inl e, w')
            | (inr count, w') => (inr (Refreshed count), w')
            end).
Proof.
  intros w q.
  apply (ttl_gate w PHILLY_LAT PHILLY_LON DEFAULT_RADIUS_M [noon] noon).
  - reflexivity.
  - repeat constructor.
  - now left.
  - repeat constructor. lia.
Defined.

(** The boundary, evaluated: one week after the stamp to the microsecond the
    cache is stale and a request is posted (the service of this world is
    down, so the call raises); one microsecond earlier it is a hit and
    nothing is posted. *)
Example ttl_boundary :
  let at_ttl := stocked_world_at (Datetime.mk 2024 5 8 12 0 0 0 None) in
  let just_before :=
    stocked_world_at (Datetime.mk 2024 5 8 11 59 59 999999 None) in
  let call := maybe_refresh_courses PHILLY_LAT PHILLY_LON DEFAULT_RADIUS_M
                false in
  fst (call at_ttl) = inl RequestException
  /\ posted (snd (call at_ttl))
     = [mkQuery PHILLY_LAT PHILLY_LON DEFAULT_RADIUS_M]
  /\ fst (call just_before)
     = inr (UsingCached (Datetime.mk 2024 5 1 12 0 0 0 (Some 0)))
  /\ posted (snd (call just_before)) = [].
Proof. repeat split; vm_compute; reflexivity. Qed.

(** ** The hypotheses above are invariants of the program *)

Lemma Forall_do_update {Row} (P : Row -> Prop) (conflicts : Row -> bool)
  (set : Row -> Row) (t : list Row) :
  Forall P t -> (forall r, P (set r)) ->
  Forall P (do_update conflicts set t).
Proof.
  intros Ht Hset. induction Ht as [|r t Hr Ht IH]; cbn; [constructor |].
  destruct (conflicts r); constructor; auto.
Qed.

Lemma insert_course_rows (P : Course.row -> Prop) (conn conn' : Connection)
  (osm_type : option string) (osm_id : Z) (name : string)
  (lat lon : option float) (access raw_tags now : string) :
  insert_course conn osm_type osm_id name lat lon access raw_tags now
  = inr conn' ->
  Forall P (courses (tx conn)) ->
  (forall id ty oid,
      P (Course.mk id ty oid name (sqlite_real lat) (sqlite_real lon)
           (Some access) (Some raw_tags) now)) ->
  Forall P (courses (tx conn')).
Proof.
  unfold insert_course.
  destruct (fits_int64 osm_id); cbn [negb]; [| discriminate].
  destruct osm_type as [ty|]; [| discriminate].
  intros E Ht Hnew. injection E as <-. cbn [tx courses].
  destruct (existsb _ _).
  - apply Forall_do_update; [exact Ht |]. intros r. apply Hnew.
  - apply Forall_app. split; [exact Ht |]. constructor; [apply Hnew | constructor].
Qed.

Lemma utc_now_iso_stamp (w : World) :
  utc_now_iso w = (stamp (clock w (ticks w)), tick w).
Proof. reflexivity. Qed.

Lemma upsert_courses_loop_stamped (els : list Element) :
  forall (conn conn' : Connection) (n n' : Z) (w w' : World),
    (forall k, Datetime.valid (clock w k) = true) ->
    stamped (courses (tx conn)) ->
    upsert_courses_loop els conn n w = (inr (conn', n'), w') ->
    stamped (courses (tx conn')).
Proof.
  induction els as [|el rest IH]; intros conn conn' n n' w w' Hclock Hst E.
  - cbn in E. now injection E as <- _ _.
  - cbn [upsert_courses_loop] in E.
    destruct (element_name el) as [name|]; [| exact (IH _ _ _ _ _ _ Hclock Hst E)].
    destruct (element_center_lat_lon el) as [lat lon].
    destruct (py_int (el_id el)) as [e|osm_id]; [discriminate |].
    rewrite utc_now_iso_stamp in E.
    destruct (insert_course conn (el_type el) osm_id name lat lon
                (normalize_access (element_tags el))
                (Repr.str_dict (element_tags el))
                (stamp (clock w (ticks w)))) as [e|conn1] eqn:E1;
      [discriminate |].
    apply (IH conn1 conn' (n + 1) n' (tick w) w'); [exact Hclock | | exact E].
    apply (insert_course_rows _ _ _ _ _ _ _ _ _ _ _ E1 Hst).
    intros id ty oid. exists (clock w (ticks w)). split; [apply Hclock | reflexivity].
Qed.

(** The hypothesis of the time-to-live gate holds of every table the
    program fills: with a clock that gives valid readings, [upsert_courses]
    keeps every row stamped, and a stamped table is the image of a list of
    valid readings. *)
Lemma upsert_courses_stamped (els : list Element) (w : World) :
  (forall k, Datetime.valid (clock w k) = true) ->
  stamped (courses (database w)) ->
  stamped (courses (database (snd (upsert_courses els w)))).
Proof.
  intros Hclock Hst. unfold upsert_courses.
  pose proof (upsert_courses_loop_world els (db (database w)) 0 w) as Hw.
  destruct (upsert_courses_loop els (db (database w)) 0 w)
    as [[e|[conn' n']] w'] eqn:E; cbn [snd] in *.
  - now rewrite Hw.
  - cbn [commit database].
    exact (upsert_courses_loop_stamped els (db (database w)) _ _ _ _ _
             Hclock Hst E).
Qed.

Lemma stamped_readings (t : list Course.row) :
  stamped t ->
  exists readings,
    map Course.updated_at_utc t = map stamp readings
    /\ Forall (fun reading => Datetime.valid reading = true) readings.
Proof.
  intros Hst. induction Hst as [|r t (reading & Hv & Hr) Ht (l & Hl & Hvl)].
  - exists []. split; constructor.
  - exists (reading :: l). cbn [map]. rewrite Hr, Hl. split; auto.
Qed.

Lemma upsert_courses_loop_holes (els : list Element) :
  forall (conn : Connection) (n : Z) (w : World) (conn' : Connection)
         (n' : Z),
    fst (upsert_courses_loop els conn n w) = inr (conn', n') ->
    holes (tx conn') = holes (tx conn).
Proof.
  induction els as [|el rest IH]; intros conn n w conn' n' E.
  - cbn in E. now injection E as <- _.
  - cbn [upsert_courses_loop] in E.
    destruct (element_name el) as [name|]; [| exact (IH _ _ _ _ _ E)].
    destruct (element_center_lat_lon el) as [lat lon].
    destruct (py_int (el_id el)) as [e|osm_id]; [discriminate |].
    destruct (utc_now_iso w) as [now w1].
    destruct (insert_course conn (el_type el) osm_id name lat lon
                (normalize_access (element_tags el))
                (Repr.str_dict (element_tags el)) now) as [e|conn1] eqn:E1;
      [discriminate |].
    rewrite (IH _ _ _ _ _ E).
    unfold insert_course in E1.
    destruct (fits_int64 osm_id); cbn [negb] in E1; [| discriminate].
    destruct (el_type el); [| discriminate].
    now injection E1 as <-.
Qed.

(** The holes table never holds two rows with one (round_id, hole_number):
    [upsert_hole] keeps it so whatever its arguments, and the other
    functions do not write to it. *)
Lemma holes_one_row_per_key (w : World) :
  NoDup (map hole_key (holes (database w))) ->
  (forall round_id hole_number strokes putts penalties comment,
      NoDup (map hole_key
               (holes (database
                         (snd (upsert_hole round_id hole_number strokes putts
                                 penalties comment w))))))
  /\ (forall course_id played_on tees notes,
         holes (database (snd (create_round course_id played_on tees notes w)))
         = holes (database w))
  /\ (forall els,
         holes (database (snd (upsert_courses els w))) = holes (database w)).
Proof.
  intros Hnd. split; [| split].
  - intros round_id hole_number strokes putts penalties comment.
    destruct (hole_ints_fit round_id hole_number strokes putts penalties)
      eqn:Hfit;
      [destruct (between 1 18 hole_number) eqn:Hh;
       [destruct (between 1 25 strokes) eqn:Hs |] |].
    + destruct (upsert_hole_at w round_id hole_number strokes putts penalties
                  comment Hnd Hfit Hh Hs) as (w' & id & E & _ & Hnd' & _).
      now rewrite E.
    + unfold upsert_hole, insert_hole.
      fold (hole_ints_fit round_id hole_number strokes putts penalties).
      now rewrite Hfit, Hh, Hs.
    + unfold upsert_hole, insert_hole.
      fold (hole_ints_fit round_id hole_number strokes putts penalties).
      now rewrite Hfit, Hh.
    + unfold upsert_hole, insert_hole.
      fold (hole_ints_fit round_id hole_number strokes putts penalties).
      now rewrite Hfit.
  - intros course_id played_on tees notes.
    unfold create_round, insert_round, utc_now_iso, utcnow.
    cbn [db tx foreign_keys andb].
    destruct (fits_int64 course_id); reflexivity.
  - intros els. unfold upsert_courses.
    pose proof (upsert_courses_loop_world els (db (database w)) 0 w) as Hw.
    pose proof (upsert_courses_loop_holes els (db (database w)) 0 w) as Hh.
    destruct (upsert_courses_loop els (db (database w)) 0 w)
      as [[e|[conn' n']] w']; cbn [snd] in *.
    + now rewrite Hw.
    + exact (Hh conn' n' eq_refl).
Qed.

(** * Further properties *)
(** * Further properties *)

(** ** ORDER BY *)

Section OrderByFacts.

Context {Row : Type}.
Variable before : Row -> Row -> bool.

Lemma insert_row_perm (r : Row) (l : list Row) :
  Permutation (insert_row before r l) (r :: l).
Proof.
  induction l as [|x l IH]; cbn [insert_row]; [reflexivity |].
  destruct (before r x); [reflexivity |].
  rewrite IH. apply perm_swap.
Qed.

Lemma order_by_perm (l : list Row) : Permutation (order_by before l) l.
Proof.
  induction l as [|x l IH]; cbn [order_by fold_right]; [reflexivity |].
  fold (order_by before l). rewrite insert_row_perm. now constructor.
Qed.

Lemma order_by_In (x : Row) (l : list Row) :
  In x (order_by before l) <-> In x l.
Proof.
  split; apply Permutation_in;
    [apply order_by_perm | symmetry; apply order_by_perm].
Qed.

Hypothesis before_total : forall a b, before a b = true \/ before b a = true.

Lemma insert_row_sorted (r : Row) (l : list Row) :
  Sorted (fun a b => before a b = true) l ->
  Sorted (fun a b => before a b = true) (insert_row before r l).
Proof.
  induction 1 as [|x l Hl IH Hx]; cbn [insert_row]; [repeat constructor |].
  destruct (before r x) eqn:E.
  - constructor; [now constructor | now constructor].
  - constructor; [exact IH |].
    destruct l as [|y l]; cbn [insert_row].
    + constructor. destruct (before_total r x); congruence.
    + destruct (before r y); constructor.
      * destruct (before_total r x); congruence.
      * now inversion Hx.
Qed.

Lemma order_by_sorted (l : list Row) :
  Sorted (fun a b => before a b = true) (order_by before l).
Proof.
  induction l as [|x l IH]; cbn [order_by fold_right]; [constructor |].
  now apply insert_row_sorted.
Qed.

End OrderByFacts.

(** Two lists in strictly increasing order that hold the same elements are
    the same list. *)
Lemma strictly_sorted_unique {A} (lt : A -> A -> Prop) :
  (forall a b, lt a b -> lt b a -> False) ->
  forall l1 l2 : list A,
    StronglySorted lt l1 -> StronglySorted lt l2 ->
    (forall x, In x l1 <-> In x l2) -> l1 = l2.
Proof.
  intros Hasym. induction l1 as [|a l1 IH]; intros l2 H1 H2 Hin.
  - destruct l2 as [|b l2]; [reflexivity |].
    destruct (proj2 (Hin b) (or_introl eq_refl)).
  - destruct l2 as [|b l2]; [destruct (proj1 (Hin a) (or_introl eq_refl)) |].
    inversion H1 as [|? ? H1' Ha]; inversion H2 as [|? ? H2' Hb]; subst.
    rewrite Forall_forall in Ha, Hb.
    assert (a = b) as <-.
    { destruct (proj1 (Hin a) (or_introl eq_refl)) as [E | Hab]; [auto |].
      destruct (proj2 (Hin b) (or_introl eq_refl)) as [E | Hba]; [auto |].
      destruct (Hasym _ _ (Ha _ Hba) (Hb _ Hab)). }
    f_equal. apply IH; [exact H1' | exact H2' |].
    intros x. split; intros Hx.
    + destruct (proj1 (Hin x) (or_intror Hx)) as [E | H]; [| exact H].
      subst x. destruct (Hasym _ _ (Ha _ Hx) (Ha _ Hx)).
    + destruct (proj2 (Hin x) (or_intror Hx)) as [E | H]; [| exact H].
      subst x. destruct (Hasym _ _ (Hb _ Hx) (Hb _ Hx)).
Qed.

(** Sorted on a key with no key twice is strictly sorted on it. *)
Lemma sorted_distinct_strict {A} (f : A -> Z) (l : list A) :
  Sorted (fun a b => (f a <=? f b) = true) l ->
  NoDup (map f l) ->
  StronglySorted (fun a b => f a < f b) l.
Proof.
  intros Hs Hnd.
  apply Sorted_StronglySorted in Hs.
  2:{ intros a b c Hab Hbc. apply Z.leb_le in Hab, Hbc. apply Z.leb_le. lia. }
  induction Hs as [|a l Hs IH Ha]; [constructor |].
  cbn [map] in Hnd. inversion Hnd as [|? ? Hfresh Hnd']; subst.
  constructor; [now apply IH |].
  rewrite Forall_forall in *. intros x Hx.
  specialize (Ha x Hx). apply Z.leb_le in Ha.
  assert (f a <> f x); [| lia].
  intros E. apply Hfresh. rewrite E. now apply in_map.
Qed.

(** ** The holes table *)

Lemma between_spec (lo hi z : Z) : between lo hi z = true <-> lo <= z <= hi.
Proof. unfold between. rewrite andb_true_iff, !Z.leb_le. tauto. Qed.

(** What a call of [upsert_hole] does, by cases on its arguments: it
    raises and leaves the world as it was, or it returns and the table is
    the old one with the row of the key rewritten, or with a new row at the
    end. *)
Lemma upsert_hole_cases (round_id hole_number strokes : Z)
  (putts penalties : option Z) (comment : string) (w : World) :
  (exists e,
      upsert_hole round_id hole_number strokes putts penalties comment w
      = (inl e, w)
      /\ (hole_ints_fit round_id hole_number strokes putts penalties = false
          \/ between 1 18 hole_number = false
          \/ between 1 25 strokes = false))
  \/ (exists w',
         upsert_hole round_id hole_number strokes putts penalties comment w
         = (inr tt, w')
         /\ hole_ints_fit round_id hole_number strokes putts penalties = true
         /\ between 1 18 hole_number = true
         /\ between 1 25 strokes = true
         /\ courses (database w') = courses (database w)
         /\ rounds (database w') = rounds (database w)
         /\ holes (database w')
            = if existsb (hole_conflicts round_id hole_number)
                   (holes (database w))
              then do_update (hole_conflicts round_id hole_number)
                     (hole_set strokes putts penalties (Py.or_None comment))
                     (holes (database w))
              else (holes (database w)
                    ++ [Hole.mk
                          (next_rowid Hole.id (holes (database w))
                             (seq_holes (database w)))
                          round_id hole_number strokes putts penalties
                          (Py.or_None comment)])%list).
Proof.
  destruct (hole_ints_fit round_id hole_number strokes putts penalties)
    eqn:Hfit.
  2:{ left. unfold upsert_hole, insert_hole.
      fold (hole_ints_fit round_id hole_number strokes putts penalties).
      rewrite Hfit. eexists. split; [reflexivity | auto]. }
  destruct (between 1 18 hole_number) eqn:Hh.
  2:{ left. unfold upsert_hole, insert_hole.
      fold (hole_ints_fit round_id hole_number strokes putts penalties).
      rewrite Hfit, Hh. eexists. split; [reflexivity | auto]. }
  destruct (between 1 25 strokes) eqn:Hs.
  2:{ left. unfold upsert_hole, insert_hole.
      fold (hole_ints_fit round_id hole_number strokes putts penalties).
      rewrite Hfit, Hh, Hs. eexists. split; [reflexivity | auto]. }
  right. unfold upsert_hole.
  rewrite (insert_hole_valid (db (database w)) _ _ _ _ _ _ Hfit Hh Hs eq_refl).
  eexists. split; [reflexivity |]. cbn. auto 10.
Qed.

Lemma do_update_fixed {Row} (conflicts : Row -> bool) (set : Row -> Row)
  (t : list Row) :
  (forall r, In r t -> conflicts r = true -> set r = r) ->
  do_update conflicts set t = t.
Proof.
  induction t as [|x t IH]; intros H; cbn [do_update]; [reflexivity |].
  destruct (conflicts x) eqn:E.
  - now rewrite (H x (or_introl eq_refl) E).
  - rewrite IH; [reflexivity |]. intros r Hr. apply H. now right.
Qed.

Lemma max_rowid_ge {Row} (rowid : Row -> Z) (t : list Row) (r : Row) :
  In r t -> rowid r <= max_rowid rowid t.
Proof.
  induction t as [|x t IH]; cbn [max_rowid fold_right In]; [tauto |].
  fold (max_rowid rowid t). intros [-> | H]; [lia |].
  specialize (IH H). lia.
Qed.

Lemma next_rowid_fresh {Row} (rowid : Row -> Z) (t : list Row) (seq : Z) :
  ~ In (next_rowid rowid t seq) (map rowid t).
Proof.
  intros Hin. apply in_map_iff in Hin. destruct Hin as (r & E & Hr).
  pose proof (max_rowid_ge rowid t r Hr). unfold next_rowid in E. lia.
Qed.

Lemma Forall_do_update_hit {Row} (P : Row -> Prop) (conflicts : Row -> bool)
  (set : Row -> Row) (t : list Row) :
  Forall P t ->
  (forall r, In r t -> conflicts r = true -> P (set r)) ->
  Forall P (do_update conflicts set t).
Proof.
  intros Ht. induction Ht as [|x t Hx Ht IH]; intros Hset; cbn [do_update];
    [constructor |].
  destruct (conflicts x) eqn:E; constructor; auto.
  - apply Hset; [now left | exact E].
  - apply IH. intros r Hr. apply Hset. now right.
Qed.

Lemma upsert_hole_checked (round_id hole_number strokes : Z)
  (putts penalties : option Z) (comment : string) (w : World) :
  Forall hole_checked (holes (database w)) ->
  Forall hole_checked
    (holes (database
              (snd (upsert_hole round_id hole_number strokes putts penalties
                      comment w)))).
Proof.
  intros Hall.
  destruct (upsert_hole_cases round_id hole_number strokes putts penalties
              comment w)
    as [(e & E & _) | (w' & E & _ & Hh & Hs & _ & _ & Hholes)];
    rewrite E; cbn [snd]; [exact Hall |].
  rewrite Hholes. apply between_spec in Hh, Hs.
  destruct (existsb _ _).
  - apply Forall_do_update_hit; [exact Hall |].
    intros r Hr _. rewrite Forall_forall in Hall.
    destruct (Hall r Hr) as [Hn _]. split; [exact Hn | exact Hs].
  - apply Forall_app. split; [exact Hall |].
    constructor; [split; assumption | constructor].
Qed.

Lemma create_round_holes (course_id : Z) (played_on tees notes : string)
  (w : World) :
  holes (database (snd (create_round course_id played_on tees notes w)))
  = holes (database w).
Proof.
  unfold create_round, insert_round, utc_now_iso, utcnow.
  cbn [db tx foreign_keys andb].
  destruct (fits_int64 course_id); reflexivity.
Qed.

Lemma save_holes_checked (round_id : Z) (hole_data : list HoleEntry) :
  forall w : World,
    Forall hole_checked (holes (database w)) ->
    Forall hole_checked
      (holes (database (snd (save_holes round_id hole_data w)))).
Proof.
  induction hole_data as [|[[[[h s] p] q] c] rest IH]; intros w Hall;
    [exact Hall |].
  cbn [save_holes].
  pose proof (upsert_hole_checked round_id h s
                (if 0 <? p then Some p else None)
                (if 0 <? q then Some q else None) c w Hall) as H.
  destruct (upsert_hole round_id h s _ _ c w) as [[e|u] w1]; cbn [snd] in *;
    [exact H | now apply IH].
Qed.

(** X1: the CHECK constraints of [holes] hold of every row, always: a row
    has a hole number in 1..18 and strokes in 1..25 on a new database, and
    [upsert_hole] and the save block of [main] keep it so whatever their
    arguments, whether they return or raise. *)
Theorem holes_stay_within_checks (w : World) :
  Forall hole_checked (holes (database w)) ->
  Forall hole_checked (holes (init_db None))
  /\ (forall round_id hole_number strokes putts penalties comment,
         Forall hole_checked
           (holes (database
                     (snd (upsert_hole round_id hole_number strokes putts
                             penalties comment w)))))
  /\ (forall course_id played_on tees round_notes hole_data,
         Forall hole_checked
           (holes (database
                     (snd (main_save course_id played_on tees round_notes
                             hole_data w))))).
Proof.
  intros Hall. split; [constructor |]. split.
  - intros. now apply upsert_hole_checked.
  - intros course_id played_on tees round_notes hole_data. unfold main_save.
    pose proof (create_round_holes course_id played_on tees round_notes w)
      as Hc.
    destruct (create_round course_id played_on tees round_notes w)
      as [[e|new_round_id] w1]; cbn [snd] in *; [now rewrite Hc |].
    rewrite <- Hc in Hall.
    pose proof (save_holes_checked new_round_id hole_data w1 Hall) as Hs.
    destruct (save_holes new_round_id hole_data w1) as [[e|u] w2];
      exact Hs.
Qed.

Lemma holes_stay_within_checks_witness :
  Forall hole_checked (holes (init_db None))
  /\ (forall round_id hole_number strokes putts penalties comment,
         Forall hole_checked
           (holes (database
                     (snd (upsert_hole round_id hole_number strokes putts
                             penalties comment new_world)))))
  /\ (forall course_id played_on tees round_notes hole_data,
         Forall hole_checked
           (holes (database
                     (snd (main_save course_id played_on tees round_notes
                             hole_data new_world))))).
Proof.
  apply (holes_stay_within_checks new_world). constructor.
Defined.

(** X2: [upsert_hole] does not look the round up: for a round id that no
    row of [rounds] carries, a call with valid values returns and leaves
    the hole stored under that round id. *)
Theorem upsert_hole_accepts_missing_round (w : World)
  (round_id hole_number strokes : Z) (putts penalties : option Z)
  (comment : string) :
  existsb (fun r => Round.id r =? round_id) (rounds (database w)) = false ->
  NoDup (map hole_key (holes (database w))) ->
  hole_ints_fit round_id hole_number strokes putts penalties = true ->
  between 1 18 hole_number = true ->
  between 1 25 strokes = true ->
  exists w' id,
    upsert_hole round_id hole_number strokes putts penalties comment w
    = (inr tt, w')
    /\ holes_at round_id hole_number (holes (database w'))
       = [Hole.mk id round_id hole_number strokes putts penalties
            (Py.or_None comment)]
    /\ existsb (fun r => Round.id r =? round_id) (rounds (database w'))
       = false.
Proof.
  intros Hmissing Hnd Hfit Hh Hs.
  destruct (upsert_hole_at w round_id hole_number strokes putts penalties
              comment Hnd Hfit Hh Hs)
    as (w' & id & E & Hat & _ & _ & _ & Hrounds).
  exists w', id. rewrite Hrounds. auto.
Qed.

Lemma upsert_hole_accepts_missing_round_witness :
  exists w' id,
    upsert_hole 7 5 4 None None "" new_world = (inr tt, w')
    /\ holes_at 7 5 (holes (database w'))
       = [Hole.mk id 7 5 4 None None (Py.or_None "")]
    /\ existsb (fun r => Round.id r =? 7) (rounds (database w')) = false.
Proof.
  apply (upsert_hole_accepts_missing_round new_world 7 5 4 None None "");
    solve [constructor | reflexivity].
Defined.

(** X3: [upsert_hole] is idempotent on the stored rows: the same call made
    a second time leaves the three tables exactly as the first call left
    them (no row added, no value changed), whether the first call was
    accepted or refused; and a call that was accepted is accepted again.
    (What a call raises after a refused one is not stated: the refused call
    has left its connection open.) *)
Theorem upsert_hole_idempotent (w : World)
  (round_id hole_number strokes : Z) (putts penalties : option Z)
  (comment : string) :
  NoDup (map hole_key (holes (database w))) ->
  let w1 := snd (upsert_hole round_id hole_number strokes putts penalties
                   comment w) in
  let w2 := snd (upsert_hole round_id hole_number strokes putts penalties
                   comment w1) in
  holes (database w2) = holes (database w1)
  /\ rounds (database w2) = rounds (database w1)
  /\ courses (database w2) = courses (database w1)
  /\ (fst (upsert_hole round_id hole_number strokes putts penalties comment
             w) = inr tt ->
      fst (upsert_hole round_id hole_number strokes putts penalties comment
             w1) = inr tt).
Proof.
  intros Hnd w1 w2.
  destruct (upsert_hole_cases round_id hole_number strokes putts penalties
              comment w)
    as [(e & E & Hbad) | (w' & E & Hfit & Hh & Hs & _)].
  - assert (Hw1 : w1 = w) by (unfold w1; now rewrite E).
    unfold w2. rewrite Hw1, E. repeat split; auto.
  - destruct (upsert_hole_at w round_id hole_number strokes putts penalties
                comment Hnd Hfit Hh Hs)
      as (w1' & id & E1 & Hat & Hnd1 & _).
    assert (Hw1 : w1 = w1') by (unfold w1; now rewrite E1).
    destruct (upsert_hole_cases round_id hole_number strokes putts penalties
                comment w1)
      as [(e & E2 & [Hb | [Hb | Hb]]) | (w2' & E2 & _ & _ & _ & Hc & Hr & Hholes)];
      try congruence.
    assert (Hw2 : w2 = w2') by (unfold w2; now rewrite E2).
    rewrite Hw2, Hc, Hr, E2, E1. repeat split; try reflexivity.
    rewrite Hholes, Hw1.
    assert (Hex : existsb (hole_conflicts round_id hole_number)
                    (holes (database w1')) = true).
    { apply filter_some. unfold holes_at in Hat. rewrite Hat. discriminate. }
    rewrite Hex. apply do_update_fixed.
    intros r Hr' Hcr.
    assert (Hin : In r (holes_at round_id hole_number (holes (database w1')))).
    { unfold holes_at. apply filter_In. auto. }
    rewrite Hat in Hin. destruct Hin as [<- | []]. reflexivity.
Qed.

Lemma upsert_hole_idempotent_witness :
  let w1 := snd (upsert_hole 1 5 4 (Some 2) None "birdie putt" new_world) in
  let w2 := snd (upsert_hole 1 5 4 (Some 2) None "birdie putt" w1) in
  holes (database w2) = holes (database w1)
  /\ rounds (database w2) = rounds (database w1)
  /\ courses (database w2) = courses (database w1)
  /\ (fst (upsert_hole 1 5 4 (Some 2) None "birdie putt" new_world) = inr tt ->
      fst (upsert_hole 1 5 4 (Some 2) None "birdie putt" w1) = inr tt).
Proof.
  apply (upsert_hole_idempotent new_world 1 5 4 (Some 2) None "birdie putt").
  constructor.
Defined.

(** ** Reading the holes of a round *)

(** A WHERE clause keeps the keys of a table distinct. *)
Lemma where_keeps_keys_distinct {Row Key : Type} (key : Row -> Key)
  (keep : Row -> bool) :
  forall t : list Row,
    NoDup (map key t) -> NoDup (map key (filter keep t)).
Proof.
  intros t. induction t as [|r t IH]; intros Hkeys; [exact Hkeys |].
  cbn [map] in Hkeys. apply NoDup_cons_iff in Hkeys.
  destruct Hkeys as [Hfresh Hrest]. cbn [filter].
  destruct (keep r); [| exact (IH Hrest)].
  cbn [map]. apply NoDup_cons; [| exact (IH Hrest)].
  rewrite in_map_iff. intros (r' & Hsame & Hin).
  apply filter_In in Hin. apply Hfresh.
  rewrite <- Hsame. apply in_map. exact (proj1 Hin).
Qed.

Lemma StronglySorted_map {A B} (g : A -> B) (R : B -> B -> Prop)
  (l : list A) :
  StronglySorted (fun a b => R (g a) (g b)) l ->
  StronglySorted R (map g l).
Proof.
  induction 1 as [|a l Hs IH Ha]; cbn [map]; constructor; [exact IH |].
  rewrite Forall_forall in *. intros y Hy. apply in_map_iff in Hy.
  destruct Hy as (x & <- & Hx). now apply Ha.
Qed.

Lemma hole_number_total (a b : Hole.row) :
  (Hole.hole_number a <=? Hole.hole_number b) = true
  \/ (Hole.hole_number b <=? Hole.hole_number a) = true.
Proof. rewrite !Z.leb_le. lia. Qed.

Lemma holes_of_round_In (round_id : Z) (t : list Hole.row) (r : Hole.row) :
  In r (holes_of_round round_id t)
  <-> In r t /\ Hole.round_id r = round_id.
Proof.
  unfold holes_of_round. rewrite order_by_In, filter_In, Z.eqb_eq. tauto.
Qed.

Lemma holes_of_round_at (round_id : Z) (t : list Hole.row) (r : Hole.row) :
  In r (holes_of_round round_id t)
  <-> In r (holes_at round_id (Hole.hole_number r) t).
Proof.
  rewrite holes_of_round_In. unfold holes_at, hole_conflicts.
  rewrite filter_In, andb_true_iff, !Z.eqb_eq. tauto.
Qed.

Lemma holes_of_round_distinct (round_id : Z) (t : list Hole.row) :
  NoDup (map hole_key t) ->
  NoDup (map Hole.hole_number (holes_of_round round_id t)).
Proof.
  intros Hnd. unfold holes_of_round.
  set (L := filter (fun r => Hole.round_id r =? round_id) t).
  assert (HL : NoDup (map Hole.hole_number L)).
  { pose proof (where_keeps_keys_distinct hole_key
                  (fun r => Hole.round_id r =? round_id) t Hnd) as H.
    fold L in H.
    assert (Hround : forall r, In r L -> Hole.round_id r = round_id).
    { intros r Hr. apply filter_In in Hr. now apply Z.eqb_eq. }
    clearbody L. induction L as [|x L IH]; [constructor |].
    cbn [map] in *. inversion H as [|? ? Hfresh H']; subst.
    constructor.
    - intros Hin. apply Hfresh. apply in_map_iff in Hin.
      destruct Hin as (y & E & Hy). apply in_map_iff. exists y.
      split; [| exact Hy]. unfold hole_key.
      rewrite E, (Hround y (or_intror Hy)), (Hround x (or_introl eq_refl)).
      reflexivity.
    - apply IH; [exact H' |]. intros r Hr. apply Hround. now right. }
  eapply Permutation_NoDup; [| exact HL].
  apply Permutation_map. symmetry. apply order_by_perm.
Qed.

Lemma holes_of_round_sorted (round_id : Z) (t : list Hole.row) :
  NoDup (map hole_key t) ->
  StronglySorted (fun a b => Hole.hole_number a < Hole.hole_number b)
    (holes_of_round round_id t).
Proof.
  intros Hnd. apply sorted_distinct_strict.
  - apply order_by_sorted. apply hole_number_total.
  - now apply holes_of_round_distinct.
Qed.

(** X4: [load_holes_df] lists the holes of the round and nothing else, one
    line per stored hole, in strictly increasing hole number. *)
Theorem load_holes_df_lists_the_round (w : World) (round_id : Z) :
  NoDup (map hole_key (holes (database w))) ->
  fits_int64 round_id = true ->
  exists lines,
    load_holes_df round_id w = Some lines
    /\ StronglySorted
         (fun a b => HoleLine.hole_number a < HoleLine.hole_number b) lines
    /\ (forall l, In l lines
                  <-> exists r, In r (holes (database w))
                                /\ Hole.round_id r = round_id
                                /\ hole_line r = l)
    /\ List.length lines
       = List.length (filter (fun r => Hole.round_id r =? round_id)
                        (holes (database w))).
Proof.
  intros Hnd Hfit. unfold load_holes_df. rewrite Hfit.
  eexists. split; [reflexivity |]. split; [| split].
  - apply StronglySorted_map. now apply holes_of_round_sorted.
  - intros l. rewrite in_map_iff. split.
    + intros (r & E & Hr). apply holes_of_round_In in Hr. exists r. tauto.
    + intros (r & Hr & Hround & E). exists r. split; [exact E |].
      apply holes_of_round_In. tauto.
  - rewrite length_map. apply Permutation_length. apply order_by_perm.
Qed.

Lemma load_holes_df_lists_the_round_witness :
  exists lines,
    load_holes_df 1 (snd (upsert_hole 1 5 4 None None "" new_world))
    = Some lines
    /\ StronglySorted
         (fun a b => HoleLine.hole_number a < HoleLine.hole_number b) lines
    /\ (forall l, In l lines
                  <-> exists r,
                      In r (holes (database
                                     (snd (upsert_hole 1 5 4 None None ""
                                             new_world))))
                      /\ Hole.round_id r = 1
                      /\ hole_line r = l)
    /\ List.length lines
       = List.length
           (filter (fun r => Hole.round_id r =? 1)
              (holes (database
                        (snd (upsert_hole 1 5 4 None None "" new_world))))).
Proof.
  apply (load_holes_df_lists_the_round
           (snd (upsert_hole 1 5 4 None None "" new_world)) 1).
  - vm_compute. constructor; [intros [] | constructor].
  - reflexivity.
Defined.

(** X5: what [upsert_hole] wrote is what [load_holes_df] shows: after an
    accepted call the frame of that round has the line of the call, it is
    the only line with that hole number, and the lines of the other holes
    are the ones it had before. *)
Theorem upsert_hole_then_load_holes_df (w : World)
  (round_id hole_number strokes : Z) (putts penalties : option Z)
  (comment : string) :
  NoDup (map hole_key (holes (database w))) ->
  hole_ints_fit round_id hole_number strokes putts penalties = true ->
  between 1 18 hole_number = true ->
  between 1 25 strokes = true ->
  exists w' before after,
    upsert_hole round_id hole_number strokes putts penalties comment w
    = (inr tt, w')
    /\ load_holes_df round_id w = Some before
    /\ load_holes_df round_id w' = Some after
    /\ In (HoleLine.mk hole_number strokes putts penalties
             (Py.or_None comment)) after
    /\ (forall l, In l after -> HoleLine.hole_number l = hole_number ->
                  l = HoleLine.mk hole_number strokes putts penalties
                        (Py.or_None comment))
    /\ (forall l, HoleLine.hole_number l <> hole_number ->
                  (In l after <-> In l before)).
Proof.
  intros Hnd Hfit Hh Hs.
  destruct (upsert_hole_at w round_id hole_number strokes putts penalties
              comment Hnd Hfit Hh Hs)
    as (w' & id & E & Hat & _ & Hother & _).
  assert (Hrid : fits_int64 round_id = true).
  { unfold hole_ints_fit in Hfit. rewrite !andb_true_iff in Hfit. tauto. }
  exists w'. unfold load_holes_df. rewrite Hrid.
  eexists. eexists. split; [exact E |].
  split; [reflexivity |]. split; [reflexivity |].
  set (row := Hole.mk id round_id hole_number strokes putts penalties
                (Py.or_None comment)) in *.
  split; [| split].
  - apply in_map_iff. exists row. split; [reflexivity |].
    apply holes_of_round_at. cbn [row Hole.hole_number].
    rewrite Hat. now left.
  - intros l Hl Hn. apply in_map_iff in Hl. destruct Hl as (r & <- & Hr).
    apply holes_of_round_at in Hr. cbn [hole_line HoleLine.hole_number] in Hn.
    rewrite Hn, Hat in Hr. destruct Hr as [<- | []]. reflexivity.
  - intros l Hn. rewrite !in_map_iff.
    split; intros (r & <- & Hr); exists r; (split; [reflexivity |]);
      apply holes_of_round_at; apply holes_of_round_at in Hr;
      cbn [hole_line HoleLine.hole_number] in Hn.
    + rewrite <- Hother; [exact Hr | congruence].
    + rewrite Hother; [exact Hr | congruence].
Qed.

Lemma upsert_hole_then_load_holes_df_witness :
  exists w' before after,
    upsert_hole 1 5 4 (Some 2) None "" new_world = (inr tt, w')
    /\ load_holes_df 1 new_world = Some before
    /\ load_holes_df 1 w' = Some after
    /\ In (HoleLine.mk 5 4 (Some 2) None (Py.or_None "")) after
    /\ (forall l, In l after -> HoleLine.hole_number l = 5 ->
                  l = HoleLine.mk 5 4 (Some 2) None (Py.or_None ""))
    /\ (forall l, HoleLine.hole_number l <> 5 ->
                  (In l after <-> In l before)).
Proof.
  apply (upsert_hole_then_load_holes_df new_world 1 5 4 (Some 2) None "");
    solve [constructor | reflexivity].
Defined.

(** ** Saving a round and reading it back *)

Lemma form_hole_data_In (inputs : Z -> Z * Z * Z * string) (e : HoleEntry) :
  In e (form_hole_data inputs)
  <-> 1 <= entry_hole e <= 18
      /\ e = match inputs (entry_hole e) with
             | (s, p, q, c) => (entry_hole e, s, p, q, c)
             end.
Proof.
  unfold form_hole_data. rewrite in_map_iff. split.
  - intros (h & <- & Hh). apply in_map_iff in Hh.
    destruct Hh as (n & <- & Hn). apply in_seq in Hn.
    destruct (inputs (Z.of_nat n)) as [[[s p] q] c] eqn:E.
    cbn [entry_hole]. rewrite E. split; [lia | reflexivity].
  - intros [Hh ->]. exists (entry_hole e). split.
    + destruct (inputs (entry_hole e)) as [[[s p] q] c]. reflexivity.
    + apply in_map_iff. exists (Z.to_nat (entry_hole e)).
      split; [lia |]. apply in_seq. lia.
Qed.

Lemma form_hole_data_holes (inputs : Z -> Z * Z * Z * string) :
  map entry_hole (form_hole_data inputs) = map Z.of_nat (seq 1 18).
Proof.
  unfold form_hole_data. generalize (map Z.of_nat (seq 1 18)).
  induction l as [|h l IH]; [reflexivity |].
  cbn [map]. rewrite IH. now destruct (inputs h) as [[[s p] q] c].
Qed.

Lemma form_hole_data_valid (inputs : Z -> Z * Z * Z * string) :
  valid_inputs inputs -> forallb valid_entry (form_hole_data inputs) = true.
Proof.
  intros Hv. apply forallb_forall. intros e He.
  apply form_hole_data_In in He. destruct He as [Hh ->].
  specialize (Hv (entry_hole e)).
  destruct (inputs (entry_hole e)) as [[[s p] q] c].
  cbn [valid_entry]. rewrite !andb_true_iff, !between_spec. tauto.
Qed.

Lemma strokes_sum_entry_lines (hole_data : list HoleEntry) :
  strokes_sum (map entry_line hole_data) = total_strokes hole_data.
Proof.
  induction hole_data as [|[[[[h s] p] q] c] rest IH]; [reflexivity |].
  cbn [map strokes_sum total_strokes fold_right entry_line entry_strokes
       HoleLine.strokes].
  fold (strokes_sum (map entry_line rest)). fold (total_strokes rest).
  now rewrite IH.
Qed.

(** X6: a round saved from the form reads back as entered: [main_save] on
    the eighteen entries of the form returns the new round id, and
    [load_holes_df] of that round is then exactly the eighteen lines, in
    hole order, with the strokes entered, NULL for putts or penalties
    entered as 0 and for an empty comment; the total of their strokes is
    the total shown at saving. *)
Theorem saved_round_reads_back (w : World) (course_id : Z)
  (played_on tees round_notes : string) (inputs : Z -> Z * Z * Z * string) :
  NoDup (map hole_key (holes (database w))) ->
  Forall hole_checked (holes (database w)) ->
  fits_int64 course_id = true ->
  fits_int64 (next_rowid Round.id (rounds (database w))
                (seq_rounds (database w))) = true ->
  valid_inputs inputs ->
  exists new_round_id w',
    main_save course_id played_on tees round_notes (form_hole_data inputs) w
    = (inr new_round_id, w')
    /\ load_holes_df new_round_id w'
       = Some (map entry_line (form_hole_data inputs))
    /\ strokes_sum (map entry_line (form_hole_data inputs))
       = total_strokes (form_hole_data inputs).
Proof.
  intros Hnd Hchk Hc Hnew Hv.
  set (data := form_hole_data inputs).
  destruct (create_round_inserts w course_id played_on tees round_notes Hc)
    as (w1 & E1 & _ & _ & Hholes).
  set (rid := next_rowid Round.id (rounds (database w))
                (seq_rounds (database w))) in *.
  rewrite <- Hholes in Hnd, Hchk.
  assert (Hdistinct : NoDup (map entry_hole data)).
  { unfold data. rewrite form_hole_data_holes.
    apply Finite.Injective_map_NoDup; [| apply seq_NoDup].
    intros a b. apply Nat2Z.inj. }
  destruct (save_holes_at data w1 rid Hnd Hnew
              (form_hole_data_valid inputs Hv) Hdistinct)
    as (w' & E' & Hnd' & Hat & _).
  pose proof (save_holes_checked rid data w1 Hchk) as Hchk'.
  rewrite E' in Hchk'. cbn [snd] in Hchk'.
  exists rid, w'. unfold main_save. rewrite E1, E'.
  split; [reflexivity |]. split; [| apply strokes_sum_entry_lines].
  unfold load_holes_df. rewrite Hnew. f_equal.
  assert (Hline : forall e, In e data ->
             exists r, holes_at rid (entry_hole e) (holes (database w')) = [r]
                       /\ hole_line r = entry_line e).
  { intros [[[[h s] p] q] c] He. destruct (Hat h s p q c He) as (id & Hrow).
    eexists. split; [exact Hrow |].
    unfold hole_line, entry_line, positive_or_None. cbn.
    now rewrite or_None_spec. }
  apply (strictly_sorted_unique
           (fun a b => HoleLine.hole_number a < HoleLine.hole_number b)).
  - intros a b. lia.
  - apply StronglySorted_map. now apply holes_of_round_sorted.
  - apply StronglySorted_map.
    assert (Hs : StronglySorted Z.lt (map entry_hole data)).
    { unfold data. rewrite form_hole_data_holes. cbv [seq map Z.of_nat
        Pos.of_succ_nat Pos.succ].
      repeat (constructor; [| repeat (constructor; [lia |]); constructor]).
      constructor. }
    clearbody data. clear - Hs.
    induction data as [|e data IH]; [constructor |].
    cbn [map] in Hs. inversion Hs as [|? ? Hs' He]; subst.
    constructor; [now apply IH |].
    rewrite Forall_forall in *. intros x Hx.
    assert (Hxe : In (entry_hole x) (map entry_hole data))
      by now apply in_map.
    specialize (He _ Hxe).
    destruct e as [[[[h s] p] q] c], x as [[[[h' s'] p'] q'] c']. exact He.
  - intros l. rewrite !in_map_iff. split.
    + intros (r & <- & Hr).
      pose proof Hr as Hr'. apply holes_of_round_In in Hr'.
      destruct Hr' as [Hin Hround].
      rewrite Forall_forall in Hchk'. destruct (Hchk' r Hin) as [Hrange _].
      set (e := match inputs (Hole.hole_number r) with
                | (s, p, q, c) => (Hole.hole_number r, s, p, q, c)
                end).
      assert (Hh : entry_hole e = Hole.hole_number r).
      { unfold e. now destruct (inputs (Hole.hole_number r)) as [[[s p] q] c]. }
      assert (He : In e data).
      { apply form_hole_data_In. rewrite Hh. split; [exact Hrange |].
        reflexivity. }
      exists e. split; [| exact He].
      destruct (Hline e He) as (r' & Hrow & Hl).
      apply holes_of_round_at in Hr. rewrite <- Hh, Hrow in Hr.
      destruct Hr as [<- | []]. now symmetry.
    + intros (e & <- & He). destruct (Hline e He) as (r & Hrow & Hl).
      exists r. split; [exact Hl |].
      assert (Hin : In r (holes_at rid (entry_hole e) (holes (database w'))))
        by (rewrite Hrow; now left).
      unfold holes_at, hole_conflicts in Hin. apply filter_In in Hin.
      destruct Hin as [Hin Hk]. apply andb_true_iff in Hk.
      apply holes_of_round_In. split; [exact Hin |].
      now apply Z.eqb_eq.
Qed.

Lemma saved_round_reads_back_witness :
  exists new_round_id w',
    main_save 42 "2024-05-01" "" ""
      (form_hole_data (fun _ => (4, 0, 1, ""))) new_world
    = (inr new_round_id, w')
    /\ load_holes_df new_round_id w'
       = Some (map entry_line (form_hole_data (fun _ => (4, 0, 1, ""))))
    /\ strokes_sum (map entry_line (form_hole_data (fun _ => (4, 0, 1, ""))))
       = total_strokes (form_hole_data (fun _ => (4, 0, 1, ""))).
Proof.
  apply (saved_round_reads_back new_world 42 "2024-05-01" "" ""
           (fun _ => (4, 0, 1, ""))); try reflexivity.
  - constructor.
  - constructor.
  - intros h. lia.
Defined.

(** ** Rowids *)

Lemma insert_course_rowids (conn conn' : Connection)
  (osm_type : option string) (osm_id : Z) (name : string)
  (lat lon : option float) (access raw_tags now : string) :
  insert_course conn osm_type osm_id name lat lon access raw_tags now
  = inr conn' ->
  rowids_unique (tx conn) -> rowids_unique (tx conn').
Proof.
  unfold insert_course.
  destruct (fits_int64 osm_id); cbn [negb]; [| discriminate].
  destruct osm_type as [ty|]; [| discriminate].
  intros E (Hc & Hr & Hh). injection E as <-.
  split; [| split; assumption]. cbn [tx courses].
  destruct (existsb _ _).
  - now rewrite do_update_map.
  - rewrite map_app. apply NoDup_snoc; [exact Hc |].
    apply next_rowid_fresh.
Qed.

Lemma upsert_courses_loop_rowids (els : list Element) :
  forall (conn conn' : Connection) (n n' : Z) (w w' : World),
    rowids_unique (tx conn) ->
    upsert_courses_loop els conn n w = (inr (conn', n'), w') ->
    rowids_unique (tx conn').
Proof.
  induction els as [|el rest IH]; intros conn conn' n n' w w' Hu E.
  - cbn in E. now injection E as <- _ _.
  - cbn [upsert_courses_loop] in E.
    destruct (element_name el) as [name|]; [| exact (IH _ _ _ _ _ _ Hu E)].
    destruct (element_center_lat_lon el) as [lat lon].
    destruct (py_int (el_id el)) as [e|osm_id]; [discriminate |].
    destruct (utc_now_iso w) as [now w1].
    destruct (insert_course conn (el_type el) osm_id name lat lon
                (normalize_access (element_tags el))
                (Repr.str_dict (element_tags el)) now) as [e|conn1] eqn:E1;
      [discriminate |].
    apply (IH conn1 conn' (n + 1) n' w1 w'); [| exact E].
    exact (insert_course_rowids _ _ _ _ _ _ _ _ _ _ E1 Hu).
Qed.

Lemma upsert_courses_rowids (els : list Element) (w : World) :
  rowids_unique (database w) ->
  rowids_unique (database (snd (upsert_courses els w))).
Proof.
  intros Hu. unfold upsert_courses.
  pose proof (upsert_courses_loop_world els (db (database w)) 0 w) as Hw.
  destruct (upsert_courses_loop els (db (database w)) 0 w)
    as [[e|[conn' n']] w'] eqn:E; cbn [snd] in *.
  - now rewrite Hw.
  - cbn [commit database].
    exact (upsert_courses_loop_rowids els (db (database w)) _ _ _ _ _ Hu E).
Qed.

Lemma create_round_rowids (course_id : Z) (played_on tees notes : string)
  (w : World) :
  rowids_unique (database w) ->
  rowids_unique (database (snd (create_round course_id played_on tees notes
                                  w))).
Proof.
  intros (Hc & Hr & Hh).
  unfold create_round, insert_round, utc_now_iso, utcnow.
  cbn [db tx foreign_keys andb].
  destruct (fits_int64 course_id); cbn [negb snd]; [| now repeat split].
  repeat split; cbn; try assumption.
  rewrite map_app. apply NoDup_snoc; [exact Hr |]. apply next_rowid_fresh.
Qed.

Lemma upsert_hole_rowids (round_id hole_number strokes : Z)
  (putts penalties : option Z) (comment : string) (w : World) :
  rowids_unique (database w) ->
  rowids_unique
    (database (snd (upsert_hole round_id hole_number strokes putts penalties
                      comment w))).
Proof.
  intros (Hc & Hr & Hh).
  destruct (upsert_hole_cases round_id hole_number strokes putts penalties
              comment w)
    as [(e & E & _) | (w' & E & _ & _ & _ & Hc' & Hr' & Hholes)];
    rewrite E; cbn [snd]; [now repeat split |].
  unfold rowids_unique. rewrite Hc', Hr', Hholes.
  split; [exact Hc |]. split; [exact Hr |].
  destruct (existsb _ _).
  - now rewrite do_update_map.
  - rewrite map_app. apply NoDup_snoc; [exact Hh |]. apply next_rowid_fresh.
Qed.

Lemma save_holes_rowids (round_id : Z) (hole_data : list HoleEntry) :
  forall w : World,
    rowids_unique (database w) ->
    rowids_unique (database (snd (save_holes round_id hole_data w))).
Proof.
  induction hole_data as [|[[[[h s] p] q] c] rest IH]; intros w Hu;
    [exact Hu |].
  cbn [save_holes].
  pose proof (upsert_hole_rowids round_id h s
                (if 0 <? p then Some p else None)
                (if 0 <? q then Some q else None) c w Hu) as H.
  destruct (upsert_hole round_id h s _ _ c w) as [[e|u] w1]; cbn [snd] in *;
    [exact H | now apply IH].
Qed.

(** X7: rowids are never given twice: in each of the three tables the ids
    stay pairwise distinct under [upsert_courses], [create_round],
    [upsert_hole] and the save block of [main], whatever their arguments;
    and the id [create_round] returns is larger than the id of every round
    there was. *)
Theorem rowids_stay_unique (w : World) :
  rowids_unique (database w) ->
  rowids_unique (init_db None)
  /\ (forall els, rowids_unique (database (snd (upsert_courses els w))))
  /\ (forall course_id played_on tees notes,
         rowids_unique
           (database (snd (create_round course_id played_on tees notes w)))
         /\ forall new_id r,
             fst (create_round course_id played_on tees notes w) = inr new_id ->
             In r (rounds (database w)) -> Round.id r < new_id)
  /\ (forall round_id hole_number strokes putts penalties comment,
         rowids_unique
           (database (snd (upsert_hole round_id hole_number strokes putts
                             penalties comment w))))
  /\ (forall course_id played_on tees round_notes hole_data,
         rowids_unique
           (database (snd (main_save course_id played_on tees round_notes
                             hole_data w)))).
Proof.
  intros Hu. split; [repeat split; constructor |].
  split; [intros; now apply upsert_courses_rowids |].
  split; [| split; [intros; now apply upsert_hole_rowids |]].
  - intros course_id played_on tees notes.
    split; [now apply create_round_rowids |].
    intros new_id r. unfold create_round, insert_round, utc_now_iso, utcnow.
    cbn [db tx foreign_keys andb].
    destruct (fits_int64 course_id); cbn [negb fst]; [| discriminate].
    intros E Hr. injection E as <-.
    pose proof (max_rowid_ge Round.id _ r Hr). unfold next_rowid. lia.
  - intros course_id played_on tees round_notes hole_data. unfold main_save.
    pose proof (create_round_rowids course_id played_on tees round_notes w Hu)
      as Hc.
    destruct (create_round course_id played_on tees round_notes w)
      as [[e|new_round_id] w1]; cbn [snd] in *; [exact Hc |].
    pose proof (save_holes_rowids new_round_id hole_data w1 Hc) as Hs.
    destruct (save_holes new_round_id hole_data w1) as [[e|u] w2]; exact Hs.
Qed.

Lemma rowids_stay_unique_witness :
  rowids_unique (database (snd (upsert_courses [sample_course] stocked_world)))
  /\ forall new_id r,
      fst (create_round 1 "2024-05-01" "" "" stocked_world) = inr new_id ->
      In r (rounds (database stocked_world)) -> Round.id r < new_id.
Proof.
  assert (Hu : rowids_unique (database stocked_world)).
  { vm_compute. repeat split; repeat constructor. intros []. }
  destruct (rowids_stay_unique stocked_world Hu) as (_ & Hc & Hr & _).
  split; [apply Hc | apply (Hr 1 "2024-05-01" "" "")].
Defined.

(** ** The history of rounds *)

Lemma string_compare_refl (s : string) : String.compare s s = Eq.
Proof.
  induction s as [|c s IH]; cbn [String.compare]; [reflexivity |].
  unfold Ascii.compare. now rewrite N.compare_refl.
Qed.

Lemma round_before_total (a b : Round.row * Course.row) :
  round_before a b = true \/ round_before b a = true.
Proof.
  unfold round_before.
  rewrite (String.compare_antisym (Round.played_on (fst a))).
  destruct (String.compare (Round.played_on (fst b))
              (Round.played_on (fst a))); cbn [CompOpp]; auto.
  rewrite !Z.leb_le. lia.
Qed.

Lemma join_rounds_In (d : Database) (r : Round.row) (c : Course.row) :
  In (r, c) (join_rounds d)
  <-> In r (rounds d) /\ In c (courses d)
      /\ Course.id c = Round.course_id r.
Proof.
  unfold join_rounds. rewrite in_flat_map. split.
  - intros (r' & Hr & Hin). apply in_map_iff in Hin.
    destruct Hin as (c' & E & Hc). injection E as -> ->.
    apply filter_In in Hc. rewrite Z.eqb_eq in Hc. tauto.
  - intros (Hr & Hc & E). exists r. split; [exact Hr |].
    apply in_map. apply filter_In. rewrite Z.eqb_eq. tauto.
Qed.

(** Under the primary key of [courses] a round joins with one course at
    most. *)
Lemma courses_of_round (d : Database) (r : Round.row) :
  NoDup (map Course.id (courses d)) ->
  (course_exists d r = false
   /\ filter (fun c => Course.id c =? Round.course_id r) (courses d) = [])
  \/ (course_exists d r = true
      /\ exists c,
          filter (fun c => Course.id c =? Round.course_id r) (courses d)
          = [c]).
Proof.
  intros Hnd. unfold course_exists.
  destruct (existsb (fun c => Course.id c =? Round.course_id r) (courses d))
    eqn:E.
  - right. split; [reflexivity |].
    destruct (filter_unique Course.id
                (fun c => Course.id c =? Round.course_id r)
                (Round.course_id r) (courses d)
                (fun c => Z.eqb_eq _ _) Hnd E) as (c & Hc & _).
    eauto.
  - left. split; [reflexivity |]. now apply filter_none.
Qed.

Lemma join_rounds_length (d : Database) :
  NoDup (map Course.id (courses d)) ->
  List.length (join_rounds d)
  = List.length (filter (course_exists d) (rounds d)).
Proof.
  intros Hnd. unfold join_rounds.
  induction (rounds d) as [|r t IH]; [reflexivity |].
  cbn [flat_map filter]. rewrite length_app, length_map, IH.
  destruct (courses_of_round d r Hnd) as [[-> ->] | [-> (c & ->)]];
    reflexivity.
Qed.

Lemma join_rounds_ids (d : Database) :
  NoDup (map Course.id (courses d)) ->
  NoDup (map Round.id (rounds d)) ->
  NoDup (map (fun rc => Round.id (fst rc)) (join_rounds d)).
Proof.
  intros Hc. unfold join_rounds.
  induction (rounds d) as [|r t IH]; intros Hr; [constructor |].
  cbn [map] in Hr. inversion Hr as [|? ? Hfresh Hr']; subst.
  cbn [flat_map].
  destruct (courses_of_round d r Hc) as [[_ ->] | [_ (c & ->)]];
    cbn [map app]; [now apply IH |].
  constructor; [| now apply IH].
  cbn [fst]. intros Hin. apply Hfresh.
  apply in_map_iff in Hin. destruct Hin as ([r' c'] & E & Hin).
  apply in_flat_map in Hin. destruct Hin as (r'' & Hr'' & Hin).
  apply in_map_iff in Hin. destruct Hin as (c'' & E' & _).
  injection E' as -> ->. cbn [fst] in E. rewrite <- E. now apply in_map.
Qed.

Lemma Sorted_map {A B} (g : A -> B) (R : B -> B -> Prop) (l : list A) :
  Sorted (fun a b => R (g a) (g b)) l -> Sorted R (map g l).
Proof.
  induction 1 as [|a l Hs IH Ha]; cbn [map]; constructor; [exact IH |].
  destruct Ha; cbn [map]; constructor. assumption.
Qed.

Lemma Sorted_distinct {A B} (R : A -> A -> Prop) (f : A -> B) (l : list A) :
  Sorted R l -> NoDup (map f l) ->
  Sorted (fun a b => R a b /\ f a <> f b) l.
Proof.
  induction 1 as [|a l Hs IH Ha]; intros Hnd; constructor.
  - apply IH. cbn [map] in Hnd. now inversion Hnd.
  - destruct Ha as [|b l Hab]; constructor. split; [exact Hab |].
    cbn [map] in Hnd. inversion Hnd as [|? ? Hfresh _]; subst.
    intros E. apply Hfresh. rewrite E. now left.
Qed.

Lemma Sorted_impl {A} (R R' : A -> A -> Prop) (l : list A) :
  (forall a b, R a b -> R' a b) -> Sorted R l -> Sorted R' l.
Proof.
  intros H. induction 1 as [|a l Hs IH Ha]; constructor; [exact IH |].
  destruct Ha; constructor; auto.
Qed.

(** X8: the history lists the rounds joined to their course: a line for each
    pair of a round and the course with the id the round refers to, so a
    round whose course id matches no course has no line; no round is listed
    twice; and the lines go from the latest date played to the earliest,
    the later saved first within a date. *)
Theorem load_rounds_df_lists_joined_rounds (w : World) :
  rowids_unique (database w) ->
  (forall l, In l (load_rounds_df w)
             <-> exists r c,
                 In r (rounds (database w)) /\ In c (courses (database w))
                 /\ Course.id c = Round.course_id r
                 /\ l = round_line (r, c))
  /\ List.length (load_rounds_df w)
     = List.length (filter (course_exists (database w))
                      (rounds (database w)))
  /\ NoDup (map RoundLine.round_id (load_rounds_df w))
  /\ Sorted listed_before (load_rounds_df w).
Proof.
  intros (Hc & Hr & _). unfold load_rounds_df.
  assert (Hids : NoDup (map (fun rc => Round.id (fst rc))
                          (order_by round_before
                             (join_rounds (database w))))).
  { eapply Permutation_NoDup; [| exact (join_rounds_ids _ Hc Hr)].
    apply Permutation_map. symmetry. apply order_by_perm. }
  split; [| split; [| split]].
  - intros l. rewrite in_map_iff. split.
    + intros ([r c] & <- & Hin). apply order_by_In, join_rounds_In in Hin.
      exists r, c. tauto.
    + intros (r & c & H1 & H2 & H3 & ->). exists (r, c).
      split; [reflexivity |]. apply order_by_In, join_rounds_In. tauto.
  - rewrite length_map, <- (join_rounds_length _ Hc).
    apply Permutation_length, order_by_perm.
  - now rewrite map_map.
  - apply Sorted_map.
    apply (Sorted_impl
             (fun a b => round_before a b = true
                         /\ Round.id (fst a) <> Round.id (fst b))).
    + intros [ra ca] [rb cb] [Hb Hne]. unfold round_before in Hb.
      unfold listed_before. cbn [round_line fst RoundLine.played_on
        RoundLine.round_id] in *.
      destruct (String.compare (Round.played_on ra) (Round.played_on rb))
        eqn:E; [| discriminate | now left].
      right. apply String.compare_eq_iff in E. apply Z.leb_le in Hb.
      split; [exact E | lia].
    + apply Sorted_distinct; [| exact Hids].
      apply order_by_sorted, round_before_total.
Qed.

Lemma load_rounds_df_lists_joined_rounds_witness :
  let w := snd (create_round 1 "2024-05-01" "Blue" "" stocked_world) in
  (forall l, In l (load_rounds_df w)
             <-> exists r c,
                 In r (rounds (database w)) /\ In c (courses (database w))
                 /\ Course.id c = Round.course_id r
                 /\ l = round_line (r, c))
  /\ List.length (load_rounds_df w)
     = List.length (filter (course_exists (database w))
                      (rounds (database w)))
  /\ NoDup (map RoundLine.round_id (load_rounds_df w))
  /\ Sorted listed_before (load_rounds_df w).
Proof.
  apply (load_rounds_df_lists_joined_rounds
           (snd (create_round 1 "2024-05-01" "Blue" "" stocked_world))).
  vm_compute. repeat split; repeat constructor; intros [].
Defined.

Lemma create_round_world (w : World) (course_id : Z)
  (played_on tees notes : string) :
  fits_int64 course_id = true ->
  create_round course_id played_on tees notes w
  = (inr (next_rowid Round.id (rounds (database w)) (seq_rounds (database w))),
     mkWorld
       (mkDatabase (courses (database w))
          (rounds (database w)
           ++ [Round.mk
                 (next_rowid Round.id (rounds (database w))
                    (seq_rounds (database w)))
                 played_on course_id (Py.or_None tees) (Py.or_None notes)
                 (stamp (clock w (ticks w)))])%list
          (holes (database w)) (seq_courses (database w))
          (next_rowid Round.id (rounds (database w)) (seq_rounds (database w)))
          (seq_holes (database w)))
       (clock w) (S (ticks w)) (overpass w) (posted w)).
Proof.
  intros Hfit. unfold create_round, insert_round.
  rewrite utc_now_iso_stamp. cbn [db tx foreign_keys andb]. rewrite Hfit.
  reflexivity.
Qed.

(** X9: a round saved for a course that is there shows in the history
    under that course's name, with the date, tees and notes as stored; a
    round saved for a course id that no course has leaves the history as
    it was: it is stored and never listed. *)
Theorem create_round_then_load_rounds_df (w : World) (course_id : Z)
  (played_on tees notes : string) :
  fits_int64 course_id = true ->
  exists new_id w',
    create_round course_id played_on tees notes w = (inr new_id, w')
    /\ (forall c, In c (courses (database w)) -> Course.id c = course_id ->
                  In (RoundLine.mk new_id played_on (Course.name c)
                        (Py.or_None tees) (Py.or_None notes)
                        (stamp (clock w (ticks w))))
                     (load_rounds_df w'))
    /\ (existsb (fun c => Course.id c =? course_id) (courses (database w))
        = false ->
        load_rounds_df w' = load_rounds_df w
        /\ List.length (rounds (database w'))
           = S (List.length (rounds (database w)))).
Proof.
  intros Hfit. rewrite (create_round_world w course_id played_on tees notes Hfit).
  eexists. eexists. split; [reflexivity |]. split.
  - intros c Hc Hid. unfold load_rounds_df. apply in_map_iff.
    exists (Round.mk
              (next_rowid Round.id (rounds (database w))
                 (seq_rounds (database w)))
              played_on course_id (Py.or_None tees) (Py.or_None notes)
              (stamp (clock w (ticks w))), c).
    split; [reflexivity |].
    apply order_by_In, join_rounds_In. cbn [database rounds courses].
    split; [apply in_or_app; right; now left |]. split; [exact Hc |].
    exact Hid.
  - intros Hmissing. cbn [database rounds]. split.
    + unfold load_rounds_df, join_rounds. cbn [database rounds courses].
      rewrite flat_map_app. cbn [flat_map Round.course_id].
      rewrite (filter_none _ _ Hmissing). cbn [map app].
      now rewrite app_nil_r.
    + rewrite length_app. cbn. lia.
Qed.

Lemma create_round_then_load_rounds_df_witness :
  exists new_id w',
    create_round 42 "2024-05-01" "" "" stocked_world = (inr new_id, w')
    /\ (forall c, In c (courses (database stocked_world)) ->
                  Course.id c = 42 ->
                  In (RoundLine.mk new_id "2024-05-01" (Course.name c)
                        (Py.or_None "") (Py.or_None "")
                        (stamp (clock stocked_world (ticks stocked_world))))
                     (load_rounds_df w'))
    /\ (existsb (fun c => Course.id c =? 42)
          (courses (database stocked_world)) = false ->
        load_rounds_df w' = load_rounds_df stocked_world
        /\ List.length (rounds (database w'))
           = S (List.length (rounds (database stocked_world)))).
Proof.
  apply (create_round_then_load_rounds_df stocked_world 42 "2024-05-01" "" "").
  reflexivity.
Defined.

(** ** More on [upsert_courses] *)

Lemma upsert_courses_loop_app (l1 l2 : list Element) :
  forall (conn : Connection) (n : Z) (w : World),
    upsert_courses_loop (l1 ++ l2)%list conn n w
    = match upsert_courses_loop l1 conn n w with
      | (inl e, w') => (inl e, w')
      | (inr (conn', n'), w') => upsert_courses_loop l2 conn' n' w'
      end.
Proof.
  induction l1 as [|el l1 IH]; intros conn n w; [reflexivity |].
  cbn [app upsert_courses_loop].
  destruct (element_name el); [| apply IH].
  destruct (element_center_lat_lon el) as [lat lon].
  destruct (py_int (el_id el)); [reflexivity |].
  destruct (utc_now_iso w) as [now w1].
  destruct (insert_course _ _ _ _ _ _ _ _ _); [reflexivity | apply IH].
Qed.

(** X10: [upsert_courses] on a batch whose named elements all have a type
    and an id that fits returns the number of named elements (an element
    that comes twice counts twice, though it leaves one row), and has read
    the clock once for each. *)
Theorem upsert_courses_counts_named_elements (els : list Element)
  (w : World) :
  batch_ok els = true ->
  exists w',
    upsert_courses els w
    = (inr (Z.of_nat (List.length (filter named els))), w')
    /\ ticks w' = (ticks w + List.length (filter named els))%nat.
Proof.
  intros Hok.
  destruct (upsert_courses_loop_returns els Hok (db (database w)) 0 w)
    as (conn' & w' & E & Ht & _).
  unfold upsert_courses. rewrite E. cbn [Z.add].
  eexists. split; [reflexivity | exact Ht].
Qed.

Lemma upsert_courses_counts_named_elements_witness :
  exists w',
    upsert_courses [sample_course; nameless_node; sample_course] new_world
    = (inr (Z.of_nat (List.length
                        (filter named
                           [sample_course; nameless_node; sample_course]))),
       w')
    /\ ticks w'
       = (ticks new_world
          + List.length (filter named
                           [sample_course; nameless_node; sample_course]))%nat.
Proof.
  apply (upsert_courses_counts_named_elements
           [sample_course; nameless_node; sample_course] new_world).
  reflexivity.
Defined.

(** X11: [upsert_courses] is all or nothing: when a named element of the
    batch has no id, an id beyond 64 bits or no type, the call raises
    (TypeError, OverflowError, or the NOT NULL violation of
    courses.osm_type) and the database is as it was before the call, the
    elements that came before it included. *)
Theorem upsert_courses_all_or_nothing (good rest : list Element)
  (bad : Element) (w : World) :
  batch_ok good = true ->
  named bad = true ->
  element_key bad = None ->
  exists w',
    upsert_courses (good ++ bad :: rest)%list w
    = (inl (match el_id bad with
            | None => TypeError
            | Some id =>
                if fits_int64 id
                then IntegrityError (NOT_NULL "courses.osm_type")
                else OverflowError
            end), w')
    /\ database w' = database w.
Proof.
  intros Hgood Hnamed Hkey.
  pose proof (upsert_courses_loop_world (good ++ bad :: rest)%list
                (db (database w)) 0 w) as Hw.
  unfold upsert_courses in *.
  rewrite upsert_courses_loop_app in *.
  destruct (upsert_courses_loop_returns good Hgood (db (database w)) 0 w)
    as (conn1 & w1 & E1 & _).
  rewrite E1 in *. cbn [upsert_courses_loop] in *.
  unfold named in Hnamed.
  destruct (element_name bad) as [name|]; [| discriminate].
  destruct (element_center_lat_lon bad) as [lat lon].
  unfold element_key in Hkey.
  destruct (el_id bad) as [id|]; cbn [py_int] in *.
  - destruct (utc_now_iso w1) as [now w2]. unfold insert_course in *.
    destruct (fits_int64 id); cbn [negb] in *.
    + destruct (el_type bad); [discriminate |]. eauto.
    + eauto.
  - eauto.
Qed.

Lemma upsert_courses_all_or_nothing_witness :
  exists w',
    upsert_courses
      ([sample_course]
       ++ mkElement None (Some 9) None None None
            (Some [("name", "Juniata")]) :: [renamed_course])%list
      new_world
    = (inl (match el_id (mkElement None (Some 9) None None None
                           (Some [("name", "Juniata")])) with
            | None => TypeError
            | Some id =>
                if fits_int64 id
                then IntegrityError (NOT_NULL "courses.osm_type")
                else OverflowError
            end), w')
    /\ database w' = database new_world.
Proof.
  apply (upsert_courses_all_or_nothing [sample_course] [renamed_course]
           (mkElement None (Some 9) None None None
              (Some [("name", "Juniata")])) new_world);
    reflexivity.
Defined.

Lemma do_update_keeps {Row} (conflicts : Row -> bool) (set : Row -> Row)
  (t : list Row) (r : Row) :
  In r t -> conflicts r = false -> In r (do_update conflicts set t).
Proof.
  induction t as [|x t IH]; cbn [do_update In]; [tauto |].
  intros [-> | H] Hr.
  - rewrite Hr. now left.
  - destruct (conflicts x); [now right | right; auto].
Qed.

Lemma insert_course_keeps (conn conn' : Connection) (ty : string)
  (osm_id : Z) (name : string) (lat lon : option float)
  (access raw_tags now : string) :
  insert_course conn (Some ty) osm_id name lat lon access raw_tags now
  = inr conn' ->
  (exists added,
      map (fun r => (Course.id r, course_key r)) (courses (tx conn'))
      = (map (fun r => (Course.id r, course_key r)) (courses (tx conn))
         ++ added)%list)
  /\ (forall r, In r (courses (tx conn)) -> course_key r <> (ty, osm_id) ->
                In r (courses (tx conn'))).
Proof.
  unfold insert_course.
  destruct (fits_int64 osm_id); cbn [negb]; [| discriminate].
  intros E. injection E as <-. cbn [tx courses].
  destruct (existsb _ _).
  - split.
    + exists []. rewrite app_nil_r. now apply do_update_map.
    + intros r Hr Hk. apply do_update_keeps; [exact Hr |].
      destruct (course_conflicts ty osm_id r) eqn:E; [| reflexivity].
      now apply course_conflicts_key in E.
  - split.
    + eexists. now rewrite map_app.
    + intros r Hr _. apply in_or_app. now left.
Qed.

Lemma upsert_courses_loop_keeps (els : list Element) :
  forall (conn conn' : Connection) (n n' : Z) (w w' : World),
    upsert_courses_loop els conn n w = (inr (conn', n'), w') ->
    (exists added,
        map (fun r => (Course.id r, course_key r)) (courses (tx conn'))
        = (map (fun r => (Course.id r, course_key r)) (courses (tx conn))
           ++ added)%list)
    /\ (forall r, In r (courses (tx conn)) ->
                  (forall el, In el els -> writes_at (course_key r) el = false) ->
                  In r (courses (tx conn'))).
Proof.
  induction els as [|el rest IH]; intros conn conn' n n' w w' E.
  - cbn in E. injection E as <- _ _. split; [| auto].
    exists []. now rewrite app_nil_r.
  - cbn [upsert_courses_loop] in E.
    destruct (element_name el) as [name|] eqn:Hname.
    2:{ destruct (IH _ _ _ _ _ _ E) as [Hadd Hkeep]. split; [exact Hadd |].
        intros r Hr Hw. apply Hkeep; [exact Hr |].
        intros el' Hel'. apply Hw. now right. }
    destruct (element_center_lat_lon el) as [lat lon].
    destruct (el_id el) as [osm_id|] eqn:Hid; cbn [py_int] in E;
      [| discriminate].
    destruct (utc_now_iso w) as [now w1].
    destruct (insert_course conn (el_type el) osm_id name lat lon
                (normalize_access (element_tags el))
                (Repr.str_dict (element_tags el)) now) as [e|conn1] eqn:E1;
      [discriminate |].
    destruct (el_type el) as [ty|] eqn:Hty.
    2:{ unfold insert_course in E1.
        destruct (fits_int64 osm_id); discriminate. }
    assert (Hfit : fits_int64 osm_id = true).
    { unfold insert_course in E1.
      destruct (fits_int64 osm_id); [reflexivity | discriminate]. }
    destruct (insert_course_keeps _ _ _ _ _ _ _ _ _ _ E1)
      as [(added1 & Hadd1) Hkeep1].
    destruct (IH _ _ _ _ _ _ E) as [(added2 & Hadd2) Hkeep2].
    split.
    + exists (added1 ++ added2)%list. now rewrite Hadd2, Hadd1, app_assoc.
    + intros r Hr Hw. apply Hkeep2.
      * apply Hkeep1; [exact Hr |].
        intros Hk. specialize (Hw el (or_introl eq_refl)).
        unfold writes_at, named, element_key in Hw.
        rewrite Hname, Hty, Hid, Hfit, Hk in Hw. cbn in Hw.
        now rewrite String.eqb_refl, Z.eqb_refl in Hw.
      * intros el' Hel'. apply Hw. now right.
Qed.

(** X12: [upsert_courses] never removes or moves a course: the rows there
    were keep their place, rowid and key, new rows come after them, and a
    row under whose key no element of the batch is written is left exactly
    as it was (a course that the service no longer returns stays). *)
Theorem upsert_courses_never_deletes (els : list Element) (w : World) :
  (exists added,
      map (fun r => (Course.id r, course_key r))
        (courses (database (snd (upsert_courses els w))))
      = (map (fun r => (Course.id r, course_key r)) (courses (database w))
         ++ added)%list)
  /\ (forall r, In r (courses (database w)) ->
                (forall el, In el els -> writes_at (course_key r) el = false) ->
                In r (courses (database (snd (upsert_courses els w)))))
  /\ (List.length (courses (database w))
      <= List.length (courses (database (snd (upsert_courses els w)))))%nat.
Proof.
  assert (H : (exists added,
      map (fun r => (Course.id r, course_key r))
        (courses (database (snd (upsert_courses els w))))
      = (map (fun r => (Course.id r, course_key r)) (courses (database w))
         ++ added)%list)
  /\ (forall r, In r (courses (database w)) ->
                (forall el, In el els -> writes_at (course_key r) el = false) ->
                In r (courses (database (snd (upsert_courses els w)))))).
  { unfold upsert_courses.
    pose proof (upsert_courses_loop_world els (db (database w)) 0 w) as Hw.
    destruct (upsert_courses_loop els (db (database w)) 0 w)
      as [[e|[conn' n']] w'] eqn:E; cbn [snd] in *.
    - rewrite Hw. split; [| auto]. exists []. now rewrite app_nil_r.
    - cbn [commit database].
      exact (upsert_courses_loop_keeps els (db (database w)) _ _ _ _ _ E). }
  destruct H as [(added & Hadd) Hkeep].
  split; [eauto |]. split; [exact Hkeep |].
  rewrite <- (length_map (fun r => (Course.id r, course_key r))
                (courses (database (snd (upsert_courses els w))))),
    Hadd, length_app, length_map. lia.
Qed.

(** X13: an element that has a name but no coordinates at all (no lat, no
    lon, no center) is not passed over: it is stored, with NULL in [lat]
    and [lon]. *)
Theorem element_without_coordinates_is_stored (w : World) (el : Element)
  (name ty : string) (id : Z) :
  NoDup (map course_key (courses (database w))) ->
  element_name el = Some name ->
  el_type el = Some ty ->
  el_id el = Some id ->
  fits_int64 id = true ->
  el_lat el = None -> el_lon el = None -> el_center el = None ->
  exists w' rowid,
    upsert_courses [el] w = (inr 1, w')
    /\ courses_at ty id (courses (database w'))
       = [Course.mk rowid ty id name None None
            (Some (normalize_access (element_tags el)))
            (Some (Repr.str_dict (element_tags el)))
            (stamp (clock w (ticks w)))].
Proof.
  intros Hnd Hname Hty Hid Hfit Hlat Hlon Hcenter.
  assert (Hcoord : element_center_lat_lon el = (None, None)).
  { unfold element_center_lat_lon. rewrite Hlat, Hlon, Hcenter.
    now destruct (is_node el). }
  unfold upsert_courses.
  rewrite (upsert_courses_loop_step el [] _ 0 w name ty id Hname Hty Hid).
  rewrite Hcoord, utc_now_iso_stamp. cbn [fst snd].
  destruct (insert_course_at (db (database w)) ty id name None None
              (normalize_access (element_tags el))
              (Repr.str_dict (element_tags el))
              (stamp (clock w (ticks w))) Hfit Hnd)
    as (conn1 & rowid & E1 & Hat1 & _).
  rewrite E1. cbn [upsert_courses_loop].
  eexists. exists rowid. split; [reflexivity | exact Hat1].
Qed.

Lemma element_without_coordinates_is_stored_witness :
  exists w' rowid,
    upsert_courses [sample_course] new_world = (inr 1, w')
    /\ courses_at "way" 1001 (courses (database w'))
       = [Course.mk rowid "way" 1001 "Cobbs Creek" None None
            (Some (normalize_access (element_tags sample_course)))
            (Some (Repr.str_dict (element_tags sample_course)))
            (stamp (clock new_world (ticks new_world)))].
Proof.
  apply (element_without_coordinates_is_stored new_world sample_course
           "Cobbs Creek" "way" 1001);
    solve [constructor | reflexivity].
Defined.

(** ** More on [maybe_refresh_courses] *)

(** On a stamped table [courses_last_updated] returns: nothing for an empty
    table, and otherwise the second of a valid reading that no stamp of the
    table exceeds. *)
Lemma courses_last_updated_stamped (w : World) :
  stamped (courses (database w)) ->
  (courses (database w) = [] /\ courses_last_updated w = inr None)
  \/ (exists T,
         Datetime.valid T = true
         /\ courses_last_updated w
            = inr (Some (Datetime.replace_tzinfo (Some 0) (whole_second T)))
         /\ forall r reading,
             In r (courses (database w)) ->
             Datetime.valid reading = true ->
             Course.updated_at_utc r = stamp reading ->
             instant reading <= instant T).
Proof.
  intros Hst. destruct (stamped_readings _ Hst) as (readings & Hmap & Hvalid).
  destruct readings as [|m l].
  - left. destruct (courses (database w)) as [|r t] eqn:E; [| discriminate].
    split; [reflexivity |]. unfold courses_last_updated. now rewrite E.
  - right. inversion Hvalid as [|? ? Hm Hl]; subst.
    destruct (fold_text_max_stamps l m Hm Hl) as (c & E & Hc & Hcin & Hall).
    exists c. split; [exact Hc |]. split.
    + unfold courses_last_updated.
      rewrite select_max_updated_at_map, Hmap. cbn [map].
      now rewrite E, stamp_truthy, (fromisoformat_stamp c Hc).
    + intros r reading Hr Hv Hs.
      assert (Hin : In (stamp reading) (map stamp (m :: l))).
      { rewrite <- Hmap, <- Hs. now apply in_map. }
      apply in_map_iff in Hin. destruct Hin as (t & Et & Ht).
      rewrite Forall_forall in Hall, Hvalid.
      specialize (Hall t Ht). specialize (Hvalid t Ht).
      pose proof (compare_stamp t reading Hvalid Hv) as Hcmp.
      rewrite Et, string_compare_refl in Hcmp.
      rewrite (compare_fields_instant t reading Hvalid Hv) in Hcmp.
      symmetry in Hcmp. apply Z.compare_eq in Hcmp. lia.
Qed.

(** X14: with [force] set, or on an empty course table, the call goes to the
    service whatever the age of the cache: exactly one request is posted,
    for the centre and radius given, and the elements of the answer are
    upserted. *)
Theorem refresh_when_forced_or_empty (w : World) (lat lon : float)
  (radius_m : Z) (force : bool) :
  stamped (courses (database w)) ->
  force = true \/ courses (database w) = [] ->
  let q := mkQuery lat lon radius_m in
  let result := maybe_refresh_courses lat lon radius_m force w in
  posted (snd result) = (posted w ++ [q])%list
  /\ forall els,
      overpass w q = Body (Some els) ->
      result
      = match upsert_courses els
                (mkWorld (database w) (clock w) (S (ticks w)) (overpass w)
                   (posted w ++ [q])%list) with
        | (inl e, w') => (inl e, w')
        | (inr count, w') => (inr (Refreshed count), w')
        end.
Proof.
  intros Hst Hwhy q result.
  assert (Hresult : result = refresh lat lon radius_m (tick w)).
  { unfold result, maybe_refresh_courses.
    destruct Hwhy as [-> | Hempty].
    - destruct (courses_last_updated_stamped w Hst)
        as [[_ ->] | (T & _ & -> & _)]; reflexivity.
    - assert (E : courses_last_updated w = inr None)
        by (unfold courses_last_updated; now rewrite Hempty).
      rewrite E. now destruct force. }
  rewrite Hresult. split.
  - rewrite refresh_posted. reflexivity.
  - intros els Hanswer. unfold refresh, fetch_courses_overpass, tick.
    cbn [utcnow snd database clock ticks overpass posted].
    fold q. now rewrite Hanswer.
Qed.

Lemma refresh_when_forced_or_empty_witness :
  let q := mkQuery PHILLY_LAT PHILLY_LON DEFAULT_RADIUS_M in
  let result :=
    maybe_refresh_courses PHILLY_LAT PHILLY_LON DEFAULT_RADIUS_M true
      stocked_world in
  posted (snd result) = (posted stocked_world ++ [q])%list
  /\ forall els,
      overpass stocked_world q = Body (Some els) ->
      result
      = match upsert_courses els
                (mkWorld (database stocked_world) (clock stocked_world)
                   (S (ticks stocked_world)) (overpass stocked_world)
                   (posted stocked_world ++ [q])%list) with
        | (inl e, w') => (inl e, w')
        | (inr count, w') => (inr (Refreshed count), w')
        end.
Proof.
  apply (refresh_when_forced_or_empty stocked_world PHILLY_LAT PHILLY_LON
           DEFAULT_RADIUS_M true).
  - constructor; [| constructor]. exists noon. split; reflexivity.
  - now left.
Defined.

Lemma upsert_courses_nothing (w : World) :
  upsert_courses [] w = (inr 0, w).
Proof. destruct w. reflexivity. Qed.

(** X15: when the exchange with the service fails, the database is left as
    it was and the call never reports a refresh, whatever the state of the
    cache and whether forced or not; forced, it raises what [requests]
    raised.  An answer without an [elements] key counts as an empty one:
    forced, the call reports 0 items and leaves the database as it was. *)
Theorem service_failure_leaves_the_cache (w : World) (lat lon : float)
  (radius_m : Z) :
  stamped (courses (database w)) ->
  let q := mkQuery lat lon radius_m in
  (overpass w q = Failure ->
   (forall force,
       database (snd (maybe_refresh_courses lat lon radius_m force w))
       = database w
       /\ forall count,
           fst (maybe_refresh_courses lat lon radius_m force w)
           <> inr (Refreshed count))
   /\ fst (maybe_refresh_courses lat lon radius_m true w)
      = inl RequestException)
  /\ (overpass w q = Body None ->
      fst (maybe_refresh_courses lat lon radius_m true w)
      = inr (Refreshed 0)
      /\ database (snd (maybe_refresh_courses lat lon radius_m true w))
         = database w).
Proof.
  intros Hst q.
  assert (Hforced : maybe_refresh_courses lat lon radius_m true w
                    = refresh lat lon radius_m (tick w)).
  { unfold maybe_refresh_courses.
    destruct (courses_last_updated_stamped w Hst)
      as [[_ ->] | (T & _ & -> & _)]; reflexivity. }
  set (w0 := mkWorld (database w) (clock w) (S (ticks w)) (overpass w)
               (posted w)).
  change (tick w) with w0 in Hforced.
  assert (Hdown : overpass w q = Failure ->
                  refresh lat lon radius_m w0
                  = (inl RequestException,
                     mkWorld (database w) (clock w) (S (ticks w)) (overpass w)
                       (posted w ++ [q])%list)).
  { intros Hf. unfold refresh, fetch_courses_overpass, w0.
    cbn [database clock ticks overpass posted].
    fold q. now rewrite Hf. }
  split.
  - intros Hf. split; [| now rewrite Hforced, (Hdown Hf)].
    intros force. unfold maybe_refresh_courses.
    destruct (courses_last_updated w) as [e|last];
      [split; [reflexivity | discriminate] |].
    unfold utcnow. fold w0.
    destruct (if force then None else last) as [last_t|].
    + destruct (Datetime.sub _ _) as [e|age];
        [split; [reflexivity | discriminate] |].
      destruct (age_below_ttl age);
        [split; [reflexivity | discriminate] |].
      rewrite (Hdown Hf). split; [reflexivity | discriminate].
    + rewrite (Hdown Hf). split; [reflexivity | discriminate].
  - intros Hb. rewrite Hforced. unfold refresh, fetch_courses_overpass, w0.
    cbn [database clock ticks overpass posted].
    fold q. rewrite Hb, upsert_courses_nothing. split; reflexivity.
Qed.

Lemma service_failure_leaves_the_cache_witness :
  let q := mkQuery PHILLY_LAT PHILLY_LON DEFAULT_RADIUS_M in
  (overpass stocked_world q = Failure ->
   (forall force,
       database (snd (maybe_refresh_courses PHILLY_LAT PHILLY_LON
                        DEFAULT_RADIUS_M force stocked_world))
       = database stocked_world
       /\ forall count,
           fst (maybe_refresh_courses PHILLY_LAT PHILLY_LON DEFAULT_RADIUS_M
                  force stocked_world)
           <> inr (Refreshed count))
   /\ fst (maybe_refresh_courses PHILLY_LAT PHILLY_LON DEFAULT_RADIUS_M true
             stocked_world)
      = inl RequestException)
  /\ (overpass stocked_world q = Body None ->
      fst (maybe_refresh_courses PHILLY_LAT PHILLY_LON DEFAULT_RADIUS_M true
             stocked_world)
      = inr (Refreshed 0)
      /\ database (snd (maybe_refresh_courses PHILLY_LAT PHILLY_LON
                          DEFAULT_RADIUS_M true stocked_world))
         = database stocked_world).
Proof.
  apply (service_failure_leaves_the_cache stocked_world PHILLY_LAT PHILLY_LON
           DEFAULT_RADIUS_M).
  constructor; [| constructor]. exists noon. split; reflexivity.
Defined.

Lemma do_update_hits {Row} (conflicts : Row -> bool) (set : Row -> Row)
  (t : list Row) :
  existsb conflicts t = true ->
  exists r, In (set r) (do_update conflicts set t).
Proof.
  induction t as [|x t IH]; cbn [existsb do_update]; [discriminate |].
  destruct (conflicts x); cbn [orb].
  - intros _. exists x. now left.
  - intros H. destruct (IH H) as (r & Hr). exists r. now right.
Qed.

(** An accepted statement leaves a row that carries its [updated_at]. *)
Lemma insert_course_leaves_stamp (conn conn' : Connection)
  (osm_type : option string) (osm_id : Z) (name : string)
  (lat lon : option float) (access raw_tags now : string) :
  insert_course conn osm_type osm_id name lat lon access raw_tags now
  = inr conn' ->
  exists r, In r (courses (tx conn')) /\ Course.updated_at_utc r = now.
Proof.
  unfold insert_course.
  destruct (fits_int64 osm_id); cbn [negb]; [| discriminate].
  destruct osm_type as [ty|]; [| discriminate].
  intros E. injection E as <-. cbn [tx courses].
  destruct (existsb _ _) eqn:Hex.
  - destruct (do_update_hits _ (course_set name (sqlite_real lat)
                                  (sqlite_real lon) (Some access)
                                  (Some raw_tags) now) _ Hex) as (r & Hr).
    eexists. split; [exact Hr | reflexivity].
  - eexists. split; [apply in_or_app; right; now left | reflexivity].
Qed.

Lemma upsert_courses_loop_leaves_stamp (els : list Element) :
  forall (conn conn' : Connection) (n n' : Z) (w w' : World),
    upsert_courses_loop els conn n w = (inr (conn', n'), w') ->
    (exists r k, In r (courses (tx conn))
                 /\ Course.updated_at_utc r = stamp (clock w k))
    \/ filter named els <> [] ->
    exists r k, In r (courses (tx conn'))
                /\ Course.updated_at_utc r = stamp (clock w k).
Proof.
  induction els as [|el rest IH]; intros conn conn' n n' w w' E Hwhy.
  - cbn in E. injection E as <- _ _.
    destruct Hwhy as [H | H]; [exact H | now destruct H].
  - cbn [upsert_courses_loop] in E. cbn [filter] in Hwhy. unfold named in Hwhy.
    destruct (element_name el) as [name|];
      [| exact (IH _ _ _ _ _ _ E Hwhy)].
    destruct (element_center_lat_lon el) as [lat lon].
    destruct (py_int (el_id el)) as [e|osm_id]; [discriminate |].
    rewrite utc_now_iso_stamp in E.
    destruct (insert_course conn (el_type el) osm_id name lat lon
                (normalize_access (element_tags el))
                (Repr.str_dict (element_tags el))
                (stamp (clock w (ticks w)))) as [e|conn1] eqn:E1;
      [discriminate |].
    destruct (insert_course_leaves_stamp _ _ _ _ _ _ _ _ _ _ E1)
      as (r & Hr & Hs).
    apply (IH conn1 conn' (n + 1) n' (tick w) w' E).
    left. exists r, (ticks w). auto.
Qed.

(** X16: after a refresh that wrote at least one course, the next call
    without force is served from the cache and posts nothing, as long as
    the clock has not run a TTL past the seconds it showed during the
    refresh. *)
Theorem refresh_then_cache_hit (w : World) (lat lon : float) (radius_m : Z)
  (els : list Element) :
  stamped (courses (database w)) ->
  (forall k, Datetime.valid (clock w k) = true) ->
  (forall i j, Datetime.to_microseconds (clock w j) - instant (clock w i)
               < COURSE_CACHE_TTL_SEC * 1000000) ->
  overpass w (mkQuery lat lon radius_m) = Body (Some els) ->
  batch_ok els = true ->
  filter named els <> [] ->
  exists w1 last,
    maybe_refresh_courses lat lon radius_m true w
    = (inr (Refreshed (Z.of_nat (List.length (filter named els)))), w1)
    /\ maybe_refresh_courses lat lon radius_m false w1
       = (inr (UsingCached last), tick w1)
    /\ posted (tick w1) = (posted w ++ [mkQuery lat lon radius_m])%list.
Proof.
  intros Hst Hclock Hwindow Hanswer Hok Hnamed.
  set (q := mkQuery lat lon radius_m) in *.
  set (w0 := mkWorld (database w) (clock w) (S (ticks w)) (overpass w)
               (posted w ++ [q])%list).
  assert (Hfirst : maybe_refresh_courses lat lon radius_m true w
                   = match upsert_courses els w0 with
                     | (inl e, w') => (inl e, w')
                     | (inr count, w') => (inr (Refreshed count), w')
                     end).
  { unfold maybe_refresh_courses.
    destruct (courses_last_updated_stamped w Hst)
      as [[_ ->] | (T & _ & -> & _)];
      unfold refresh, fetch_courses_overpass;
      cbn [utcnow snd database clock ticks overpass posted];
      fold q; now rewrite Hanswer. }
  destruct (upsert_courses_loop_returns els Hok (db (database w0)) 0 w0)
    as (conn' & w' & E & _ & Hc).
  assert (Hup : upsert_courses els w0
                = (inr (Z.of_nat (List.length (filter named els))),
                   commit conn' w')).
  { unfold upsert_courses. now rewrite E. }
  rewrite Hfirst, Hup.
  set (w1 := commit conn' w').
  assert (Hclock1 : clock w1 = clock w) by exact Hc.
  assert (Hst1 : stamped (courses (database w1))).
  { exact (upsert_courses_loop_stamped els (db (database w0)) conn' 0 _
             w0 w' Hclock Hst E). }
  destruct (upsert_courses_loop_leaves_stamp els _ _ _ _ _ _ E
              (or_intror Hnamed)) as (r & k & Hr & Hs).
  destruct (courses_last_updated_stamped w1 Hst1)
    as [[Hempty _] | (T & HT & Elast & Hmax)].
  { exfalso. change (courses (database w1)) with (courses (tx conn')) in Hempty.
    rewrite Hempty in Hr. destruct Hr. }
  pose proof (Hmax r (clock w k) Hr (Hclock k) Hs) as Hle.
  assert (Hposted : posted w1 = (posted w ++ [q])%list).
  { pose proof (upsert_courses_loop_posted els (db (database w0)) 0 w0) as Hp.
    rewrite E in Hp. exact Hp. }
  exists w1. eexists. split; [reflexivity |]. split; [| exact Hposted].
  unfold maybe_refresh_courses. rewrite Elast.
  cbn [utcnow Datetime.sub Datetime.replace_tzinfo Datetime.tzinfo].
  fold (tick w1).
  match goal with
  | |- context [age_below_ttl ?a] =>
      replace (age_below_ttl a) with true; [reflexivity |]
  end.
  symmetry. unfold age_below_ttl. apply Z.ltb_lt.
  rewrite Hclock1.
  specialize (Hwindow k (ticks w1)).
  unfold instant, whole_second, Datetime.to_microseconds, Datetime.toordinal
    in *.
  cbn [Datetime.year Datetime.month Datetime.day Datetime.hour Datetime.minute
       Datetime.second Datetime.microsecond Datetime.replace_microsecond
       Datetime.replace_tzinfo] in *.
  lia.
Qed.

Lemma refresh_then_cache_hit_witness :
  exists w1 last,
    maybe_refresh_courses PHILLY_LAT PHILLY_LON DEFAULT_RADIUS_M true
      (answering_world [sample_course; nameless_node])
    = (inr (Refreshed
              (Z.of_nat (List.length
                           (filter named [sample_course; nameless_node])))),
       w1)
    /\ maybe_refresh_courses PHILLY_LAT PHILLY_LON DEFAULT_RADIUS_M false w1
       = (inr (UsingCached last), tick w1)
    /\ posted (tick w1)
       = (posted (answering_world [sample_course; nameless_node])
          ++ [mkQuery PHILLY_LAT PHILLY_LON DEFAULT_RADIUS_M])%list.
Proof.
  apply (refresh_then_cache_hit
           (answering_world [sample_course; nameless_node])
           PHILLY_LAT PHILLY_LON DEFAULT_RADIUS_M
           [sample_course; nameless_node]).
  - constructor.
  - intros k. reflexivity.
  - intros i j. vm_compute. reflexivity.
  - reflexivity.
  - reflexivity.
  - discriminate.
Defined.

(** ** Texts: access values and time stamps *)

Lemma lower_char_idem (c : ascii) :
  Py.lower_char (Py.lower_char c) = Py.lower_char c.
Proof. destruct c as [[] [] [] [] [] [] [] []]; reflexivity. Qed.

Lemma isspace_lower_char (c : ascii) :
  Py.isspace (Py.lower_char c) = Py.isspace c.
Proof. destruct c as [[] [] [] [] [] [] [] []]; reflexivity. Qed.

Lemma lower_idem (s : string) : Py.lower (Py.lower s) = Py.lower s.
Proof.
  induction s as [|c s IH]; cbn [Py.lower]; [reflexivity |].
  now rewrite lower_char_idem, IH.
Qed.

Lemma lstrip_lower (s : string) :
  Py.lstrip (Py.lower s) = Py.lower (Py.lstrip s).
Proof.
  induction s as [|c s IH]; cbn [Py.lower Py.lstrip]; [reflexivity |].
  rewrite isspace_lower_char. now destruct (Py.isspace c).
Qed.

Lemma rstrip_lower (s : string) :
  Py.rstrip (Py.lower s) = Py.lower (Py.rstrip s).
Proof.
  induction s as [|c s IH]; cbn [Py.lower Py.rstrip]; [reflexivity |].
  rewrite IH, isspace_lower_char.
  destruct (Py.rstrip s); cbn [Py.lower]; [| reflexivity].
  now destruct (Py.isspace c).
Qed.

Lemma rstrip_cons (c : ascii) (s : string) :
  Py.rstrip (String c s)
  = match Py.rstrip s with
    | EmptyString => if Py.isspace c then EmptyString else String c EmptyString
    | r => String c r
    end.
Proof. reflexivity. Qed.

Lemma rstrip_idem (s : string) : Py.rstrip (Py.rstrip s) = Py.rstrip s.
Proof.
  induction s as [|c s IH]; cbn [Py.rstrip]; [reflexivity |].
  destruct (Py.rstrip s) as [|d r] eqn:E.
  - destruct (Py.isspace c) eqn:Hc; cbn [Py.rstrip]; [reflexivity |].
    now rewrite Hc.
  - rewrite rstrip_cons, IH. reflexivity.
Qed.

Lemma lstrip_head (s : string) :
  Py.lstrip s = ""
  \/ exists c t, Py.lstrip s = String c t /\ Py.isspace c = false.
Proof.
  induction s as [|c s IH]; cbn [Py.lstrip]; [now left |].
  destruct (Py.isspace c) eqn:E; [exact IH | right; eauto].
Qed.

Lemma strip_idem (s : string) : Py.strip (Py.strip s) = Py.strip s.
Proof.
  unfold Py.strip.
  destruct (lstrip_head s) as [-> | (c & t & -> & Hc)]; [reflexivity |].
  assert (H : exists r, Py.rstrip (String c t) = String c r).
  { cbn [Py.rstrip]. destruct (Py.rstrip t); [rewrite Hc |]; eauto. }
  destruct H as (r & Hr).
  assert (L : Py.lstrip (Py.rstrip (String c t)) = Py.rstrip (String c t)).
  { rewrite Hr. cbn [Py.lstrip]. now rewrite Hc. }
  rewrite L. apply rstrip_idem.
Qed.

(** X17: the access value stored for a course is in canonical form:
    [lower] and [strip] leave it as it is; so the label shown for it is
    "Private" exactly for "private" and "Public/Playable" exactly for "yes",
    "permissive" and "customers". *)
Theorem normalize_access_is_canonical (tags : Py.dict) :
  let access := normalize_access tags in
  Py.lower access = access
  /\ Py.strip access = access
  /\ (access_label (Some access) = "Private" <-> access = "private")
  /\ (access_label (Some access) = "Public/Playable"
      <-> access = "yes" \/ access = "permissive" \/ access = "customers").
Proof.
  intros access.
  assert (Hlow : Py.lower access = access).
  { unfold access, normalize_access.
    destruct (Py.truthy _); [apply lower_idem |].
    match goal with |- context [Py.mem ?a ?b] => destruct (Py.mem a b) end;
      reflexivity. }
  assert (Hstrip : Py.strip access = access).
  { unfold access, normalize_access.
    destruct (Py.truthy _).
    - unfold Py.strip at 1. rewrite lstrip_lower, rstrip_lower.
      fold (Py.strip (Py.strip (Py.or_empty (Py.get tags "access")))).
      now rewrite strip_idem.
    - match goal with |- context [Py.mem ?a ?b] => destruct (Py.mem a b) end;
        reflexivity. }
  assert (Hlabel : access_label (Some access)
                   = if String.eqb access "private" then "Private"
                     else if Py.mem access ["yes"; "permissive"; "customers"]
                          then "Public/Playable" else "Unknown").
  { unfold access_label.
    destruct access as [|c s] eqn:E;
      [destruct (normalize_access_not_empty tags); exact E |].
    cbn [Py.truthy]. now rewrite Hlow. }
  split; [exact Hlow |]. split; [exact Hstrip |]. rewrite Hlabel.
  cbn [Py.mem existsb].
  destruct (String.eqb_spec access "private") as [-> | Hp].
  - split; [tauto |]. split; [discriminate |].
    intros [H | [H | H]]; discriminate.
  - destruct (String.eqb_spec access "yes") as [-> | Hy];
      [cbn; intuition discriminate |].
    destruct (String.eqb_spec access "permissive") as [-> | Hm];
      [cbn; intuition discriminate |].
    destruct (String.eqb_spec access "customers") as [-> | Hc];
      [cbn; intuition discriminate |].
    cbn. intuition (try discriminate; congruence).
Qed.

Lemma string_ltb_compare (a b : string) :
  String.ltb a b = true <-> String.compare a b = Lt.
Proof.
  unfold String.ltb. destruct (String.compare a b); split; congruence.
Qed.

(** X18: the text [utc_now_iso] writes is twenty characters long, reads back
    through [fromisoformat] (with Z turned into +00:00, as
    [courses_last_updated] does) as the second the clock showed, at offset
    0, and the byte order of two such texts is the order of their seconds:
    so the MAX of the texts is the latest stamp. *)
Theorem utc_now_iso_texts_order_as_times (w1 w2 : World) :
  Datetime.valid (clock w1 (ticks w1)) = true ->
  Datetime.valid (clock w2 (ticks w2)) = true ->
  let t1 := clock w1 (ticks w1) in
  let t2 := clock w2 (ticks w2) in
  let s1 := fst (utc_now_iso w1) in
  let s2 := fst (utc_now_iso w2) in
  String.length s1 = 20%nat
  /\ Datetime.fromisoformat (replace_Z s1)
     = inr (Datetime.replace_tzinfo (Some 0) (whole_second t1))
  /\ (String.ltb s1 s2 = true <-> instant t1 < instant t2)
  /\ (s1 = s2 <-> instant t1 = instant t2)
  /\ text_max s1 s2 = (if instant t1 <? instant t2 then s2 else s1).
Proof.
  intros H1 H2 t1 t2 s1 s2.
  assert (E1 : s1 = stamp t1) by reflexivity.
  assert (E2 : s2 = stamp t2) by reflexivity.
  rewrite E1, E2. clear E1 E2 s1 s2.
  pose proof (compare_stamp t1 t2 H1 H2) as Hcmp.
  rewrite (compare_fields_instant t1 t2 H1 H2) in Hcmp.
  split; [reflexivity |]. split; [now apply fromisoformat_stamp |].
  split; [| split].
  - rewrite string_ltb_compare, Hcmp. apply Z.compare_lt_iff.
  - split.
    + intros E. rewrite E, string_compare_refl in Hcmp.
      symmetry in Hcmp. now apply Z.compare_eq in Hcmp.
    + intros E. apply String.compare_eq_iff. rewrite Hcmp, E.
      apply Z.compare_refl.
  - rewrite (text_max_stamp t1 t2 H1 H2).
    now destruct (instant t1 <? instant t2).
Qed.

Lemma utc_now_iso_texts_order_as_times_witness :
  let w1 := stocked_world_at (Datetime.mk 2024 5 8 11 59 59 999999 None) in
  let w2 := stocked_world_at (Datetime.mk 2024 12 1 0 0 0 0 None) in
  let t1 := clock w1 (ticks w1) in
  let t2 := clock w2 (ticks w2) in
  let s1 := fst (utc_now_iso w1) in
  let s2 := fst (utc_now_iso w2) in
  String.length s1 = 20%nat
  /\ Datetime.fromisoformat (replace_Z s1)
     = inr (Datetime.replace_tzinfo (Some 0) (whole_second t1))
  /\ (String.ltb s1 s2 = true <-> instant t1 < instant t2)
  /\ (s1 = s2 <-> instant t1 = instant t2)
  /\ text_max s1 s2 = (if instant t1 <? instant t2 then s2 else s1).
Proof.
  intros w1 w2. apply (utc_now_iso_texts_order_as_times w1 w2); reflexivity.
Defined.

(** ** The save block commits call by call *)

Lemma save_holes_app (round_id : Z) (first rest : list HoleEntry) :
  forall w : World,
    save_holes round_id (first ++ rest)%list w
    = match save_holes round_id first w with
      | (inl e, w') => (inl e, w')
      | (inr _, w') => save_holes round_id rest w'
      end.
Proof.
  induction first as [|[[[[h s] p] q] c] first IH]; intros w;
    [reflexivity |].
  cbn [app save_holes].
  destruct (upsert_hole round_id h s _ _ c w) as [[e|u] w1];
    [reflexivity | apply IH].
Qed.

Lemma upsert_hole_rounds (round_id hole_number strokes : Z)
  (putts penalties : option Z) (comment : string) (w : World) :
  rounds (database
            (snd (upsert_hole round_id hole_number strokes putts penalties
                    comment w)))
  = rounds (database w).
Proof.
  unfold upsert_hole, insert_hole. cbn [db tx foreign_keys andb].
  repeat match goal with
         | |- context [if negb ?b then _ else _] => destruct b; cbn [negb snd]
         end; reflexivity.
Qed.

Lemma save_holes_rounds (round_id : Z) (hole_data : list HoleEntry) :
  forall w : World,
    rounds (database (snd (save_holes round_id hole_data w)))
    = rounds (database w).
Proof.
  induction hole_data as [|[[[[h s] p] q] c] rest IH]; intros w;
    [reflexivity |].
  cbn [save_holes].
  pose proof (upsert_hole_rounds round_id h s
                (if 0 <? p then Some p else None)
                (if 0 <? q then Some q else None) c w) as H.
  destruct (upsert_hole round_id h s _ _ c w) as [[e|u] w1]; cbn [snd] in *;
    [exact H |].
  now rewrite IH.
Qed.

(** X19: the save block is no transaction.  [create_round] and every
    [upsert_hole] commit on their own connection, so when the loop meets an
    entry whose strokes the CHECK refuses, the exception leaves the new
    round and the rows of the entries before it in the database, and the
    entries after it are never written. *)
Theorem save_block_commits_call_by_call (w : World)
  (course_id : Z) (played_on tees round_notes : string)
  (saved : list HoleEntry) (h s p q : Z) (c : string)
  (unsaved : list HoleEntry) :
  let new_round_id :=
    next_rowid Round.id (rounds (database w)) (seq_rounds (database w)) in
  NoDup (map hole_key (holes (database w))) ->
  fits_int64 course_id = true ->
  fits_int64 new_round_id = true ->
  forallb valid_entry saved = true ->
  NoDup (map entry_hole saved) ->
  between 1 18 h = true ->
  fits_int64 s = true ->
  between 1 25 s = false ->
  between 0 10 p = true ->
  between 0 10 q = true ->
  exists w',
    main_save course_id played_on tees round_notes
      (saved ++ (h, s, p, q, c) :: unsaved)%list w
    = (inl (IntegrityError (CHECK "strokes")), w')
    /\ rounds (database w')
       = (rounds (database w)
          ++ [Round.mk new_round_id played_on course_id (Py.or_None tees)
                (Py.or_None round_notes) (fst (utc_now_iso w))])%list
    /\ (forall h0 s0 p0 q0 c0,
           In (h0, s0, p0, q0, c0) saved ->
           exists id,
             holes_at new_round_id h0 (holes (database w'))
             = [Hole.mk id new_round_id h0 s0 (positive_or_None p0)
                  (positive_or_None q0) (Py.or_None c0)])
    /\ (forall h0,
           ~ In h0 (map entry_hole saved) ->
           holes_at new_round_id h0 (holes (database w'))
           = holes_at new_round_id h0 (holes (database w))).
Proof.
  intros new_round_id Hnd Hc Hnew Hvalid Hdistinct Hh Hfs Hs Hp Hq.
  destruct (create_round_inserts w course_id played_on tees round_notes Hc)
    as (w1 & E1 & Hrounds & _ & Hholes).
  fold new_round_id in E1, Hrounds.
  rewrite <- Hholes in Hnd.
  destruct (save_holes_at saved w1 new_round_id Hnd Hnew Hvalid Hdistinct)
    as (w2 & E2 & _ & Hat & Hother).
  assert (Hbad : upsert_hole new_round_id h s
                   (if 0 <? p then Some p else None)
                   (if 0 <? q then Some q else None) c w2
                 = (inl (IntegrityError (CHECK "strokes")), w2)).
  { unfold upsert_hole, insert_hole.
    rewrite Hnew, Hfs, !positive_or_None_fits by assumption.
    rewrite small_fits_int64 by (apply between_bounds in Hh; lia).
    rewrite Hh, Hs. reflexivity. }
  assert (Hr2 : rounds (database w2) = rounds (database w1)).
  { pose proof (save_holes_rounds new_round_id saved w1) as H.
    rewrite E2 in H. exact H. }
  exists w2. unfold main_save. rewrite E1, save_holes_app, E2.
  cbn [save_holes]. rewrite Hbad.
  split; [reflexivity |]. split; [now rewrite Hr2 |]. split.
  - intros h0 s0 p0 q0 c0 Hin.
    destruct (Hat h0 s0 p0 q0 c0 Hin) as (id & E). exists id.
    rewrite E. unfold positive_or_None. now rewrite or_None_spec.
  - intros h0 Hout. rewrite Hother by (intros _; exact Hout).
    now rewrite Hholes.
Qed.

Lemma save_block_commits_call_by_call_witness :
  exists w',
    main_save 42 "2024-05-01" "" ""
      [(1, 4, 2, 0, ""); (2, 26, 0, 0, ""); (3, 5, 0, 0, "")] new_world
    = (inl (IntegrityError (CHECK "strokes")), w')
    /\ rounds (database w')
       = (rounds (database new_world)
          ++ [Round.mk 1 "2024-05-01" 42 (Py.or_None "") (Py.or_None "")
                (fst (utc_now_iso new_world))])%list
    /\ (forall h0 s0 p0 q0 c0,
           In (h0, s0, p0, q0, c0) [(1, 4, 2, 0, "")] ->
           exists id,
             holes_at 1 h0 (holes (database w'))
             = [Hole.mk id 1 h0 s0 (positive_or_None p0)
                  (positive_or_None q0) (Py.or_None c0)])
    /\ (forall h0,
           ~ In h0 (map entry_hole [(1, 4, 2, 0, "")]) ->
           holes_at 1 h0 (holes (database w'))
           = holes_at 1 h0 (holes (database new_world))).
Proof.
  apply (save_block_commits_call_by_call new_world 42 "2024-05-01" "" ""
           [(1, 4, 2, 0, "")] 2 26 0 0 "" [(3, 5, 0, 0, "")]);
    try reflexivity.
  - constructor.
  - repeat constructor; simpl; intuition.
Defined.
